(** * dolphin-mcp: the bounded-concurrency snippet pipeline and the payload trimmer

    A shallow embedding of
    - [mapWithConcurrency] (util/concurrency.ts),
    - [fetchSnippetsInParallel] (mcp/tools/snippet_fetcher.ts),
    - the trimming stages of the [search_knowledge] handler
      (mcp/tools/search_knowledge.ts) with [jsonSizeBytes] (util/payloadCap.ts),
    and the properties of the specification that concern them. *)

From stdpp Require Import base tactics option list numbers strings gmap.
From Stdlib Require Import ZArith Lia DecimalString.

Local Open Scope Z_scope.

(** ** JavaScript strings

    A JavaScript string is a sequence of UTF-16 code units; [length] and
    [slice] count code units. *)
Module Js.

Definition jsstring : Type := list N.

(** An ASCII literal as a JavaScript string. *)
Definition lit (s : string) : jsstring :=
  Ascii.N_of_ascii <$> String.list_ascii_of_string s.

(** [s.slice(0, n)] for [0 <= n]. *)
Definition slice0 (n : nat) (s : jsstring) : jsstring := take n s.

(** The value a promise settles to. *)
Inductive Settlement (R E : Type) : Type :=
| Fulfilled (data : R)
| Rejected (error : E).
Arguments Fulfilled {R E} data.
Arguments Rejected {R E} error.

(** What a call of a function typed [(...) => Promise<R>] does: it throws
    before returning, or it returns a promise that settles later. *)
Inductive Invocation (R E : Type) : Type :=
| Throws (error : E)
| Returns (promise : Settlement R E).
Arguments Throws {R E} error.
Arguments Returns {R E} promise.

(** [a[i] = v] on an array with holes: a write past the end extends the
    array, the skipped slots stay holes. *)
Definition array_set {A} (a : list (option A)) (i : nat) (v : A) : list (option A) :=
  if decide (i < length a)%nat then <[i := Some v]> a
  else a ++ replicate (i - length a) None ++ [Some v].

End Js.
Import Js.

(** ** util/concurrency.ts *)
Module Concurrency.

Record TaskResult (R E : Type) : Type := mkTaskResult {
  index : nat;
  success : bool;
  data : option R;
  error : option E;
}.
Arguments mkTaskResult {R E} _ _ _ _.
Arguments index {R E} _.
Arguments success {R E} _.
Arguments data {R E} _.
Arguments error {R E} _.

(** [ConcurrencyPoolOptions]. The limit is an integer: the configuration
    reads it with [parseInt] and the callers pass counts. [onProgress] is a
    callback that returns normally; its calls are kept in the [progress]
    log of the pool. *)
Record ConcurrencyPoolOptions : Type := mkOptions {
  maxConcurrent : option Z;
}.

(** The variables closed over by the promise executor of
    [mapWithConcurrency], together with the suspended [runTask] frames.
    [invoked] and [peak] are observers: the mapper calls in order, and the
    largest number of mapper invocations that were in flight at once. *)
Record Pool (T R E : Type) : Type := mkPool {
  results : list (option (TaskResult R E));
  currentIndex : nat;
  activeCount : nat;
  resolved : bool;
  awaiting : list (nat * Settlement R E);
  progress : list (nat * nat);
  invoked : list (option T * nat);
  peak : nat;
}.
Arguments mkPool {T R E} _ _ _ _ _ _ _ _.
Arguments results {T R E} _.
Arguments currentIndex {T R E} _.
Arguments activeCount {T R E} _.
Arguments resolved {T R E} _.
Arguments awaiting {T R E} _.
Arguments progress {T R E} _.
Arguments invoked {T R E} _.
Arguments peak {T R E} _.

Section mapWithConcurrency.
Context {T R E : Type}.
Variable items : list T.
(** [items[index]] is [undefined] out of range, hence the [option]. *)
Variable mapper : option T -> nat -> Invocation R E.
Variable options : ConcurrencyPoolOptions.

Local Abbreviation pool := (Pool T R E).

(** [Math.max(1, options?.maxConcurrent ?? 8)] *)
Definition maxConcurrentOf : Z := Z.max 1 (default 8 (maxConcurrent options)).

(** [let hasError = false], never assigned. *)
Definition hasError : bool := false.

(** The [try] and [catch] arms: the record written at [results[index]]. *)
Definition taskResultOf (index : nat) (s : Settlement R E) : TaskResult R E :=
  match s with
  | Fulfilled d => mkTaskResult index true (Some d) None
  | Rejected e => mkTaskResult index false None (Some e)
  end.

Definition record (index : nat) (s : Settlement R E) (p : pool) : pool :=
  mkPool (array_set (results p) index (taskResultOf index s))
         (currentIndex p) (activeCount p) (resolved p) (awaiting p)
         (progress p) (invoked p) (peak p).

(** [updateProgress]: [filter] skips the holes of the array. *)
Definition updateProgress (p : pool) : pool :=
  let completedCount := length (omap id (results p)) in
  mkPool (results p) (currentIndex p) (activeCount p) (resolved p) (awaiting p)
         (progress p ++ [(completedCount, length items)]) (invoked p) (peak p).

Definition checkComplete (p : pool) : pool :=
  if bool_decide (length items <= currentIndex p)%nat
     && bool_decide (activeCount p = 0%nat) && negb hasError
  then mkPool (results p) (currentIndex p) (activeCount p) true (awaiting p)
              (progress p) (invoked p) (peak p)
  else p.

Definition decActive (p : pool) : pool :=
  mkPool (results p) (currentIndex p) (activeCount p - 1) (resolved p) (awaiting p)
         (progress p) (invoked p) (peak p).

(** [currentIndex++] *)
Definition bump (p : pool) : pool :=
  mkPool (results p) (S (currentIndex p)) (activeCount p) (resolved p) (awaiting p)
         (progress p) (invoked p) (peak p).

(** The [finally] block; [next] is [runTask]. *)
Definition finally (next : nat -> pool -> option pool) (p : pool) : option pool :=
  let p := checkComplete (updateProgress (decActive p)) in
  if bool_decide (currentIndex p < length items)%nat
     && (Z.of_nat (activeCount p) <? maxConcurrentOf) && negb hasError
  then next (currentIndex p) (bump p)
  else Some p.

(** [activeCount++; const item = items[index]; ... mapper(item, index)] *)
Definition enter (index : nat) (p : pool) : pool :=
  mkPool (results p) (currentIndex p) (S (activeCount p)) (resolved p) (awaiting p)
         (progress p) (invoked p ++ [(items !! index, index)])
         (peak p `max` S (length (awaiting p))).

Definition suspend (index : nat) (s : Settlement R E) (p : pool) : pool :=
  mkPool (results p) (currentIndex p) (activeCount p) (resolved p)
         (awaiting p ++ [(index, s)]) (progress p) (invoked p) (peak p).

(** [runTask(index)] up to its first suspension. A mapper that throws
    runs [catch] and [finally] at once, and [finally] may call [runTask]
    again: [fuel] bounds that nesting, [None] is "out of fuel". *)
Fixpoint runTask (fuel : nat) (index : nat) (p : pool) : option pool :=
  match fuel with
  | O => None
  | S fuel =>
      if hasError then Some p
      else
        let p := enter index p in
        match mapper (items !! index) index with
        | Returns s => Some (suspend index s p)
        | Throws e => finally (runTask fuel) (record index (Rejected e) p)
        end
  end.

(** The nesting of [runTask] is at most [items.length + 1] deep. *)
Definition depth : nat := S (length items).

(** The [k]-th suspended frame resumes: its promise has settled. *)
Definition resume (k : nat) (p : pool) : option pool :=
  match awaiting p !! k with
  | None => Some p
  | Some (index, s) =>
      let p := mkPool (results p) (currentIndex p) (activeCount p) (resolved p)
                      (delete k (awaiting p)) (progress p) (invoked p) (peak p) in
      finally (runTask depth) (record index s p)
  end.

Definition initialPool : pool :=
  mkPool (replicate (length items) None) 0 0 false [] [] [] 0.

(** [for (let i = 0; i < initialBatch; i++) runTask(currentIndex++)] *)
Fixpoint startBatch (n : nat) (p : pool) : option pool :=
  match n with
  | O => Some p
  | S n => p' ← runTask depth (currentIndex p) (bump p); startBatch n p'
  end.

Definition initialBatch : nat := Z.to_nat (Z.min maxConcurrentOf (Z.of_nat (length items))).

(** The promises settle in the order given by [sched]: entry [k] picks
    the frame [k mod n] among the [n] suspended ones. *)
Fixpoint run (sched : list nat) (p : pool) : option pool :=
  match sched with
  | [] => Some p
  | k :: sched =>
      match awaiting p with
      | [] => Some p
      | _ => p' ← resume (k mod length (awaiting p))%nat p; run sched p'
      end
  end.

(** The pool after the settlements of [sched]. The empty input returns
    its (empty) array at once. *)
Definition mapWithConcurrency (sched : list nat) : option pool :=
  if decide (length items = 0%nat)
  then Some (mkPool (results initialPool) 0 0 true [] [] [] 0)
  else p ← startBatch initialBatch initialPool; run sched p.

(** What the caller awaiting the promise holds: the [results] array
    itself once [resolve] has been called, so that a write made after
    [resolve] is seen too. *)
Definition returned (p : pool) : option (list (option (TaskResult R E))) :=
  if resolved p then Some (results p) else None.

(** *** Predicates used in the proofs *)

(** The bookkeeping at the head of [finally]. *)
Definition closing (p : pool) : pool :=
  checkComplete (updateProgress (decActive p)).

(** The pool between two events: the counter equals the number of
    suspended frames, and neither it nor the high-water mark exceeds the
    limit. *)
Definition steady (p : pool) : Prop :=
  activeCount p = length (awaiting p) /\
  Z.of_nat (peak p) <= maxConcurrentOf /\
  Z.of_nat (length (awaiting p)) <= maxConcurrentOf.

Definition runs_within (f : nat) (next : nat -> pool -> option pool) : Prop :=
  forall i q, steady q -> Z.of_nat (length (awaiting q)) < maxConcurrentOf ->
    (length items - currentIndex q < f)%nat ->
    exists q', next i q = Some q' /\ steady q' /\
      (length (awaiting q') <= S (length (awaiting q)))%nat /\
      (currentIndex q <= currentIndex q')%nat.

(** A mapper that never throws before it returns its promise, as every
    [async] function does. *)
Definition promising : Prop :=
  forall item i, exists s, mapper item i = Returns s.

(** [r] is the record of what the mapper's promise for position [i]
    settles to. *)
Definition expected (i : nat) (r : TaskResult R E) : Prop :=
  exists s, mapper (items !! i) i = Returns s /\ r = taskResultOf i s.

(** Items without a recorded result. *)
Definition backlog (p : pool) : nat :=
  (length items - currentIndex p + length (awaiting p))%nat.

Record tidy (p : pool) : Prop := {
  tidy_index : (currentIndex p <= length items)%nat;
  tidy_results : length (results p) = length items;
  tidy_active : activeCount p = length (awaiting p);
  tidy_room : Z.of_nat (length (awaiting p)) <= maxConcurrentOf;
  tidy_awaiting : forall i s, (i, s) ∈ awaiting p ->
    (i < currentIndex p)%nat /\ mapper (items !! i) i = Returns s;
  tidy_done : forall i, (i < currentIndex p)%nat ->
    (exists s, (i, s) ∈ awaiting p) \/
    (exists r, results p !! i = Some (Some r) /\ expected i r);
  tidy_invoked : invoked p = (fun i => (items !! i, i)) <$> seq 0 (currentIndex p);
}.

(** The pool is full while items remain, and the promise is resolved
    once nothing is in flight. *)
Definition saturated (p : pool) : Prop :=
  ((currentIndex p < length items)%nat ->
   Z.of_nat (length (awaiting p)) = maxConcurrentOf) /\
  (awaiting p = [] -> resolved p = true).

End mapWithConcurrency.

End Concurrency.

(** ** mcp/tools/snippet_fetcher.ts

    The logger calls are left out: they append to the log file, and are taken
    to succeed. *)
Module SnippetFetcher.

Record SnippetFetchRequest : Type := mkRequest {
  repo : jsstring;
  path : jsstring;
  startLine : Z;
  endLine : Z;
  contextLinesBefore : option Z;
  contextLinesAfter : option Z;
}.

Record SnippetFetchResult : Type := mkSnippet {
  content : jsstring;
  warnings : option (list jsstring);
  actualStartLine : option Z;
  actualEndLine : option Z;
  chunkStartLine : option Z;
  chunkEndLine : option Z;
}.

(** An [AbortSignal], by whether it is already aborted when it is read. *)
Record AbortSignal : Type := mkSignal { aborted : bool }.

Record SnippetFetchOptions : Type := mkFetchOptions {
  maxConcurrent : option Z;
  requestTimeoutMs : option Z;
  retryAttempts : option Z;
  signal : option AbortSignal;
}.

(** The fields of a [FileSliceResponse] that are read. *)
Record FileSliceResponse : Type := mkSlice {
  slice_content : jsstring;
  slice_warnings : option (list jsstring);
}.

(** What can be thrown at the mapper: an [Error] instance (a
    [DOMException] is one), the plain [RestError] object of [doFetch], or
    [undefined] ([throw lastError] when the loop made no attempt). *)
Inductive Thrown : Type :=
| ErrorObject (name message : jsstring)
| RestError (code message : jsstring)
| Undefined.

(** [(error instanceof Error ? error : new Error(String(error))).name] *)
Definition errName (e : Thrown) : jsstring :=
  match e with
  | ErrorObject name _ => name
  | RestError _ _ | Undefined => lit "Error"
  end.

Definition isAbortError (e : Thrown) : bool :=
  bool_decide (errName e = lit "AbortError").

(** What [fetch] rejects with once its signal is aborted. *)
Definition abortError : Thrown :=
  ErrorObject (lit "AbortError") (lit "The operation was aborted.").

(** One call of the remote service: how long after the start of the
    attempt it settles, and with what. *)
Record Reply : Type := mkReply {
  latency : Z;
  outcome : Thrown + FileSliceResponse;
}.

Record Metadata : Type := mkMetadata {
  m_actualStartLine : Z;
  m_actualEndLine : Z;
  m_chunkStartLine : Z;
  m_chunkEndLine : Z;
}.

(** What the mapper leaves behind: the calls of [restGetFileSlice], with
    the attempt number and the line range asked for, and the back-off
    sleeps in milliseconds. *)
Inductive Event : Type :=
| Attempt (attempt : Z) (fetchStartLine fetchEndLine : Z)
| Backoff (ms : Z).

(** White space and line terminators, as [String.prototype.trim] strips
    them. *)
Definition isWhiteSpace (u : N) : bool :=
  bool_decide (u ∈ [9; 10; 11; 12; 13; 32; 160; 5760; 8232; 8233; 8239; 8287; 12288; 65279]%N)
  || ((8192 <=? u)%N && (u <=? 8202)%N).

Fixpoint trimStart (s : jsstring) : jsstring :=
  match s with
  | u :: s' => if isWhiteSpace u then trimStart s' else s
  | [] => []
  end.

Definition trim (s : jsstring) : jsstring := reverse (trimStart (reverse (trimStart s))).

Section fetchSnippetsInParallel.
(** [restGetFileSlice] as called for the request at position [index] on
    its attempt number [attempt]. *)
Variable restGetFileSlice : nat -> Z -> jsstring -> jsstring -> Z -> Z -> Reply.
Variable options : SnippetFetchOptions.

(** [const { maxConcurrent = 8, requestTimeoutMs = 1500, retryAttempts = 1,
    signal: _signal } = options]; [_signal] is not used again. *)
Definition maxConcurrentOpt : Z := default 8 (maxConcurrent options).
Definition requestTimeoutMsOpt : Z := default 1500 (requestTimeoutMs options).
Definition retryAttemptsOpt : Z := default 1 (retryAttempts options).

Definition fetchStartLineOf (request : SnippetFetchRequest) : Z :=
  Z.max 1 (startLine request - default 0 (contextLinesBefore request)).
Definition fetchEndLineOf (request : SnippetFetchRequest) : Z :=
  endLine request + default 0 (contextLinesAfter request).

(** One attempt: [restGetFileSlice(request.repo.trim(), request.path,
    fetchStartLine, fetchEndLine, controller.signal)]. The timer of
    [requestTimeoutMs] aborts the controller whose signal the call was
    given, and an aborted [fetch] rejects with an [AbortError]; a reply
    that is there when the timer fires wins. *)
Definition callRemote (index : nat) (attempt : Z) (request : SnippetFetchRequest) : Reply :=
  restGetFileSlice index attempt (trim (repo request)) (path request)
    (fetchStartLineOf request) (fetchEndLineOf request).

Definition attemptOnce (index : nat) (attempt : Z) (request : SnippetFetchRequest)
  : Thrown + FileSliceResponse :=
  let reply := callRemote index attempt request in
  if requestTimeoutMsOpt <? latency reply then inl abortError else outcome reply.

Definition metadataOf (request : SnippetFetchRequest) : Metadata :=
  mkMetadata (fetchStartLineOf request) (fetchEndLineOf request)
             (startLine request) (endLine request).

(** [for (let attempt = 0; attempt <= retryAttempts; attempt++)], with
    [n] iterations left. *)
Fixpoint retryLoop (n : nat) (attempt : Z) (lastError : Thrown) (index : nat)
    (request : SnippetFetchRequest)
  : Settlement (FileSliceResponse * Metadata) Thrown * list Event :=
  match n with
  | O => (Rejected lastError, [])
  | S n =>
      let call := Attempt attempt (fetchStartLineOf request) (fetchEndLineOf request) in
      match attemptOnce index attempt request with
      | inr result => (Fulfilled (result, metadataOf request), [call])
      | inl error =>
          if isAbortError error then (Rejected error, [call])
          else
            let sleep := if attempt <? retryAttemptsOpt
                         then [Backoff (2 ^ attempt * 100)] else [] in
            let '(s, tr) := retryLoop n (attempt + 1) error index request in
            (s, call :: sleep ++ tr)
      end
  end.

(** The mapper given to [mapWithConcurrency], on a request. *)
Definition fetchWithRetry (index : nat) (request : SnippetFetchRequest)
  : Settlement (FileSliceResponse * Metadata) Thrown * list Event :=
  retryLoop (Z.to_nat (retryAttemptsOpt + 1)) 0 Undefined index request.

(** The mapper is an [async] function: it always returns a promise.
    Without an item, reading [request.repo] throws a [TypeError] inside
    the first attempt and again in its [catch] block. *)
Definition snippetMapper (item : option SnippetFetchRequest) (index : nat)
  : Invocation (FileSliceResponse * Metadata) Thrown :=
  match item with
  | Some request => Returns (fst (fetchWithRetry index request))
  | None =>
      Returns (Rejected (if 0 <=? retryAttemptsOpt
                         then ErrorObject (lit "TypeError") (lit "request is undefined")
                         else Undefined))
  end.

Definition failurePlaceholder : SnippetFetchResult :=
  mkSnippet (lit "") (Some [lit "Failed to load snippet"]) None None None None.

(** The body of [results.forEach]: [None] when [requests[index]] is
    [undefined] in the failure arm, where [request.repo] throws. *)
Definition snippetOf (requests : list SnippetFetchRequest) (index : nat)
    (result : Concurrency.TaskResult (FileSliceResponse * Metadata) Thrown)
  : option SnippetFetchResult :=
  match Concurrency.success result, Concurrency.data result with
  | true, Some (r, m) =>
      Some (mkSnippet (slice_content r) (slice_warnings r)
              (Some (m_actualStartLine m)) (Some (m_actualEndLine m))
              (Some (m_chunkStartLine m)) (Some (m_chunkEndLine m)))
  | _, _ =>
      match requests !! index with
      | Some _ => Some failurePlaceholder
      | None => None
      end
  end.

(** [results.forEach((result, index) => ...)] from position [index] on;
    holes are skipped. *)
Fixpoint forEachResult (requests : list SnippetFetchRequest) (index : nat)
    (results : list (option (Concurrency.TaskResult (FileSliceResponse * Metadata) Thrown)))
    (snippetMap : gmap nat SnippetFetchResult) : option (gmap nat SnippetFetchResult) :=
  match results with
  | [] => Some snippetMap
  | None :: results => forEachResult requests (S index) results snippetMap
  | Some result :: results =>
      snippet ← snippetOf requests index result;
      forEachResult requests (S index) results (<[index := snippet]> snippetMap)
  end.

(** How the promise of an [async] function stands. *)
Inductive Outcome (A : Type) : Type :=
| Pending
| Resolves (value : A)
| Rejects.

Definition fetchSnippetsInParallel (requests : list SnippetFetchRequest)
    (sched : list nat) : Outcome (gmap nat SnippetFetchResult) :=
  match Concurrency.mapWithConcurrency requests snippetMapper
          (Concurrency.mkOptions (Some maxConcurrentOpt)) sched with
  | None => Pending _
  | Some p =>
      match Concurrency.returned p with
      | None => Pending _
      | Some results =>
          match forEachResult requests 0 results ∅ with
          | Some snippetMap => Resolves _ snippetMap
          | None => Rejects _
          end
      end
  end.

(** *** Vocabulary of the statements *)

(** The attempts of a request that fails [k] times with errors that are
    retried: [Attempt 0], sleep 100, [Attempt 1], sleep 200, ...,
    [Attempt k]. *)
Fixpoint planFrom (k : nat) (attempt : Z) (request : SnippetFetchRequest) : list Event :=
  let call := Attempt attempt (fetchStartLineOf request) (fetchEndLineOf request) in
  match k with
  | O => [call]
  | S k => call :: Backoff (2 ^ attempt * 100) :: planFrom k (attempt + 1) request
  end.

(** Attempt [a] fails with an error that is not named [AbortError]. *)
Definition retryable (index : nat) (a : Z) (request : SnippetFetchRequest) : Prop :=
  exists e, attemptOnce index a request = inl e /\ isAbortError e = false.

Definition failing (index : nat) (a : Z) (request : SnippetFetchRequest) : Prop :=
  exists e, attemptOnce index a request = inl e.

(** What the attempt that ends the plan decides: a reply fulfils, an
    [AbortError] is terminal, and the last attempt of the budget rejects
    with its error; nothing follows in either case. *)
Definition verdict (index : nat) (k : Z) (request : SnippetFetchRequest)
    (s : Settlement (FileSliceResponse * Metadata) Thrown) (rest : list Event) : Prop :=
  match attemptOnce index k request with
  | inr r => s = Fulfilled (r, metadataOf request) /\ rest = []
  | inl e =>
      (isAbortError e = true -> s = Rejected e /\ rest = []) /\
      (k = retryAttemptsOpt -> s = Rejected e /\ rest = [])
  end.

Definition successOf (request : SnippetFetchRequest) (r : FileSliceResponse)
  : SnippetFetchResult :=
  mkSnippet (slice_content r) (slice_warnings r)
    (Some (fetchStartLineOf request)) (Some (fetchEndLineOf request))
    (Some (startLine request)) (Some (endLine request)).

End fetchSnippetsInParallel.

End SnippetFetcher.

(** ** util/payloadCap.ts

    [jsonSizeBytes(obj)] is [Buffer.byteLength(JSON.stringify(obj), "utf8")].
    A value is rendered compositionally, so its byte length is computed from
    the byte lengths of its parts. *)
Module PayloadCap.

Definition isLeadSurrogate (u : N) : bool := (55296 <=? u)%N && (u <=? 56319)%N.
Definition isTrailSurrogate (u : N) : bool := (56320 <=? u)%N && (u <=? 57343)%N.

(** The UTF-8 bytes [JSON.stringify] spends on a code unit that is not a
    surrogate: the two-character escapes of backspace, tab, line feed, form
    feed, carriage return, the double quote and the backslash; a six-character
    escape for the other control characters; otherwise the character itself. *)
Definition unitBytes (u : N) : Z :=
  if bool_decide (u ∈ [8; 9; 10; 12; 13; 34; 92]%N) then 2
  else if (u <? 32)%N then 6
  else if (u <? 128)%N then 1
  else if (u <? 2048)%N then 2
  else 3.

(** The bytes between the quotes. A lead surrogate followed by a trail
    surrogate is one character of four bytes; a surrogate on its own is
    written as a six-character escape. *)
Fixpoint quotedBytes (s : jsstring) : Z :=
  match s with
  | [] => 0
  | u :: s' =>
      if isLeadSurrogate u then
        match s' with
        | v :: s'' => if isTrailSurrogate v then 4 + quotedBytes s''
                      else 6 + quotedBytes s'
        | [] => 6
        end
      else if isTrailSurrogate u then 6 + quotedBytes s'
      else unitBytes u + quotedBytes s'
  end.

Definition jsonString (s : jsstring) : Z := 2 + quotedBytes s.

(** Cutting [s] after [n] code units separates a surrogate pair. *)
Definition splitsPair (n : nat) (s : jsstring) : bool :=
  match n with
  | O => false
  | S _ =>
      match s !! (n - 1)%nat, s !! n with
      | Some u, Some v => isLeadSurrogate u && isTrailSurrogate v
      | _, _ => false
      end
  end.

(** An integer as JavaScript prints it. *)
Definition decimal (z : Z) : jsstring :=
  lit (DecimalString.NilZero.string_of_int (Z.to_int z)).

Definition jsonInteger (z : Z) : Z := Z.of_nat (length (decimal z)).

Definition jsonBoolean (b : bool) : Z := if b then 4 else 5.

(** Parts joined by commas. *)
Definition separated (parts : list Z) : Z :=
  foldr Z.add 0 parts + Z.of_nat (pred (length parts)).

(** The bytes of the parts that follow a first part, commas included. *)
Definition tailBytes (l : list Z) : Z := foldr (fun y acc => 1 + y + acc) 0 l.

Definition jsonArray (elements : list Z) : Z := 2 + separated elements.
Definition jsonObject (members : list Z) : Z := 2 + separated members.

(** A quoted ASCII key, the colon and the value. *)
Definition member (key : string) (value : Z) : Z :=
  Z.of_nat (String.length key) + 3 + value.

(** A member whose value is [undefined] is left out. *)
Definition optionalMember (key : string) (value : option Z) : list Z :=
  match value with
  | Some v => [member key v]
  | None => []
  end.

End PayloadCap.

(** ** mcp/tools/search_knowledge.ts: the assembled result and its trimming *)
Module SearchKnowledge.
Import PayloadCap.

(** A content block: [{type: "text", text}] or
    [{type: "resource", resource: {uri, mimeType, text}}]. *)
Inductive Block : Type :=
| TextContent (text : jsstring)
| ResourceBlock (uri mimeType text : jsstring).

(** An entry of [metaHits]; [score] is kept as the text [JSON.stringify]
    prints for the number. *)
Record MetaHit : Type := mkMetaHit {
  chunk_id : jsstring;
  repo : jsstring;
  path : jsstring;
  start_line : Z;
  end_line : Z;
  score : jsstring;
}.

Record Meta : Type := mkMeta {
  hits : list MetaHit;
  cursor : option jsstring;
  estimated_total : option Z;
  complete : option bool;
  warnings : option (list jsstring);
  model : option jsstring;
  top_k : option Z;
  mcp_latency_ms : Z;
}.

Record CallToolResult : Type := mkResult {
  content : list Block;
  isError : bool;
  _meta : Meta;
}.

Definition blockBytes (b : Block) : Z :=
  match b with
  | TextContent text =>
      jsonObject [member "type" (jsonString (lit "text")); member "text" (jsonString text)]
  | ResourceBlock uri mimeType text =>
      jsonObject
        [member "type" (jsonString (lit "resource"));
         member "resource"
           (jsonObject [member "uri" (jsonString uri);
                        member "mimeType" (jsonString mimeType);
                        member "text" (jsonString text)])]
  end.

Definition hitBytes (h : MetaHit) : Z :=
  jsonObject
    [member "chunk_id" (jsonString (chunk_id h));
     member "repo" (jsonString (repo h));
     member "path" (jsonString (path h));
     member "start_line" (jsonInteger (start_line h));
     member "end_line" (jsonInteger (end_line h));
     member "score" (Z.of_nat (length (score h)))].

Definition metaBytes (m : Meta) : Z :=
  jsonObject
    ([member "hits" (jsonArray (hitBytes <$> hits m))]
     ++ optionalMember "cursor" (jsonString <$> cursor m)
     ++ optionalMember "estimated_total" (jsonInteger <$> estimated_total m)
     ++ optionalMember "complete" (jsonBoolean <$> complete m)
     ++ optionalMember "warnings" ((fun ws => jsonArray (jsonString <$> ws)) <$> warnings m)
     ++ optionalMember "model" (jsonString <$> model m)
     ++ optionalMember "top_k" (jsonInteger <$> top_k m)
     ++ [member "mcp_latency_ms" (jsonInteger (mcp_latency_ms m))]).

(** [jsonSizeBytes(result)] for a [CallToolResult]
    [{content, isError, _meta}]. *)
Definition jsonSizeBytes (result : CallToolResult) : Z :=
  jsonObject
    [member "content" (jsonArray (blockBytes <$> content result));
     member "isError" (jsonBoolean (isError result));
     member "_meta" (metaBytes (_meta result))].

Definition CAP_BYTES : Z := 70 * 1024.
Definition SHRUNK_SNIPPET_CHAR_CAP : nat := 600.
Definition MIN_SNIPPET_CHAR_FLOOR : nat := 300.

(** *** Assembly (the handler before the trimming) *)

(** A transformed hit, with the values derived from it that the blocks
    carry: [resource_link] is
    [kb://${repo}/${path}#L${start_line}-L${end_line}], [h_mimeType] is
    [mimeFromLangOrPath(lang, path)], [h_snippet] the fetched content. *)
Record Hit : Type := mkHit {
  h_chunk_id : jsstring;
  h_repo : jsstring;
  h_path : jsstring;
  h_start_line : Z;
  h_end_line : Z;
  h_score : jsstring;
  h_mimeType : jsstring;
  h_snippet : jsstring;
}.

Definition resource_link (h : Hit) : jsstring :=
  lit "kb://" ++ h_repo h ++ lit "/" ++ h_path h ++ lit "#L" ++ decimal (h_start_line h)
    ++ lit "-L" ++ decimal (h_end_line h).

Definition resourceBlock (h : Hit) : Block :=
  ResourceBlock (resource_link h) (h_mimeType h) (h_snippet h).

Definition metaHit (h : Hit) : MetaHit :=
  mkMetaHit (h_chunk_id h) (h_repo h) (h_path h) (h_start_line h) (h_end_line h) (h_score h).

(** [content.push(summary); if (promptReady.length > 0) content.push(promptReady);
    for (const hit of hits) content.push(resourceBlock)], and [_meta] with
    the compact hits; [upstream] holds the fields copied from the search
    response and the measured latency. *)
Definition assemble (summary promptReady : jsstring) (found : list Hit) (upstream : Meta)
  : CallToolResult :=
  mkResult
    (TextContent summary
       :: (if bool_decide (0 < length promptReady)%nat then [TextContent promptReady] else [])
       ++ (resourceBlock <$> found))
    false
    (mkMeta (metaHit <$> found) (cursor upstream) (estimated_total upstream)
       (complete upstream) (warnings upstream) (model upstream) (top_k upstream)
       (mcp_latency_ms upstream)).

(** *** Trimming *)

Inductive LogEntry : Type :=
| Warn (event message : string).

Definition setContent (blocks : list Block) (result : CallToolResult) : CallToolResult :=
  mkResult blocks (isError result) (_meta result).

Definition setHits (hs : list MetaHit) (m : Meta) : Meta :=
  mkMeta hs (cursor m) (estimated_total m) (complete m) (warnings m) (model m) (top_k m)
    (mcp_latency_ms m).

(** [{ ...result._meta, complete: false }] *)
Definition markPartial (m : Meta) : Meta :=
  mkMeta (hits m) (cursor m) (estimated_total m) (Some false) (warnings m) (model m)
    (top_k m) (mcp_latency_ms m).

(** [a.pop()]; nothing happens on the empty array. *)
Definition pop {A} (a : list A) : list A := take (length a - 1) a.

(** [prText.slice(0, Math.max(Math.floor(prText.length * 0.9), 0))]; for
    the lengths of strings the floating-point product floors to
    [9 * length / 10]. *)
Definition cut90 (prText : jsstring) : jsstring :=
  slice0 (Z.to_nat (Z.max (9 * Z.of_nat (length prText) / 10) 0)) prText.

Section trimming.
(** The byte budget and the two character caps; the handler fixes them to
    [CAP_BYTES], [SHRUNK_SNIPPET_CHAR_CAP] and [MIN_SNIPPET_CHAR_FLOOR]. *)
Variable capBytes : Z.
Variables shrunkCap minFloor : nat.

(** The result under trimming with the [size] variable of the handler. *)
Local Abbreviation state := (CallToolResult * Z)%type.

(** Step 1. [while (prText.length > 0 && size > CAP_BYTES)], with at most
    [n] iterations left; the text gets shorter at every iteration, so
    [length prText] iterations are enough. *)
Fixpoint promptLoop (n : nat) (prText : jsstring) (st : state) : state :=
  match n with
  | O => st
  | S n =>
      if bool_decide (0 < length prText)%nat && (capBytes <? st.2) then
        let prText := cut90 prText in
        let result := setContent (<[1%nat := TextContent prText]> (content st.1)) st.1 in
        promptLoop n prText (result, jsonSizeBytes result)
      else st
  end.

Definition stage1 (st : state) : state :=
  if capBytes <? st.2 then
    match content st.1 !! 1%nat with
    | Some (TextContent prText) => promptLoop (length prText) prText st
    | _ => st
    end
  else st.

(** Step 2, the body of one pass at index [i]; the guard
    [size > CAP_BYTES] of the [for] is tested on every index, which stops
    the pass at the first index where it fails. *)
Definition shrinkStep (charCap : nat) (st : state) (i : nat) : state :=
  if capBytes <? st.2 then
    match content st.1 !! i with
    | Some (ResourceBlock uri mimeType txt) =>
        if bool_decide (charCap < length txt)%nat then
          let result :=
            setContent (<[i := ResourceBlock uri mimeType (slice0 charCap txt)]> (content st.1))
                       st.1 in
          (result, jsonSizeBytes result)
        else st
    | _ => st
    end
  else st.

Definition shrinkPass (charCap : nat) (st : state) : state :=
  foldl (shrinkStep charCap) st (seq 0 (length (content st.1))).

Definition stage2 (st : state) : state :=
  if capBytes <? st.2 then shrinkPass minFloor (shrinkPass shrunkCap st) else st.

(** Step 3, the body of the loop for hit [i]. *)
Definition blankStep (st : state) (i : nat) : state :=
  if capBytes <? st.2 then
    match content st.1 !! (i + 2)%nat with
    | Some (ResourceBlock uri mimeType _) =>
        let result :=
          setContent (<[(i + 2)%nat := ResourceBlock uri mimeType []]> (content st.1)) st.1 in
        (result, jsonSizeBytes result)
    | _ => st
    end
  else st.

(** [for (let i = hits.length - 1; i >= 0 && size > CAP_BYTES; i--)] *)
Definition stage3 (hitsLength : nat) (st : state) : state :=
  if capBytes <? st.2 then foldl blankStep st (reverse (seq 0 hitsLength)) else st.

(** [result.content.pop(); metaHits.pop()]; [metaHits] is the array held
    by [result._meta.hits]. *)
Definition dropLast (result : CallToolResult) : CallToolResult :=
  mkResult (pop (content result)) (isError result)
    (setHits (pop (hits (_meta result))) (_meta result)).

(** Step 4. [while (result.content.length > 1 && size > CAP_BYTES)], with
    at most [n] iterations left; every iteration removes a block. *)
Fixpoint dropLoop (n : nat) (st : state) : state :=
  match n with
  | O => st
  | S n =>
      if bool_decide (1 < length (content st.1))%nat && (capBytes <? st.2) then
        let result := dropLast st.1 in
        dropLoop n (result, jsonSizeBytes result)
      else st
  end.

Definition trimmedWarning : LogEntry :=
  Warn "search" "trimmed content to respect 50KB cap".

Definition stage4 (st : state) : CallToolResult * list LogEntry :=
  if capBytes <? st.2 then
    let st := dropLoop (length (content st.1)) st in
    (mkResult (content st.1) (isError st.1) (markPartial (_meta st.1)), [trimmedWarning])
  else (st.1, []).

(** The four steps on an assembled [result]; [hitsLength] is
    [transformedRes.hits.length]. *)
Definition trim (hitsLength : nat) (result : CallToolResult)
  : CallToolResult * list LogEntry :=
  stage4 (stage3 hitsLength (stage2 (stage1 (result, jsonSizeBytes result)))).

End trimming.

(** *** Vocabulary of the statements *)

(** The [size] variable holds the measured size of the result. *)
Definition synced (st : CallToolResult * Z) : Prop := st.2 = jsonSizeBytes st.1.

(** The result with the text of block 1 replaced. *)
Definition withPrompt (prText : jsstring) (result : CallToolResult) : CallToolResult :=
  setContent (<[1%nat := TextContent prText]> (content result)) result.

Definition capText (charCap : nat) (b : Block) : Block :=
  match b with
  | ResourceBlock uri mimeType txt => ResourceBlock uri mimeType (slice0 charCap txt)
  | TextContent _ => b
  end.

(** The result with the resource texts of its first [k] blocks cut to
    [charCap] code units. *)
Definition capped (charCap k : nat) (result : CallToolResult) : CallToolResult :=
  setContent ((capText charCap <$> take k (content result)) ++ drop k (content result)) result.

Definition blank (b : Block) : Block :=
  match b with
  | ResourceBlock uri mimeType _ => ResourceBlock uri mimeType []
  | TextContent _ => b
  end.

(** The result with the resource texts of the blocks at the positions
    [lo <= j < hi] emptied. *)
Definition blanked (lo hi : nat) (result : CallToolResult) : CallToolResult :=
  setContent
    (imap (fun j b => if bool_decide (lo <= j < hi)%nat then blank b else b) (content result))
    result.

(** The result after [d] rounds of [content.pop(); metaHits.pop()]. *)
Definition dropped (d : nat) (result : CallToolResult) : CallToolResult :=
  mkResult (take (length (content result) - d) (content result)) (isError result)
    (setHits (take (length (hits (_meta result)) - d) (hits (_meta result))) (_meta result)).

(** [metaHits] has one entry for every block after the first two. *)
Definition aligned (result : CallToolResult) : Prop :=
  length (hits (_meta result)) = (length (content result) - 2)%nat.

(** What identifies a resource block, whatever is left of its text. *)
Definition resourceOf (b : Block) : option (jsstring * jsstring) :=
  match b with
  | ResourceBlock uri mimeType _ => Some (uri, mimeType)
  | TextContent _ => None
  end.

(** [r'] is [r] with texts changed at most: the same blocks at the same
    places, the text blocks other than the prompt untouched, the same
    metadata. *)
Record reshaped (r r' : CallToolResult) : Prop := {
  reshaped_length : length (content r') = length (content r);
  reshaped_resource : forall j, resourceOf <$> content r' !! j = resourceOf <$> content r !! j;
  reshaped_text : forall j s, j <> 1%nat ->
    content r !! j = Some (TextContent s) -> content r' !! j = Some (TextContent s);
  reshaped_isError : isError r' = isError r;
  reshaped_meta : _meta r' = _meta r;
}.

(** No resource text has a surrogate pair across position [charCap]. *)
Definition cleanCut (charCap : nat) (result : CallToolResult) : Prop :=
  Forall (fun b => match b with
                   | ResourceBlock _ _ txt => splitsPair charCap txt = false
                   | TextContent _ => True
                   end) (content result).

(** The least a trimmed result can be: its first block alone, and no
    hits. *)
Definition skeleton (result : CallToolResult) : CallToolResult :=
  mkResult (take 1 (content result)) (isError result) (setHits [] (_meta result)).

(** The bytes of the [complete] member, its comma included. *)
Definition flagBytes (flag : option bool) : Z :=
  match flag with
  | Some true => 16
  | Some false => 17
  | None => 0
  end.

(** The bytes of what trimming never touches: the size of the result
    without blocks, hits and flag. *)
Definition restBytes (e : bool) (m : Meta) : Z :=
  jsonSizeBytes (mkResult [] e (mkMeta [] (cursor m) (estimated_total m) None (warnings m)
                                  (model m) (top_k m) (mcp_latency_ms m))).

(** The trimming of the handler. *)
Definition trimPayload : nat -> CallToolResult -> CallToolResult * list LogEntry :=
  trim CAP_BYTES SHRUNK_SNIPPET_CHAR_CAP MIN_SNIPPET_CHAR_FLOOR.

End SearchKnowledge.

(** ** Concrete inputs *)
Module Examples.
Import Concurrency.

Definition three : list nat := [10; 20; 30]%nat.

(** [async (item) => 2 * item], rejecting when there is no item. *)
Definition doubling (item : option nat) (i : nat) : Invocation nat string :=
  match item with
  | Some x => Returns (Fulfilled (2 * x)%nat)
  | None => Returns (Rejected "no item")
  end.

Definition pair : list nat := [7; 8]%nat.

(** [(item, index) => { if (index === 0) throw "boom"; return Promise.resolve(index) }] *)
Definition throwing (item : option nat) (i : nat) : Invocation nat string :=
  if decide (i = 0%nat) then Throws "boom" else Returns (Fulfilled i).

(** [async (item, index) => { if (index === 0) throw "boom"; return index }] *)
Definition rejecting (item : option nat) (i : nat) : Invocation nat string :=
  if decide (i = 0%nat) then Returns (Rejected "boom") else Returns (Fulfilled i).

Import SnippetFetcher.

Definition request1 : SnippetFetchRequest :=
  mkRequest (lit " repoa ") (lit "src/a.ts") 1 10 None None.

Definition hello : FileSliceResponse := mkSlice (lit "hello") None.

(** A service that answers after 20 ms, except that its first answer to a
    request takes 2000 ms. *)
Definition slowFirst (index : nat) (attempt : Z) (repo path : jsstring) (s e : Z) : Reply :=
  mkReply (if attempt =? 0 then 2000 else 20) (inr hello).

(** A service that answers the first call for a request with HTTP 500. *)
Definition failsOnce (index : nat) (attempt : Z) (repo path : jsstring) (s e : Z) : Reply :=
  mkReply 20 (if attempt =? 0
              then inl (RestError (lit "upstream_error") (lit "HTTP 500 Internal Server Error"))
              else inr hello).

(** A service that is down: every call is answered with HTTP 503. *)
Definition down (index : nat) (attempt : Z) (repo path : jsstring) (s e : Z) : Reply :=
  mkReply 20 (inl (RestError (lit "upstream_error") (lit "HTTP 503 Service Unavailable"))).

(** [{ retryAttempts: 2 }] *)
Definition retryTwice : SnippetFetchOptions := mkFetchOptions None None (Some 2) None.

(** A request with three lines of context on either side. *)
Definition request2 : SnippetFetchRequest :=
  mkRequest (lit "repoa") (lit "src/b.py") 2 15 (Some 3) (Some 3).

(** [{ retryAttempts: 1 }] *)
Definition retryOnce : SnippetFetchOptions := mkFetchOptions None None (Some 1) None.

(** [{ retryAttempts: 1, signal }] with [signal.aborted === true] *)
Definition cancelled : SnippetFetchOptions :=
  mkFetchOptions None None (Some 1) (Some (mkSignal true)).
End Examples.

Module TrimExamples.
Import PayloadCap SearchKnowledge.

Definition hitA : Hit :=
  mkHit (lit "c1") (lit "repoa") (lit "src/a.ts") 1 10 (lit "0.91") (lit "text/typescript")
    (replicate 50 120%N).

Definition hitB : Hit :=
  mkHit (lit "c2") (lit "repoa") (lit "src/b.py") 5 15 (lit "0.5") (lit "text/x-python")
    (replicate 80 121%N).

(** The metadata of a search response without cursor or flag. *)
Definition plainMeta : Meta := mkMeta [] None None None None None None 12.

(** Two hits with snippets of 50 and 80 characters. *)
Definition sample : CallToolResult :=
  assemble (lit "Found 2 results across 1 repo.") (replicate 120 112%N) [hitA; hitB] plainMeta.

(** No hits, a cursor of 71680 characters, [complete: true]. *)
Definition flagged : CallToolResult :=
  mkResult [TextContent (lit "Found 0 results.")] false
    (mkMeta [] (Some (replicate (Z.to_nat 71680) 97%N)) None (Some true) None None None 12).

(** One hit whose snippet is 299 times [x] and then U+1F600, which takes
    the code units 299 and 300, under a cursor of 71680 characters. *)
Definition astral : CallToolResult :=
  mkResult
    [TextContent (lit "Found 1 result across 1 repo.");
     TextContent [];
     ResourceBlock (lit "kb://repoa/src/a.ts#L1-L10") (lit "text/typescript")
       (replicate 299 120%N ++ [55357; 56832]%N)]
    false
    (mkMeta [mkMetaHit (lit "c1") (lit "repoa") (lit "src/a.ts") 1 10 (lit "0.91")]
       (Some (replicate (Z.to_nat 71680) 97%N)) None None None None None 12).

(** Two hits, the first with a chunk id of 71327 characters. *)
Definition longId : Hit :=
  mkHit (replicate (Z.to_nat 71327) 99%N) (lit "repoa") (lit "src/a.ts") 1 10 (lit "0.91")
    (lit "text/typescript") (replicate 50 120%N).

Definition crowded : CallToolResult :=
  assemble (lit "Found 2 results across 1 repo.") (lit "abc") [longId; hitB] plainMeta.

(** The numbers of blocks and of hits of a result. *)
Definition counts (r : CallToolResult) : nat * nat :=
  (length (content r), length (hits (_meta r))).

(** The trimming of the handler run on [r] and then on its own output:
    the counts and the size after the first run, the counts after the
    second. *)
Definition rerun (r : CallToolResult) : (nat * nat) * Z * (nat * nat) :=
  let once := (trimPayload 2 r).1 in
  let twice := (trimPayload 2 once).1 in
  (counts once, jsonSizeBytes once, counts twice).
End TrimExamples.
(** ** What a run leaves to observe

    Counters read off a pool and off the trace of a request, used to state
    how far a run has come and what it has spent. *)
Module Observed.
Import Concurrency SnippetFetcher.

(** [results.filter(r => r !== undefined).length], the count
    [updateProgress] reports. *)
Definition completed {T R E} (p : Pool T R E) : nat := length (omap id (results p)).

(** The [onProgress] calls of a run of [N] items after [k] settlements. *)
Definition reports (k N : nat) : list (nat * nat) := (fun j => (j, N)) <$> seq 1 k.

(** The pool writes a result where there was a hole, once per suspended
    frame, and [peak] never passes the number of tasks started. *)
Record ledger {T R E} (items : list T) (options : ConcurrencyPoolOptions)
    (p : Pool T R E) : Prop := {
  ledger_count : (completed p + length (awaiting p))%nat = currentIndex p;
  ledger_holes : forall i, (i ∈ (awaiting p).*1 \/ (currentIndex p <= i < length items)%nat) ->
    results p !! i = Some None;
  ledger_nodup : NoDup (awaiting p).*1;
  ledger_progress : progress p = reports (completed p) (length items);
  ledger_peak : (peak p <= currentIndex p)%nat /\ Z.of_nat (peak p) <= maxConcurrentOf options /\
    (length (awaiting p) <= peak p)%nat;
  ledger_resolved : resolved p = true -> completed p = length items;
}.

(** The calls of the remote service in a trace, and the milliseconds
    slept between them. *)
Definition calls (tr : list Event) : nat :=
  foldr (fun ev acc => match ev with Attempt _ _ _ => S acc | Backoff _ => acc end) 0%nat tr.

Definition slept (tr : list Event) : Z :=
  foldr (fun ev acc => match ev with Backoff ms => ms + acc | Attempt _ _ _ => acc end) 0 tr.

End Observed.

(** ** mcp/tools/snippet_fetcher.ts: [requestsFromHits] *)
Module SnippetRequests.
Import SnippetFetcher.

(** The fields of a hit that are read. *)
Record HitRange : Type := mkHitRange {
  hit_repo : jsstring;
  hit_path : jsstring;
  hit_start_line : Z;
  hit_end_line : Z;
}.

Definition requestsFromHits (hits : list HitRange) : list SnippetFetchRequest :=
  (fun hit => mkRequest (hit_repo hit) (hit_path hit) (hit_start_line hit) (hit_end_line hit)
                None None) <$> hits.

End SnippetRequests.
From Stdlib Require Import DecimalPos.

(** ** String operations of the standard library used below *)
Module JsText.

(** [s.endsWith(t)] and [s.startsWith(t)] *)
Definition endsWith (s t : jsstring) : bool :=
  bool_decide (drop (length s - length t) s = t).
Definition startsWith (s t : jsstring) : bool :=
  bool_decide (take (length t) s = t).

(** [parts.join(sep)] *)
Fixpoint join (sep : jsstring) (parts : list jsstring) : jsstring :=
  match parts with
  | [] => []
  | [part] => part
  | part :: parts => part ++ sep ++ join sep parts
  end.

(** [s.split("\n")]: the pieces between the line feeds, at least one. *)
Fixpoint splitLines (s : jsstring) : list jsstring :=
  match s with
  | [] => [[]]
  | u :: s' =>
      if (u =? 10)%N then [] :: splitLines s'
      else match splitLines s' with
           | line :: lines => (u :: line) :: lines
           | [] => [[u]]
           end
  end.

(** A string is truthy when it is there and not empty. *)
Definition truthy (s : option jsstring) : bool :=
  match s with
  | Some (_ :: _) => true
  | _ => false
  end.

(** [a || b] on optional strings. *)
Definition orElse (a b : option jsstring) : option jsstring :=
  if truthy a then a else b.

(** [Number.MAX_SAFE_INTEGER] and [Number.isSafeInteger]: up to here
    every integer is a Number, and [String] prints it as a plain decimal
    numeral. *)
Definition MAX_SAFE_INTEGER : Z := 2 ^ 53 - 1.

Definition isSafeInteger (z : Z) : bool :=
  (- MAX_SAFE_INTEGER <=? z) && (z <=? MAX_SAFE_INTEGER).

(** [parseInt(s, 10)]: leading white space is skipped, a sign is read, and
    the longest run of decimal digits that follows is the value; [None] is
    [NaN], returned when there is no digit. The value is the integer that
    the digits denote. The Number that JavaScript returns is that integer
    while it is a safe integer, and beyond them the double it rounds to,
    which is not smaller than [MAX_SAFE_INTEGER] in magnitude and has the
    same sign: the clamping of [getIntConfig] between bounds that are safe
    integers returns the same for both. *)
Definition digitOf (u : N) : option Z :=
  if (48 <=? u)%N && (u <=? 57)%N then Some (Z.of_N u - 48) else None.

Fixpoint digitsOf (s : jsstring) : list Z :=
  match s with
  | u :: s' => match digitOf u with
               | Some d => d :: digitsOf s'
               | None => []
               end
  | [] => []
  end.

Definition valueOf (ds : list Z) : Z := foldl (fun acc d => 10 * acc + d) 0 ds.

Definition parseInt (s : jsstring) : option Z :=
  let s := SnippetFetcher.trimStart s in
  let '(sign, s) := match s with
                    | 45%N :: s' => (-1, s')
                    | 43%N :: s' => (1, s')
                    | _ => (1, s)
                    end in
  match digitsOf s with
  | [] => None
  | ds => Some (sign * valueOf ds)
  end.

End JsText.

(** ** util/config.ts *)
Module Config.
Import JsText PayloadCap.

(** [CONFIG_LIMITS] *)
Definition MIN_CONCURRENT : Z := 1.
Definition RECOMMENDED_CONCURRENT : Z := 8.
Definition MAX_CONCURRENT : Z := 12.
Definition MIN_TIMEOUT : Z := 500.
Definition MAX_TIMEOUT : Z := 10000.
Definition MIN_RETRIES : Z := 0.
Definition MAX_RETRIES : Z := 3.

(** [envVar ? parseInt(envVar, 10) : defaultValue], the default for [NaN],
    and the clamping otherwise; [min] and [max] are safe integers. *)
Definition getIntConfig (envVar : option jsstring) (defaultValue min max : Z) : Z :=
  let value := if truthy envVar then parseInt (default [] envVar) else Some defaultValue in
  match value with
  | None => defaultValue
  | Some value => Z.max min (Z.min max value)
  end.

(** [envVar?.trim() || defaultValue] *)
Definition getStringConfig (envVar : option jsstring) (defaultValue : jsstring) : jsstring :=
  match envVar with
  | Some s => if bool_decide (SnippetFetcher.trim s = []) then defaultValue
              else SnippetFetcher.trim s
  | None => defaultValue
  end.

(** The variables of [process.env] that are read. *)
Record Env : Type := mkEnv {
  env_DOLPHIN_API_URL : option jsstring;
  env_KB_REST_BASE_URL : option jsstring;
  env_SERVER_NAME : option jsstring;
  env_SERVER_VERSION : option jsstring;
  env_LOG_LEVEL : option jsstring;
  env_MAX_CONCURRENT_SNIPPET_FETCH : option jsstring;
  env_SNIPPET_FETCH_TIMEOUT_MS : option jsstring;
  env_SNIPPET_FETCH_RETRY_ATTEMPTS : option jsstring;
}.

Record Configuration : Type := mkConfig {
  DOLPHIN_API_URL : jsstring;
  SERVER_NAME : jsstring;
  SERVER_VERSION : jsstring;
  LOG_LEVEL : jsstring;
  MAX_CONCURRENT_SNIPPET_FETCH : Z;
  SNIPPET_FETCH_TIMEOUT_MS : Z;
  SNIPPET_FETCH_RETRY_ATTEMPTS : Z;
}.

(** [CONFIG], computed from the environment when the module is loaded. *)
Definition CONFIG (env : Env) : Configuration :=
  mkConfig
    (getStringConfig (orElse (env_DOLPHIN_API_URL env) (env_KB_REST_BASE_URL env))
       (lit "http://127.0.0.1:7777"))
    (getStringConfig (env_SERVER_NAME env) (lit "dolphin-mcp"))
    (getStringConfig (env_SERVER_VERSION env) (lit "1.0.0"))
    (getStringConfig (env_LOG_LEVEL env) (lit "info"))
    (getIntConfig (env_MAX_CONCURRENT_SNIPPET_FETCH env) RECOMMENDED_CONCURRENT
       MIN_CONCURRENT MAX_CONCURRENT)
    (getIntConfig (env_SNIPPET_FETCH_TIMEOUT_MS env) 1500 MIN_TIMEOUT MAX_TIMEOUT)
    (getIntConfig (env_SNIPPET_FETCH_RETRY_ATTEMPTS env) 1 MIN_RETRIES MAX_RETRIES).

Definition validLogLevels : list jsstring := [lit "debug"; lit "info"; lit "warn"; lit "error"].

Section validateConfig.
(** Whether [new URL(s)] returns; it throws on a string that is not a
    URL. *)
Variable isURL : jsstring -> bool.
Variable config : Configuration.

(** [validateConfig()], reading [CONFIG]. *)
Definition validateConfig : list jsstring :=
  (if isURL (DOLPHIN_API_URL config) then []
   else [lit "Invalid DOLPHIN_API_URL format: " ++ DOLPHIN_API_URL config])
  ++ (if bool_decide (LOG_LEVEL config ∈ validLogLevels) then []
      else [lit "Invalid LOG_LEVEL: " ++ LOG_LEVEL config ++ lit ". Valid: "
              ++ join (lit ", ") validLogLevels])
  ++ (if MAX_CONCURRENT_SNIPPET_FETCH config <? MIN_CONCURRENT
      then [lit "MAX_CONCURRENT_SNIPPET_FETCH too low: "
              ++ decimal (MAX_CONCURRENT_SNIPPET_FETCH config) ++ lit ". Min: "
              ++ decimal MIN_CONCURRENT]
      else [])
  ++ (if MAX_CONCURRENT <? MAX_CONCURRENT_SNIPPET_FETCH config
      then [lit "MAX_CONCURRENT_SNIPPET_FETCH too high: "
              ++ decimal (MAX_CONCURRENT_SNIPPET_FETCH config) ++ lit ". Max: "
              ++ decimal MAX_CONCURRENT]
      else [])
  ++ (if SNIPPET_FETCH_TIMEOUT_MS config <? MIN_TIMEOUT
      then [lit "SNIPPET_FETCH_TIMEOUT_MS too low: "
              ++ decimal (SNIPPET_FETCH_TIMEOUT_MS config) ++ lit ". Min: "
              ++ decimal MIN_TIMEOUT ++ lit "ms"]
      else [])
  ++ (if MAX_TIMEOUT <? SNIPPET_FETCH_TIMEOUT_MS config
      then [lit "SNIPPET_FETCH_TIMEOUT_MS too high: "
              ++ decimal (SNIPPET_FETCH_TIMEOUT_MS config) ++ lit ". Max: "
              ++ decimal MAX_TIMEOUT ++ lit "ms"]
      else [])
  ++ (if SNIPPET_FETCH_RETRY_ATTEMPTS config <? MIN_RETRIES
      then [lit "SNIPPET_FETCH_RETRY_ATTEMPTS too low: "
              ++ decimal (SNIPPET_FETCH_RETRY_ATTEMPTS config) ++ lit ". Min: "
              ++ decimal MIN_RETRIES]
      else [])
  ++ (if MAX_RETRIES <? SNIPPET_FETCH_RETRY_ATTEMPTS config
      then [lit "SNIPPET_FETCH_RETRY_ATTEMPTS too high: "
              ++ decimal (SNIPPET_FETCH_RETRY_ATTEMPTS config) ++ lit ". Max: "
              ++ decimal MAX_RETRIES]
      else []).
End validateConfig.

(** [getBaseUrl()] of rest/client.ts:
    [process.env.KB_REST_BASE_URL || process.env.DOLPHIN_API_URL || CONFIG.DOLPHIN_API_URL],
    with the environment as it is at the call. *)
Definition getBaseUrl (config : Configuration) (env : Env) : jsstring :=
  let fromEnv := orElse (env_KB_REST_BASE_URL env) (env_DOLPHIN_API_URL env) in
  if truthy fromEnv then default [] fromEnv else DOLPHIN_API_URL config.

(** No white space at either end. *)
Definition bare (s : jsstring) : bool :=
  match s with
  | u :: _ => negb (SnippetFetcher.isWhiteSpace u)
  | [] => true
  end
  && match reverse s with
     | u :: _ => negb (SnippetFetcher.isWhiteSpace u)
     | [] => true
     end.

(** The options the [search_knowledge] handler passes to
    [fetchSnippetsInParallel]. *)
Definition fetchOptions (config : Configuration) (signal : option SnippetFetcher.AbortSignal)
  : SnippetFetcher.SnippetFetchOptions :=
  SnippetFetcher.mkFetchOptions
    (Some (MAX_CONCURRENT_SNIPPET_FETCH config))
    (Some (SNIPPET_FETCH_TIMEOUT_MS config))
    (Some (SNIPPET_FETCH_RETRY_ATTEMPTS config))
    signal.

End Config.
(** ** util/language.ts *)
Module Language.
Import JsText.

Record LanguageMapping : Type := mkMapping {
  extensions : list jsstring;
  mimeType : jsstring;
  fenceName : jsstring;
  languageNames : list jsstring;
}.

Definition LANGUAGE_MAPPINGS : list LanguageMapping :=
  [ mkMapping [lit ".py"] (lit "text/x-python") (lit "python") [lit "python"; lit "py"];
    mkMapping [lit ".ts"; lit ".tsx"; lit ".js"; lit ".jsx"] (lit "text/x-typescript") (lit "ts")
      [lit "typescript"; lit "ts"; lit "tsx"; lit "javascript"; lit "js"; lit "jsx"];
    mkMapping [lit ".md"] (lit "text/markdown") (lit "markdown") [lit "markdown"; lit "md"];
    mkMapping [lit ".json"] (lit "application/json") (lit "json") [lit "json"];
    mkMapping [lit ".html"; lit ".htm"] (lit "text/html") (lit "html") [lit "html"];
    mkMapping [lit ".css"] (lit "text/css") (lit "css") [lit "css"];
    mkMapping [lit ".yaml"; lit ".yml"] (lit "text/yaml") (lit "yaml") [lit "yaml"; lit "yml"] ].

Section getLanguageInfo.
(** [String.prototype.toLowerCase], which follows the Unicode case
    mapping; the functions below hold for whatever it returns. *)
Variable toLowerCase : jsstring -> jsstring.

(** [m.languageNames.includes(normalizedLang)] *)
Definition namedBy (normalizedLang : jsstring) (m : LanguageMapping) : bool :=
  bool_decide (normalizedLang ∈ languageNames m).

(** [m.extensions.some((ext) => normalizedPath.endsWith(ext))] *)
Definition extendedBy (normalizedPath : jsstring) (m : LanguageMapping) : bool :=
  existsb (endsWith normalizedPath) (extensions m).

(** The mapping found by language name, if [lang] is given and not
    empty, and the one found by extension. *)
Definition byName (lang : option jsstring) : option LanguageMapping :=
  let normalizedLang := toLowerCase <$> lang in
  if truthy normalizedLang
  then List.find (namedBy (default [] normalizedLang)) LANGUAGE_MAPPINGS
  else None.

Definition byExtension (path : option jsstring) : option LanguageMapping :=
  let normalizedPath := toLowerCase <$> path in
  if truthy normalizedPath
  then List.find (extendedBy (default [] normalizedPath)) LANGUAGE_MAPPINGS
  else None.

(** [getLanguageInfo(lang, path)]: the pair [{mimeType, fenceName}]. *)
Definition getLanguageInfo (lang path : option jsstring) : jsstring * option jsstring :=
  match byName lang with
  | Some mapping => (mimeType mapping, Some (fenceName mapping))
  | None =>
      match byExtension path with
      | Some mapping => (mimeType mapping, Some (fenceName mapping))
      | None => (lit "text/plain", None)
      end
  end.

Definition mimeFromLangOrPath (lang path : option jsstring) : jsstring :=
  (getLanguageInfo lang path).1.

Definition fenceLang (lang path : option jsstring) : option jsstring :=
  (getLanguageInfo lang path).2.

End getLanguageInfo.

(** Two extensions of which one ends with the other: a path can end with
    both. *)
Definition overlap (e1 e2 : jsstring) : bool := endsWith e1 e2 || endsWith e2 e1.

(** Lower case for the letters A to Z, every other code unit kept: what
    [toLowerCase] does on ASCII text. *)
Definition asciiLower (s : jsstring) : jsstring :=
  (fun u => if (65 <=? u)%N && (u <=? 90)%N then (u + 32)%N else u) <$> s.

End Language.
(** ** mcp/tools/search_knowledge.ts: the handler around the trimming

    The request to the search service is represented by what it settles to;
    the logger calls are left out, as for the snippet fetcher. *)
Module SearchHandler.
Import JsText PayloadCap Language.

(** *** [formatGraphContext] *)

Record GraphNode : Type := mkNode {
  node_type : jsstring;
  node_qualified_name : jsstring;
  node_signature : option jsstring;
  node_line_range : Z * Z;
}.

(** [rel_target] and [rel_source] hold [target?.qualified_name] and
    [source?.qualified_name]. *)
Record GraphRelationship : Type := mkRelationship {
  rel_type : jsstring;
  rel_direction : jsstring;
  rel_target : option jsstring;
  rel_source : option jsstring;
  rel_line_number : option Z;
}.

Record GraphContext : Type := mkGraph {
  nodes : option (list GraphNode);
  relationships : option (list GraphRelationship);
}.

(** A value that may be [undefined], as a template literal prints it. *)
Definition printed (s : option jsstring) : jsstring := default (lit "undefined") s.

(** A number is truthy when it is there and not zero. *)
Definition nonzero (n : option Z) : bool :=
  match n with
  | Some n => negb (n =? 0)
  | None => false
  end.

Definition backtick : jsstring := [96%N].
Definition lineFeed : jsstring := [10%N].

Definition nodeLine (node : GraphNode) : jsstring :=
  let sig := if truthy (node_signature node)
             then lit " - " ++ default [] (node_signature node) else [] in
  lit "- **" ++ node_type node ++ lit "** " ++ backtick ++ node_qualified_name node ++ backtick
    ++ sig ++ lit " (lines " ++ decimal (node_line_range node).1 ++ lit "-"
    ++ decimal (node_line_range node).2 ++ lit ")".

Definition lineInfo (rel : GraphRelationship) : jsstring :=
  if nonzero (rel_line_number rel)
  then lit " (line " ++ decimal (default 0 (rel_line_number rel)) ++ lit ")"
  else [].

Definition isRel (t d : string) (rel : GraphRelationship) : bool :=
  bool_decide (rel_type rel = lit t) && bool_decide (rel_direction rel = lit d).

(** A heading, its entries and an empty line, when there are entries. *)
Definition titled (heading : string) (entries : list jsstring) : list jsstring :=
  match entries with
  | [] => []
  | _ => lit heading :: entries ++ [[]]
  end.

(** The arrows U+2192 and U+2190. *)
Definition callsLine (rel : GraphRelationship) : jsstring :=
  lit "- " ++ [8594%N] ++ lit " " ++ backtick ++ printed (rel_target rel) ++ backtick
    ++ lineInfo rel.
Definition calledByLine (rel : GraphRelationship) : jsstring :=
  lit "- " ++ [8592%N] ++ lit " " ++ backtick ++ printed (rel_source rel) ++ backtick
    ++ lineInfo rel.
Definition inheritsLine (rel : GraphRelationship) : jsstring :=
  lit "- " ++ backtick ++ printed (rel_target rel) ++ backtick.
Definition implementsLine (rel : GraphRelationship) : jsstring :=
  if bool_decide (rel_direction rel = lit "outgoing")
  then lit "- Implements " ++ backtick ++ printed (rel_target rel) ++ backtick
  else lit "- Implemented by " ++ backtick ++ printed (rel_source rel) ++ backtick.

Definition relationshipLines (rels : list GraphRelationship) : list jsstring :=
  let callsTo := filter (fun r => isRel "calls" "outgoing" r = true) rels in
  let calledBy := filter (fun r => isRel "calls" "incoming" r = true) rels in
  let inherits := filter (fun r => isRel "inherits" "outgoing" r = true) rels in
  let implementations := filter (fun r => rel_type r = lit "implements") rels in
  let imports := filter (fun r => isRel "imports" "outgoing" r = true) rels in
  titled "**Calls:**" (callsLine <$> take 5 callsTo)
    ++ titled "**Called by:**" (calledByLine <$> take 5 calledBy)
    ++ titled "**Inherits from:**" (inheritsLine <$> inherits)
    ++ titled "**Implementations:**" (implementsLine <$> implementations)
    ++ titled "**Dependencies:**" (inheritsLine <$> take 5 imports).

(** The [lines] array of [formatGraphContext] for a context with nodes. *)
Definition graphLines (ns : list GraphNode) (rels : list GraphRelationship) : list jsstring :=
  [[]; lit "### Code Graph Context"; []]
    ++ (lit "**Entities:**" :: (nodeLine <$> ns) ++ [[]])
    ++ relationshipLines rels.

Definition formatGraphContext (graphContext : option GraphContext) : jsstring :=
  match graphContext with
  | None => []
  | Some ctx =>
      match nodes ctx with
      | None | Some [] => []
      | Some ns => join lineFeed (graphLines ns (default [] (relationships ctx)))
      end
  end.

(** *** [buildPromptReady] *)

(** A hit as the handler has transformed it ([ExtendedSearchHit]); the
    score is kept as printed. *)
Record ExtendedSearchHit : Type := mkExtended {
  chunk_id : jsstring;
  repo : jsstring;
  path : jsstring;
  start_line : Z;
  end_line : Z;
  lang : option jsstring;
  snippet : option jsstring;
  score : jsstring;
  snippet_warnings : option (list jsstring);
  graph_context : option GraphContext;
  context_start_line : option Z;
  context_end_line : option Z;
  chunk_start_line : option Z;
  chunk_end_line : option Z;
}.

Definition printedNumber (n : option Z) : jsstring :=
  match n with
  | Some n => decimal n
  | None => lit "undefined"
  end.

(** [hit._context_start_line && hit._context_start_line !== hit.start_line] *)
Definition hasContext (hit : ExtendedSearchHit) : bool :=
  nonzero (context_start_line hit)
  && negb (bool_decide (context_start_line hit = Some (start_line hit))).

Definition lineRange (hit : ExtendedSearchHit) : jsstring :=
  if hasContext hit
  then lit "L" ++ printedNumber (context_start_line hit) ++ lit "-L"
         ++ printedNumber (context_end_line hit)
  else lit "L" ++ decimal (start_line hit) ++ lit "-L" ++ decimal (end_line hit).

Definition startMarker (chunkStart : Z) : jsstring :=
  lit "# --- Result starts (line " ++ decimal chunkStart ++ lit ") ---".
Definition endMarker (chunkEnd : Z) : jsstring :=
  lit "# --- Result ends (line " ++ decimal chunkEnd ++ lit ") ---".

(** What [lines.forEach((line, idx) => ...)] pushes before and after the
    line of index [idx]: [first] is [contextStart ?? hit.start_line] and
    [last] is [hit._context_end_line ?? hit.end_line]. *)
Definition startMark (first : Z) (chunkStart : option Z) (idx : Z) : list jsstring :=
  match chunkStart with
  | Some c => if bool_decide (first + idx = c) && (first <? c) then [startMarker c] else []
  | None => []
  end.

Definition endMark (first last : Z) (chunkEnd : option Z) (idx : Z) : list jsstring :=
  match chunkEnd with
  | Some c => if bool_decide (first + idx = c) && (c <? last) then [endMarker c] else []
  | None => []
  end.

(** [formattedLines] for the lines from index [idx] on. *)
Fixpoint markLines (first last : Z) (chunkStart chunkEnd : option Z) (idx : Z)
    (lines : list jsstring) : list jsstring :=
  match lines with
  | [] => []
  | line :: lines =>
      startMark first chunkStart idx ++ [line] ++ endMark first last chunkEnd idx
        ++ markLines first last chunkStart chunkEnd (idx + 1) lines
  end.

(** Whether the line numbered [c] is still to come at index [idx]. *)
Definition ahead (first : Z) (c : option Z) (idx : Z) : nat :=
  match c with
  | Some c => if first + idx <=? c then 1 else 0
  | None => 0
  end.

Record ApiHit : Type := mkApiHit {
  a_repo : jsstring;
  a_path : jsstring;
  a_start_line : Z;
  a_end_line : Z;
  a_language : option jsstring;
  a_lang : option jsstring;
  a_chunk_id : jsstring;
  a_score : jsstring;
  a_graph_context : option GraphContext;
}.

(** The fields of the parsed input that are read after the search. *)
Record Input : Type := mkInput {
  context_lines_before : option Z;
  context_lines_after : option Z;
}.

(** What the [catch] block is given: an [Error] instance, the plain
    [{error: {code, message, remediation}}] object of [doFetch], or any
    other value, by its [String(e)]. *)
Inductive Caught : Type :=
| CaughtError (message : jsstring)
| CaughtRest (code message : jsstring) (remediation : option jsstring)
| CaughtValue (text : jsstring).

(** The error result [{content: [{type: "text", text}], isError: true,
    _meta: {upstream: {error: {code, message, remediation}}}}]. *)
Record ErrorResult : Type := mkErrorResult {
  e_text : jsstring;
  e_code : jsstring;
  e_message : jsstring;
  e_remediation : option jsstring;
}.

Inductive Answer : Type :=
| Success (result : SearchKnowledge.CallToolResult) (log : list SearchKnowledge.LogEntry)
| Failure (result : ErrorResult).

Section buildPromptReady.
Variable toLowerCase : jsstring -> jsstring.
(** The message of the [TypeError] for reading a property of
    [undefined], which depends on the engine. *)
Variable typeErrorText : jsstring.

(** The code between the fences. *)
Definition codeOf (hit : ExtendedSearchHit) : jsstring :=
  let code := default [] (snippet hit) in
  if hasContext hit && truthy (Some code) then
    join lineFeed
      (markLines (default (start_line hit) (context_start_line hit))
         (default (end_line hit) (context_end_line hit))
         (chunk_start_line hit) (chunk_end_line hit) 0 (splitLines code))
  else code.

(** What one hit adds to [parts]. *)
Definition hitParts (hit : ExtendedSearchHit) : list jsstring :=
  let graphText := formatGraphContext (graph_context hit) in
  let lang := fenceLang toLowerCase (lang hit) (Some (path hit)) in
  [lit "[" ++ repo hit ++ lit "] " ++ path hit ++ lit "#" ++ lineRange hit]
    ++ (if truthy (Some graphText) then [graphText] else [])
    ++ [if truthy lang then lit "```" ++ default [] lang else lit "```";
        codeOf hit;
        lit "```"].

Definition buildPromptReady (hits : list ExtendedSearchHit) : jsstring :=
  let parts := concat (hitParts <$> hits) in
  join lineFeed parts ++ (if bool_decide (parts = []) then [] else lineFeed).

(** *** The handler *)

(** [a || b] on numbers that may be [undefined]. *)
Definition orNumber (a : option Z) (b : Z) : Z := if nonzero a then default 0 a else b.

Definition snippetRequest (input : Input) (hit : ApiHit) : SnippetFetcher.SnippetFetchRequest :=
  SnippetFetcher.mkRequest (SnippetFetcher.trim (a_repo hit)) (a_path hit)
    (a_start_line hit) (a_end_line hit)
    (Some (orNumber (context_lines_before input) 0))
    (Some (orNumber (context_lines_after input) 0)).

Definition transformHit (hit : ApiHit) (snippetResult : option SnippetFetcher.SnippetFetchResult)
  : ExtendedSearchHit :=
  mkExtended (a_chunk_id hit) (a_repo hit) (a_path hit) (a_start_line hit) (a_end_line hit)
    (orElse (a_language hit) (a_lang hit))
    (Some (default [] (SnippetFetcher.content <$> snippetResult)))
    (a_score hit)
    (snippetResult ≫= SnippetFetcher.warnings)
    (a_graph_context hit)
    (snippetResult ≫= SnippetFetcher.actualStartLine)
    (snippetResult ≫= SnippetFetcher.actualEndLine)
    (Some (orNumber (snippetResult ≫= SnippetFetcher.chunkStartLine) (a_start_line hit)))
    (Some (orNumber (snippetResult ≫= SnippetFetcher.chunkEndLine) (a_end_line hit))).

(** [hits.map((hit, index) => ...)] from position [index] on. *)
Fixpoint transformHits (index : nat) (hits : list ApiHit)
    (snippetResults : gmap nat SnippetFetcher.SnippetFetchResult) : list ExtendedSearchHit :=
  match hits with
  | [] => []
  | hit :: hits =>
      transformHit hit (snippetResults !! index) :: transformHits (S index) hits snippetResults
  end.

(** The summary line; [meta] holds the metadata of the search
    response. The dash is U+2014. *)
Definition plural (n : nat) : jsstring := if bool_decide (n = 1%nat) then [] else lit "s".

Definition summaryOf (hits : list ExtendedSearchHit) (meta : SearchKnowledge.Meta) : jsstring :=
  let k := length hits in
  let rcount := length (remove_dups (repo <$> hits)) in
  let more := bool_decide (SearchKnowledge.complete meta = Some false)
              && truthy (SearchKnowledge.cursor meta) in
  join (lit " ")
    ([lit "Found " ++ decimal (Z.of_nat k) ++ lit " result" ++ plural k
        ++ (if bool_decide (0 < rcount)%nat
            then lit " across " ++ decimal (Z.of_nat rcount) ++ lit " repo" ++ plural rcount
            else [])
        ++ lit "."]
     ++ (match SearchKnowledge.estimated_total meta with
         | Some est => [lit "~" ++ decimal est ++ lit " estimated results."]
         | None => []
         end)
     ++ (if more
         then [lit "More available " ++ [8212%N]
                 ++ lit " call search_knowledge again with cursor."]
         else [])).

(** The values of a transformed hit that the blocks carry. *)
Definition hitOf (hit : ExtendedSearchHit) : SearchKnowledge.Hit :=
  SearchKnowledge.mkHit (chunk_id hit) (repo hit) (path hit) (start_line hit) (end_line hit)
    (score hit) (mimeFromLangOrPath toLowerCase (lang hit) (Some (path hit)))
    (default [] (snippet hit)).

(** The result before the trimming; [meta] holds the metadata of the
    search response and, as [mcp_latency_ms], [Date.now() - started]. *)
Definition assembled (hits : list ExtendedSearchHit) (meta : SearchKnowledge.Meta)
  : SearchKnowledge.CallToolResult :=
  SearchKnowledge.assemble (summaryOf hits meta) (buildPromptReady hits) (hitOf <$> hits) meta.

Definition recover (e : Caught) : ErrorResult :=
  let '(code, message, given) :=
    match e with
    | CaughtError message => (lit "unexpected_error", message, None)
    | CaughtRest code message remediation => (code, message, remediation)
    | CaughtValue text => (lit "unexpected_error", text, None)
    end in
  let remediation :=
    match given with
    | Some r => r
    | None =>
        if bool_decide (code = lit "invalid_json")
        then lit "Upstream returned non-JSON (e.g., " ++ [34%N] ++ lit "Internal Server Error"
               ++ [34%N]
               ++ lit "). Inspect server logs, verify endpoints and filters, or increase deadline_ms/top_k."
        else lit "Check repo names with /repos, adjust filters, or increase deadline_ms/top_k."
    end in
  mkErrorResult
    (message ++ (if truthy (Some remediation) then lit " Remediation: " ++ remediation else []))
    code message given.

(** The handler once the input is parsed: [searched] is what
    [restSearch(body, signal)] settles to, [remote] the file service,
    [sched] the order in which the snippet fetches settle. *)
Definition handler (config : Config.Configuration)
    (signal : option SnippetFetcher.AbortSignal) (input : Input)
    (searched : Caught + (list ApiHit * SearchKnowledge.Meta))
    (remote : nat -> Z -> jsstring -> jsstring -> Z -> Z -> SnippetFetcher.Reply)
    (sched : list nat) : SnippetFetcher.Outcome Answer :=
  match searched with
  | inl e => SnippetFetcher.Resolves _ (Failure (recover e))
  | inr (hits, meta) =>
      match SnippetFetcher.fetchSnippetsInParallel remote (Config.fetchOptions config signal)
              (snippetRequest input <$> hits) sched with
      | SnippetFetcher.Pending _ => SnippetFetcher.Pending _
      | SnippetFetcher.Rejects _ =>
          SnippetFetcher.Resolves _
            (Failure (recover (CaughtError typeErrorText)))
      | SnippetFetcher.Resolves _ snippetResults =>
          let transformed := transformHits 0 hits snippetResults in
          let '(result, log) :=
            SearchKnowledge.trimPayload (length transformed) (assembled transformed meta) in
          SnippetFetcher.Resolves _ (Success result log)
      end
  end.

End buildPromptReady.

End SearchHandler.

(** ** The earlier snippet fetcher (src/unnamed/part_010)

    The version of mcp/tools/snippet_fetcher.ts from before the context
    lines: it reads the caller's signal before every attempt, it tests the
    [name] of what was thrown as it is, and it returns the reply of the
    service as it is. *)
Module LegacyFetcher.
Import SnippetFetcher.

Record LegacyRequest : Type := mkLegacyRequest {
  l_repo : jsstring;
  l_path : jsstring;
  l_startLine : Z;
  l_endLine : Z;
}.

Record LegacyResult : Type := mkLegacyResult {
  l_content : jsstring;
  l_warnings : option (list jsstring);
}.

(** The caller's [AbortSignal], by what [signal.aborted] reads before
    attempt [attempt] of the request at position [index]. *)
Record LegacyOptions : Type := mkLegacyOptions {
  l_maxConcurrent : option Z;
  l_requestTimeoutMs : option Z;
  l_retryAttempts : option Z;
  l_signal : option (nat -> Z -> bool);
}.

(** What is thrown at the loop, with what [(error as any)?.name] reads on
    it: an [Error] instance has its name; the plain object that [doFetch]
    throws for an HTTP error is the body the service sent, which has a
    [name] member that is a string, or has none; [undefined] is
    [lastError] before the first attempt. *)
Inductive RawThrown : Type :=
| ErrorObject (name message : jsstring)
| PlainObject (name : option jsstring) (code message : jsstring)
| Undefined.

Definition rawName (e : RawThrown) : option jsstring :=
  match e with
  | ErrorObject name _ => Some name
  | PlainObject name _ _ => name
  | Undefined => None
  end.

(** [(error as any)?.name === 'AbortError'] *)
Definition isAbortError (e : RawThrown) : bool :=
  bool_decide (rawName e = Some (lit "AbortError")).

(** What [fetch] rejects with once its signal is aborted. *)
Definition abortError : RawThrown :=
  ErrorObject (lit "AbortError") (lit "The operation was aborted.").

(** One call of the remote service, as this version receives it: what
    [doFetch] returns is the parsed body, a [FileSliceResponse] or, for a
    body such as [null], [0], [false] or [""], a value that is not truthy
    ([None]). *)
Record RawReply : Type := mkRawReply {
  raw_latency : Z;
  raw_outcome : RawThrown + option FileSliceResponse;
}.

Section fetchSnippetsInParallel.
Variable restGetFileSlice : nat -> Z -> jsstring -> jsstring -> Z -> Z -> RawReply.
Variable options : LegacyOptions.

(** [const { maxConcurrent = 8, requestTimeoutMs = 2000, retryAttempts = 1,
    signal } = options] *)
Definition maxConcurrentOpt : Z := default 8 (l_maxConcurrent options).
Definition requestTimeoutMsOpt : Z := default 2000 (l_requestTimeoutMs options).
Definition retryAttemptsOpt : Z := default 1 (l_retryAttempts options).

(** [signal?.aborted] *)
Definition signalAborted (index : nat) (attempt : Z) : bool :=
  match l_signal options with
  | Some reads => reads index attempt
  | None => false
  end.

(** One attempt: the signal is read first, and an aborted signal throws
    the [DOMException] without a call; otherwise the call is made under
    the timer, as in the later version. Without an item, reading
    [request.repo] for the call throws a [TypeError]. *)
Definition attemptOnce (index : nat) (attempt : Z) (item : option LegacyRequest)
  : (RawThrown + option FileSliceResponse) * list Event :=
  if signalAborted index attempt
  then (inl (ErrorObject (lit "AbortError") (lit "Aborted")), [])
  else
    match item with
    | None => (inl (ErrorObject (lit "TypeError") (lit "request is undefined")), [])
    | Some request =>
        let reply := restGetFileSlice index attempt (trim (l_repo request)) (l_path request)
                       (l_startLine request) (l_endLine request) in
        (if requestTimeoutMsOpt <? raw_latency reply then inl abortError
         else raw_outcome reply,
         [Attempt attempt (l_startLine request) (l_endLine request)])
    end.

(** [for (let attempt = 0; attempt <= retryAttempts; attempt++)], with
    [n] iterations left; [return result] whatever the reply is. *)
Fixpoint retryLoop (n : nat) (attempt : Z) (lastError : RawThrown) (index : nat)
    (item : option LegacyRequest)
  : Settlement (option FileSliceResponse) RawThrown * list Event :=
  match n with
  | O => (Rejected lastError, [])
  | S n =>
      let '(reply, call) := attemptOnce index attempt item in
      match reply with
      | inr result => (Fulfilled result, call)
      | inl error =>
          if isAbortError error then (Rejected error, call)
          else
            let sleep := if attempt <? retryAttemptsOpt
                         then [Backoff (2 ^ attempt * 100)] else [] in
            let '(s, tr) := retryLoop n (attempt + 1) error index item in
            (s, call ++ sleep ++ tr)
      end
  end.

Definition fetchWithRetry (index : nat) (item : option LegacyRequest)
  : Settlement (option FileSliceResponse) RawThrown * list Event :=
  retryLoop (Z.to_nat (retryAttemptsOpt + 1)) 0 Undefined index item.

(** The mapper given to [mapWithConcurrency]: an [async] function. *)
Definition snippetMapper (item : option LegacyRequest) (index : nat)
  : Invocation (option FileSliceResponse) RawThrown :=
  Returns (fst (fetchWithRetry index item)).

Definition failurePlaceholder : LegacyResult :=
  mkLegacyResult (lit "") (Some [lit "Failed to load snippet"]).

(** The body of [results.forEach]: [result.success && result.data] asks
    for a reply that is truthy. *)
Definition snippetOf (requests : list LegacyRequest) (index : nat)
    (result : Concurrency.TaskResult (option FileSliceResponse) RawThrown)
  : option LegacyResult :=
  match Concurrency.success result, Concurrency.data result with
  | true, Some (Some r) => Some (mkLegacyResult (slice_content r) (slice_warnings r))
  | _, _ =>
      match requests !! index with
      | Some _ => Some failurePlaceholder
      | None => None
      end
  end.

Fixpoint forEachResult (requests : list LegacyRequest) (index : nat)
    (results : list (option (Concurrency.TaskResult (option FileSliceResponse) RawThrown)))
    (snippetMap : gmap nat LegacyResult) : option (gmap nat LegacyResult) :=
  match results with
  | [] => Some snippetMap
  | None :: results => forEachResult requests (S index) results snippetMap
  | Some result :: results =>
      snippet ← snippetOf requests index result;
      forEachResult requests (S index) results (<[index := snippet]> snippetMap)
  end.

Definition fetchSnippetsInParallel (requests : list LegacyRequest) (sched : list nat)
  : Outcome (gmap nat LegacyResult) :=
  match Concurrency.mapWithConcurrency requests snippetMapper
          (Concurrency.mkOptions (Some maxConcurrentOpt)) sched with
  | None => Pending _
  | Some p =>
      match Concurrency.returned p with
      | None => Pending _
      | Some results =>
          match forEachResult requests 0 results ∅ with
          | Some snippetMap => Resolves _ snippetMap
          | None => Rejects _
          end
      end
  end.

End fetchSnippetsInParallel.

(** *** Vocabulary of the statements *)

(** The request and the options of the later version that correspond to
    those of the earlier one: no context lines, the same limits, the
    time-out written out. *)
Definition later (request : LegacyRequest) : SnippetFetchRequest :=
  mkRequest (l_repo request) (l_path request) (l_startLine request) (l_endLine request)
    None None.

Definition laterOptions (options : LegacyOptions) : SnippetFetchOptions :=
  mkFetchOptions (l_maxConcurrent options) (Some (requestTimeoutMsOpt options))
    (l_retryAttempts options) None.

(** The two fields of a result that the earlier version had. *)
Definition earlier (result : SnippetFetchResult) : LegacyResult :=
  mkLegacyResult (content result) (warnings result).

(** What was thrown, as the later version holds it: it reads the name of
    an [Error] instance only, so that the [name] member of a plain object
    is not seen. *)
Definition wrapped (e : RawThrown) : Thrown :=
  match e with
  | ErrorObject name message => SnippetFetcher.ErrorObject name message
  | PlainObject _ code message => RestError code message
  | Undefined => SnippetFetcher.Undefined
  end.

(** A reply of the service that both versions read alike, with the reply
    as the later version holds it: the reply is a [FileSliceResponse], or
    it is something thrown that is not a plain object with
    [name: "AbortError"]; a reply that is not truthy is not among them. *)
Definition typedAs (raw : RawReply) (reply : Reply) : Prop :=
  raw_latency raw = latency reply /\
  match raw_outcome raw with
  | inl e => outcome reply = inl (wrapped e) /\
             forall code message, e <> PlainObject (Some (lit "AbortError")) code message
  | inr (Some r) => outcome reply = inr r
  | inr None => False
  end.

(** A reply of the later model, as the earlier version receives it. *)
Definition received (reply : Reply) : RawReply :=
  mkRawReply (latency reply)
    (match outcome reply with
     | inl (SnippetFetcher.ErrorObject name message) => inl (ErrorObject name message)
     | inl (RestError code message) => inl (PlainObject None code message)
     | inl SnippetFetcher.Undefined => inl Undefined
     | inr r => inr (Some r)
     end).

Definition receivedFrom (remote : nat -> Z -> jsstring -> jsstring -> Z -> Z -> Reply)
  : nat -> Z -> jsstring -> jsstring -> Z -> Z -> RawReply :=
  fun index attempt repo path s e => received (remote index attempt repo path s e).

End LegacyFetcher.

(** ** util/logger.ts: the rotation of the log file

    The log directory is a map from the rotation index to the bytes of the
    file: [mcp.log] at 0 and [mcp.log.i] at [i]. A [rename] of a file that is
    there succeeds and replaces its target, and [appendFile] succeeds and
    creates the file if need be; the errors that [rotateIfNeeded] catches
    change nothing. *)
Module Logger.

Definition MAX_LOG_BYTES : Z := 5 * 1024 * 1024.
Definition MAX_ROTATIONS : nat := 3.

Abbreviation Files := (gmap nat (list N)) (only parsing).

(** [exists(p)] *)
Definition fileExists (fs : Files) (i : nat) : bool := bool_decide (is_Some (fs !! i)).

(** [rename(src, dst)] *)
Definition rename (src dst : nat) (fs : Files) : Files :=
  match fs !! src with
  | Some bytes => <[dst := bytes]> (delete src fs)
  | None => fs
  end.

(** The body of the loop of [rotateIfNeeded] for [i]. *)
Definition rotateStep (fs : Files) (i : nat) : Files :=
  if fileExists fs i then rename i (i + 1) fs else fs.

(** [rotateIfNeeded]: nothing happens without a log file or below the
    limit; otherwise [for (let i = MAX_ROTATIONS - 1; i >= 1; i--)] shifts
    the old files and the log file becomes [mcp.log.1]. *)
Definition rotateIfNeeded (fs : Files) : Files :=
  match fs !! 0%nat with
  | None => fs
  | Some bytes =>
      if Z.of_nat (length bytes) <? MAX_LOG_BYTES then fs
      else
        let fs := foldl rotateStep fs (reverse (seq 1 (MAX_ROTATIONS - 1))) in
        if fileExists fs 0 then rename 0 1 fs else fs
  end.

(** [writeLine(line)], with [payload] the bytes of
    [JSON.stringify(line) + "\n"]. *)
Definition writeLine (payload : list N) (fs : Files) : Files :=
  let fs := rotateIfNeeded fs in
  <[0%nat := default [] (fs !! 0%nat) ++ payload]> fs.

End Logger.

(** ** Concrete inputs of the handler *)
Module HandlerExamples.
Import JsText Language SearchHandler.

(** A hit for lines 2 to 3 of [src/a.ts], its language given in capitals. *)
Definition hitTs : ApiHit :=
  mkApiHit (lit "repoa") (lit "src/a.ts") 2 3 (Some (lit "TypeScript")) None (lit "c1")
    (lit "0.91") None.

(** A hit without a language: the path decides. *)
Definition hitPy : ApiHit :=
  mkApiHit (lit "repob") (lit "lib/B.PY") 5 5 None None (lit "c2") (lit "0.5") None.

(** The metadata of a search response without cursor or flag, answered
    in 12 ms. *)
Definition quietMeta : SearchKnowledge.Meta :=
  SearchKnowledge.mkMeta [] None None None None None None 12.

(** A file service that answers every call with four lines after 20 ms. *)
Definition fourLines (index : nat) (attempt : Z) (repo path : jsstring) (s e : Z)
  : SnippetFetcher.Reply :=
  SnippetFetcher.mkReply 20
    (inr (SnippetFetcher.mkSlice (join lineFeed [lit "a"; lit "b"; lit "c"; lit "d"]) None)).

(** No variable of the environment is set. *)
Definition bareEnv : Config.Env := Config.mkEnv None None None None None None None None.

(** [{ context_lines_before: 1, context_lines_after: 1 }] *)
Definition oneLineAround : Input := mkInput (Some 1) (Some 1).

(** A graph context with one node, two outgoing calls and a caller. *)
Definition smallGraph : GraphContext :=
  mkGraph
    (Some [mkNode (lit "function") (lit "a.run") (Some (lit "run(x)")) (2, 3)])
    (Some [mkRelationship (lit "calls") (lit "outgoing") (Some (lit "b.load")) None (Some 7);
           mkRelationship (lit "calls") (lit "incoming") None (Some (lit "main")) None;
           mkRelationship (lit "calls") (lit "outgoing") None None (Some 0)]).

End HandlerExamples.

Module LegacyExamples.
Import SnippetFetcher LegacyFetcher Examples.

(** The body of an HTTP 500 that has [name: "AbortError"], and then the
    file. *)
Definition namedBody (index : nat) (attempt : Z) (repo path : jsstring) (s e : Z)
  : RawReply :=
  mkRawReply 20
    (if attempt =? 0
     then inl (PlainObject (Some (lit "AbortError")) (lit "upstream_error") (lit "HTTP 500"))
     else inr (Some hello)).

Definition namedBodyTyped (index : nat) (attempt : Z) (repo path : jsstring) (s e : Z)
  : Reply :=
  mkReply 20 (if attempt =? 0 then inl (RestError (lit "upstream_error") (lit "HTTP 500"))
              else inr hello).

End LegacyExamples.

(** * Properties of [mapWithConcurrency] *)
Module ConcurrencyFacts.
Import Concurrency.
Section facts.
Context {T R E : Type}.
Variable items : list T.
Variable mapper : option T -> nat -> Invocation R E.
Variable options : ConcurrencyPoolOptions.

Local Abbreviation pool := (Pool T R E).
Local Abbreviation M := (maxConcurrentOf options).
Local Abbreviation runTask' := (runTask items mapper options).
Local Abbreviation finally' := (finally items options).
Local Abbreviation closing := (@closing T R E items).
Local Abbreviation steady := (@steady T R E options).
Local Abbreviation runs_within := (@runs_within T R E items options).
Local Abbreviation promising := (promising mapper).
Local Abbreviation expected := (expected items mapper).
Local Abbreviation backlog := (@backlog T R E items).
Local Abbreviation tidy := (tidy items mapper options).
Local Abbreviation saturated := (@saturated T R E items options).

Ltac fields :=
  unfold suspend, enter, bump, record, decActive, updateProgress;
  cbn [results currentIndex activeCount resolved awaiting progress invoked peak].

Lemma maxConcurrentOf_pos : 1 <= M.
Proof. unfold maxConcurrentOf. lia. Qed.


Lemma closing_fields (p : pool) :
  results (closing p) = results p /\
  currentIndex (closing p) = currentIndex p /\
  activeCount (closing p) = (activeCount p - 1)%nat /\
  awaiting (closing p) = awaiting p /\
  invoked (closing p) = invoked p /\
  peak (closing p) = peak p.
Proof.
  unfold closing, checkComplete.
  destruct (_ && _ && _); cbn; auto 10.
Qed.

Lemma closing_resolved (p : pool) :
  resolved (closing p) =
    resolved p || (bool_decide (length items <= currentIndex p)%nat
                   && bool_decide ((activeCount p - 1)%nat = 0%nat)).
Proof.
  unfold closing, checkComplete, hasError. cbn.
  rewrite andb_true_r.
  destruct (_ && _); cbn; by rewrite ?orb_true_r, ?orb_false_r.
Qed.


Lemma finally_steady f next (p : pool) :
  runs_within f next ->
  activeCount p = S (length (awaiting p)) ->
  Z.of_nat (peak p) <= M ->
  Z.of_nat (length (awaiting p)) < M ->
  (length items - currentIndex p <= f)%nat ->
  exists p', finally' next p = Some p' /\ steady p' /\
    (length (awaiting p') <= S (length (awaiting p)))%nat /\
    (currentIndex p <= currentIndex p')%nat.
Proof.
  intros Hnext Hact Hpeak Hlen Hf. unfold finally. fold (closing p).
  destruct (closing_fields p) as (Hr & Hc & Ha & Haw & Hi & Hp).
  assert (Hst : steady (closing p)).
  { unfold steady. rewrite Ha, Haw, Hp, Hact. split; [lia|]. split; lia. }
  destruct (_ && _ && _) eqn:Hcond.
  - apply andb_prop in Hcond as [Hcond _].
    apply andb_prop in Hcond as [Hlt Hroom].
    apply bool_decide_eq_true in Hlt. apply Z.ltb_lt in Hroom.
    rewrite Hc in Hlt. rewrite Ha, Hact in Hroom.
    destruct (Hnext (currentIndex (closing p)) (bump (closing p)))
      as (q' & Hq & Hsq & Hlq & Hcq).
    + destruct Hst as (? & ? & ?). unfold steady, bump; cbn. auto.
    + unfold bump; cbn. rewrite Haw. lia.
    + unfold bump; cbn. rewrite Hc. lia.
    + exists q'. split; [done|]. split; [done|].
      unfold bump in Hlq, Hcq; cbn in Hlq, Hcq. rewrite Haw in Hlq. rewrite Hc in Hcq.
      split; lia.
  - exists (closing p). split; [done|]. split; [done|]. rewrite Haw, Hc. split; lia.
Qed.

Lemma runTask_steady fuel : runs_within fuel (runTask' fuel).
Proof.
  induction fuel as [|fuel IH]; intros i q Hst Hlen Hf; [lia|].
  destruct Hst as (Hact & Hpeak & _).
  cbn [runTask]. unfold hasError at 1.
  destruct (mapper (items !! i) i) as [e|s].
  - destruct (finally_steady fuel (runTask' fuel)
                (record i (Rejected e) (enter items i q))) as (p' & Hp' & Hs' & Hl' & Hc');
      try done; unfold record, enter; cbn; try lia.
    exists p'. unfold record, enter in Hl', Hc'; cbn in Hl', Hc'. done.
  - eexists. split; [done|]. unfold steady, suspend, enter; cbn.
    rewrite length_app; cbn. repeat split; lia.
Qed.

Lemma depth_enough (q : pool) : (length items - currentIndex q < depth items)%nat.
Proof. unfold depth. lia. Qed.

Lemma startBatch_steady n (p : pool) :
  steady p -> Z.of_nat (length (awaiting p) + n) <= M ->
  exists p', startBatch items mapper options n p = Some p' /\ steady p'.
Proof.
  revert p. induction n as [|n IH]; intros p Hst Hroom; cbn [startBatch].
  - by exists p.
  - destruct (runTask_steady (depth items) (currentIndex p) (bump p))
      as (q & Hq & Hsq & Hlq & _).
    + destruct Hst as (? & ? & ?). unfold steady, bump; cbn. auto.
    + unfold bump; cbn. lia.
    + apply depth_enough.
    + rewrite Hq. cbn. apply IH; [done|]. unfold bump in Hlq; cbn in Hlq. lia.
Qed.

Lemma resume_steady k (p : pool) :
  steady p -> exists p', resume items mapper options k p = Some p' /\ steady p'.
Proof.
  intros Hst. unfold resume.
  destruct (awaiting p !! k) as [[i s]|] eqn:Hk; [|by exists p].
  destruct Hst as (Hact & Hpeak & Hlen).
  apply lookup_lt_Some in Hk as Hlt.
  match goal with |- context [finally' ?n ?q] =>
    destruct (finally_steady (depth items) n q) as (p' & Hp' & Hs' & _) end.
  - apply runTask_steady.
  - unfold record; cbn. rewrite length_delete by (by eexists). lia.
  - done.
  - unfold record; cbn. rewrite length_delete by (by eexists). lia.
  - unfold record; cbn. unfold depth. lia.
  - by exists p'.
Qed.

Lemma run_steady sched (p : pool) :
  steady p -> exists p', run items mapper options sched p = Some p' /\ steady p'.
Proof.
  revert p. induction sched as [|k sched IH]; intros p Hst; cbn [run].
  - by exists p.
  - destruct (awaiting p) eqn:Haw; [by exists p|]. rewrite <- Haw.
    destruct (resume_steady (k mod length (awaiting p))%nat p Hst) as (q & Hq & Hsq).
    rewrite Hq. cbn. by apply IH.
Qed.

Lemma initialPool_steady : steady (initialPool items).
Proof. unfold steady, initialPool; cbn. pose proof maxConcurrentOf_pos. lia. Qed.

Lemma mapWithConcurrency_steady sched :
  exists p, mapWithConcurrency items mapper options sched = Some p /\ steady p.
Proof.
  unfold mapWithConcurrency. destruct (decide _).
  - eexists. split; [done|]. unfold steady; cbn. pose proof maxConcurrentOf_pos. lia.
  - destruct (startBatch_steady (initialBatch items options) (initialPool items))
      as (p & Hp & Hs).
    + apply initialPool_steady.
    + unfold initialBatch, initialPool; cbn. pose proof maxConcurrentOf_pos. lia.
    + rewrite Hp. cbn. by apply run_steady.
Qed.

(** *** Mappers that never throw before returning their promise *)


Lemma runTask_promising fuel i (p : pool) :
  promising -> exists s, mapper (items !! i) i = Returns s /\
    runTask' (S fuel) i p = Some (suspend i s (enter items i p)).
Proof.
  intros Hm. destruct (Hm (items !! i) i) as [s Hs]. exists s. split; [done|].
  cbn [runTask]. unfold hasError at 1. by rewrite Hs.
Qed.

Lemma array_set_length {A} (a : list (option A)) i v :
  (i < length a)%nat -> length (array_set a i v) = length a.
Proof. intros. unfold array_set. rewrite decide_True by done. apply length_insert. Qed.

Lemma array_set_eq {A} (a : list (option A)) i v :
  (i < length a)%nat -> array_set a i v !! i = Some (Some v).
Proof.
  intros. unfold array_set. rewrite decide_True by done. by apply list_lookup_insert_eq.
Qed.

Lemma array_set_ne {A} (a : list (option A)) i j v :
  (i < length a)%nat -> i <> j -> array_set a i v !! j = a !! j.
Proof.
  intros. unfold array_set. rewrite decide_True by done. by apply list_lookup_insert_ne.
Qed.

Lemma elem_of_delete_or {A} (l : list A) k x y :
  l !! k = Some y -> x ∈ l -> x = y \/ x ∈ delete k l.
Proof.
  intros Hk Hx. rewrite delete_take_drop.
  rewrite <- (take_drop_middle l k y Hk) in Hx.
  rewrite elem_of_app, elem_of_cons in Hx. rewrite elem_of_app. tauto.
Qed.

Lemma elem_of_delete_inv {A} (l : list A) k x : x ∈ delete k l -> x ∈ l.
Proof.
  intros H. eapply elem_of_submseteq; [exact H|]. apply submseteq_delete.
Qed.

(** Starting the next task on a tidy pool. *)
Lemma launch_tidy fuel (p : pool) :
  promising -> tidy p -> (currentIndex p < length items)%nat ->
  Z.of_nat (length (awaiting p)) < M ->
  exists s p', runTask' (S fuel) (currentIndex p) (bump p) = Some p' /\ tidy p' /\
    currentIndex p' = S (currentIndex p) /\
    awaiting p' = awaiting p ++ [(currentIndex p, s)] /\
    resolved p' = resolved p /\ results p' = results p.
Proof.
  intros Hm Ht Hlt Hroom.
  destruct (runTask_promising fuel (currentIndex p) (bump p) Hm) as (s & Hs & Hrun).
  exists s. eexists. split; [exact Hrun|].
  destruct Ht as [H1 H2 H3 H4 H5 H6 H7].
  split; [|by cbn]. split; fields.
  - lia.
  - done.
  - rewrite length_app; cbn. lia.
  - rewrite length_app; cbn. lia.
  - intros i s'. rewrite elem_of_app, list_elem_of_singleton. intros [Hin|Heq].
    + destruct (H5 i s' Hin). split; [lia|done].
    + inversion Heq; subst. split; [lia|done].
  - intros i Hi. destruct (decide (i = currentIndex p)) as [->|Hne].
    + left. exists s. rewrite elem_of_app, list_elem_of_singleton. by right.
    + destruct (H6 i) as [[s' Hin]|Hr]; [lia| |by right].
      left. exists s'. rewrite elem_of_app. by left.
  - rewrite H7. rewrite seq_S, fmap_app. done.
Qed.

Lemma startBatch_tidy n (p : pool) :
  promising -> tidy p -> (currentIndex p + n <= length items)%nat ->
  Z.of_nat (length (awaiting p) + n) <= M ->
  exists p', startBatch items mapper options n p = Some p' /\ tidy p' /\
    currentIndex p' = (currentIndex p + n)%nat /\
    length (awaiting p') = (length (awaiting p) + n)%nat /\
    resolved p' = resolved p.
Proof.
  intros Hm. revert p. induction n as [|n IH]; intros p Ht Hn Hroom; cbn [startBatch].
  - exists p. split; [done|]. split; [done|]. split; [lia|]. split; [lia|done].
  - destruct (launch_tidy (length items) p Hm Ht) as (s & q & Hq & Htq & Hc & Ha & Hr & _);
      [lia..|].
    fold (depth items) in Hq. rewrite Hq. cbn.
    destruct (IH q Htq) as (p' & Hp' & Htp' & Hc' & Ha' & Hr').
    + lia.
    + rewrite Ha, length_app; cbn. lia.
    + exists p'. split; [done|]. split; [done|].
      rewrite Hc', Ha', Hr', Hc, Ha, Hr, length_app; cbn [length].
      split; [lia|]. split; [lia|done].
Qed.

(** A settlement on a tidy, saturated pool records one more result. *)
Lemma resume_tidy k (p : pool) :
  promising -> tidy p -> saturated p -> (k < length (awaiting p))%nat ->
  exists p', resume items mapper options k p = Some p' /\ tidy p' /\ saturated p' /\
    S (backlog p') = backlog p.
Proof.
  intros Hm Ht [Hsat Hres] Hk.
  destruct (lookup_lt_is_Some_2 _ _ Hk) as [[i s] Hlk].
  unfold resume. rewrite Hlk.
  destruct Ht as [H1 H2 H3 H4 H5 H6 H7].
  assert (Hin : (i, s) ∈ awaiting p) by (rewrite list_elem_of_lookup; eauto).
  destruct (H5 i s Hin) as [Hi Hs].
  assert (Hdel : length (delete k (awaiting p)) = (length (awaiting p) - 1)%nat)
    by (apply length_delete; eauto).
  set (q := record i s _).
  unfold finally. fold (closing q).
  destruct (closing_fields q) as (Hcr & Hcc & Hca & Hcw & Hci & Hcp).
  pose proof (closing_resolved q) as Hcres.
  assert (Htq : tidy (closing q)).
  { split; rewrite ?Hcr, ?Hcc, ?Hca, ?Hcw, ?Hci; subst q; fields.
    - done.
    - rewrite array_set_length; [done | lia].
    - lia.
    - lia.
    - intros j s' Hj. apply H5. by eapply elem_of_delete_inv.
    - intros j Hj. destruct (decide (j = i)) as [->|Hne].
      + right. eexists. rewrite array_set_eq by lia. split; [done|]. by exists s.
      + destruct (H6 j Hj) as [[s' Hs']|(r & Hr & He)].
        * destruct (elem_of_delete_or _ _ _ _ Hlk Hs') as [Heq|Hd]; [congruence|].
          left. by exists s'.
        * right. exists r. rewrite array_set_ne by (done || lia). done.
    - done. }
  destruct (_ && _ && _) eqn:Hcond.
  - apply andb_prop in Hcond as [Hcond _].
    apply andb_prop in Hcond as [Hlt Hroom].
    apply bool_decide_eq_true in Hlt. apply Z.ltb_lt in Hroom.
    destruct (launch_tidy (length items) (closing q) Hm Htq Hlt)
      as (s' & p' & Hp' & Htp' & Hc' & Ha' & Hr' & _).
    { destruct Htq. lia. }
    exists p'. split; [exact Hp'|]. split; [done|].
    rewrite Hcc in Hlt. subst q. revert Hlt; fields; intros Hlt.
    split; [split|].
    + intros _. rewrite Ha', length_app, Hcw. fields. cbn [length].
      specialize (Hsat Hlt). lia.
    + rewrite Ha'. intros Hnil. by apply app_eq_nil in Hnil as [_ ?].
    + unfold backlog. rewrite Hc', Ha', length_app, Hcw, Hcc. fields. cbn [length]. lia.
  - exists (closing q). split; [done|]. split; [done|].
    apply andb_false_iff in Hcond as [Hcond|Hcond]; [|done].
    assert (Hge : (length items <= currentIndex p)%nat).
    { apply andb_false_iff in Hcond as [Hcond|Hcond].
      - apply bool_decide_eq_false in Hcond. rewrite Hcc in Hcond.
        subst q. revert Hcond. fields. lia.
      - apply Z.ltb_ge in Hcond. rewrite Hca in Hcond. subst q. revert Hcond.
        fields. intros Hcond.
        destruct (decide (currentIndex p < length items)%nat) as [Hlt|]; [|lia].
        specialize (Hsat Hlt). lia. }
    split; [split|].
    + rewrite Hcc. subst q. fields. lia.
    + rewrite Hcw, Hcres. subst q. fields. intros Hnil.
      rewrite Hnil in Hdel. cbn in Hdel.
      rewrite !bool_decide_eq_true_2 by lia. apply orb_true_r.
    + unfold backlog. rewrite Hcw, Hcc. subst q. fields. lia.
Qed.

Lemma run_drains sched (p : pool) :
  promising -> tidy p -> saturated p -> (backlog p <= length sched)%nat ->
  exists p', run items mapper options sched p = Some p' /\ tidy p' /\ saturated p' /\
    awaiting p' = [].
Proof.
  intros Hm. revert p. induction sched as [|k sched IH]; intros p Ht Hs Hb; cbn [run].
  - exists p. split; [done|]. split; [done|]. split; [done|].
    unfold backlog in Hb. cbn in Hb. apply nil_length_inv. lia.
  - destruct (awaiting p) as [|a l] eqn:Haw.
    + exists p. by rewrite Haw.
    + rewrite <- Haw.
      destruct (resume_tidy (k mod length (awaiting p))%nat p Hm Ht Hs)
        as (q & Hq & Htq & Hsq & Hbq).
      { apply Nat.mod_upper_bound. rewrite Haw. done. }
      rewrite Hq. cbn. apply IH; try done. cbn in Hb. lia.
Qed.

Lemma start_tidy :
  promising -> length items <> 0%nat ->
  exists p, startBatch items mapper options (initialBatch items options) (initialPool items)
            = Some p /\ tidy p /\ saturated p /\ backlog p = length items.
Proof.
  intros Hm Hne. pose proof maxConcurrentOf_pos as HM.
  destruct (startBatch_tidy (initialBatch items options) (initialPool items) Hm)
    as (p & Hp & Ht & Hc & Ha & Hr).
  - split; unfold initialPool; cbn; try done; try lia.
    + by rewrite length_replicate.
    + intros i s Hin. by apply elem_of_nil in Hin.
  - unfold initialBatch, initialPool; cbn. lia.
  - unfold initialBatch, initialPool; cbn. lia.
  - exists p. split; [done|]. split; [done|].
    unfold initialPool in Hc, Ha, Hr; cbn in Hc, Ha, Hr.
    unfold initialBatch in Hc, Ha.
    split; [split|].
    + rewrite Ha, Hc. lia.
    + intros Hnil. rewrite Hnil in Ha. cbn in Ha. lia.
    + unfold backlog. rewrite Ha, Hc. lia.
Qed.
End facts.

Section limit.
Context {T R E : Type}.
Variable items : list T.
Variable mapper : option T -> nat -> Invocation R E.
Variables o1 o2 : ConcurrencyPoolOptions.
Hypothesis same : maxConcurrentOf o1 = maxConcurrentOf o2.

(** Only [Math.max(1, maxConcurrent ?? 8)] of the options is ever read. *)
Lemma finally_limit n1 n2 (p : Pool T R E) :
  (forall i q, n1 i q = n2 i q) -> finally items o1 n1 p = finally items o2 n2 p.
Proof. intros Hn. unfold finally. rewrite same. destruct (_ && _ && _); auto. Qed.

Lemma runTask_limit fuel i (p : Pool T R E) :
  runTask items mapper o1 fuel i p = runTask items mapper o2 fuel i p.
Proof.
  revert i p. induction fuel as [|fuel IH]; intros i p; [done|].
  cbn [runTask]. destruct hasError; [done|].
  destruct (mapper _ _); [|done]. by apply finally_limit.
Qed.

Lemma run_limit sched (p : Pool T R E) :
  run items mapper o1 sched p = run items mapper o2 sched p.
Proof.
  revert p. induction sched as [|k sched IH]; intros p; [done|].
  cbn [run]. destruct (awaiting p) eqn:Haw; [done|]. rewrite <- Haw.
  assert (Hr : resume items mapper o1 (k mod length (awaiting p))%nat p
             = resume items mapper o2 (k mod length (awaiting p))%nat p).
  { unfold resume. destruct (_ !! _) as [[i s]|]; [|done].
    apply finally_limit. intros. apply runTask_limit. }
  rewrite Hr. destruct (resume _ _ o2 _ _); cbn; auto.
Qed.

Lemma startBatch_limit n (p : Pool T R E) :
  startBatch items mapper o1 n p = startBatch items mapper o2 n p.
Proof.
  revert p. induction n as [|n IH]; intros p; [done|].
  cbn [startBatch]. rewrite runTask_limit. destruct (runTask _ _ o2 _ _ _); cbn; auto.
Qed.

Lemma mapWithConcurrency_limit sched :
  mapWithConcurrency items mapper o1 sched = mapWithConcurrency items mapper o2 sched.
Proof.
  unfold mapWithConcurrency. destruct (decide _); [done|].
  unfold initialBatch. rewrite same, startBatch_limit.
  destruct (startBatch _ _ o2 _ _); cbn; [apply run_limit | done].
Qed.
End limit.

Import Examples.

(** With a promising mapper every schedule that is long enough drains the
    pool. *)
Lemma promising_resolves {T R E} (items : list T)
    (mapper : option T -> nat -> Invocation R E) options sched :
  promising mapper ->
  (length items <= length sched)%nat ->
  exists p res,
    mapWithConcurrency items mapper options sched = Some p /\
    returned p = Some res /\
    length res = length items /\
    (forall i, (i < length items)%nat ->
       exists r, res !! i = Some (Some r) /\ index r = i /\ expected items mapper i r) /\
    awaiting p = [] /\
    invoked p = (fun i => (items !! i, i)) <$> seq 0 (length items).
Proof.
  intros Hm Hlen. unfold mapWithConcurrency. destruct (decide _) as [Hz|Hnz].
  - eexists _, _. split; [done|]. split; [done|]. cbn. rewrite Hz. cbn.
    repeat split; try done. intros i Hi. lia.
  - destruct (start_tidy items mapper options Hm Hnz) as (p0 & Hp0 & Ht0 & Hs0 & Hb0).
    rewrite Hp0. cbn.
    destruct (run_drains items mapper options sched p0 Hm Ht0 Hs0) as (p & Hp & Ht & Hs & Hnil);
      [lia|].
    destruct Hs as [Hsat Hres]. destruct Ht as [H1 H2 H3 H4 H5 H6 H7].
    assert (Hc : currentIndex p = length items).
    { destruct (decide (currentIndex p < length items)%nat) as [Hlt|]; [|lia].
      specialize (Hsat Hlt). rewrite Hnil in Hsat. cbn in Hsat.
      pose proof (maxConcurrentOf_pos options). lia. }
    exists p, (results p). split; [done|]. unfold returned. rewrite (Hres Hnil).
    split; [done|]. split; [done|]. split; [|split; [done|by rewrite H7, Hc]].
    intros i Hi. destruct (H6 i) as [[s Hin]|(r & Hr & He)]; [lia| |].
    + rewrite Hnil in Hin. by apply elem_of_nil in Hin.
    + exists r. split; [done|]. split; [|done].
      destruct He as (s & _ & ->). by destruct s.
Qed.

(** Three items under a limit of two, the second promise settling first:
    the records come back in input order. *)
Example settled_out_of_order :
  (p ← mapWithConcurrency three doubling (mkOptions (Some 2)) [1; 0; 0]%nat;
   res ← returned p; Some (res, peak p, progress p))
  = Some ([Some (mkTaskResult 0 true (Some 20%nat) None);
           Some (mkTaskResult 1 true (Some 40%nat) None);
           Some (mkTaskResult 2 true (Some 60%nat) None)],
          2%nat, [(1, 3); (2, 3); (3, 3)]%nat).
Proof. reflexivity. Qed.

(** Nothing is returned while a promise is pending. *)
Example pending_until_all_settled :
  (p ← mapWithConcurrency three doubling (mkOptions (Some 2)) [1; 0]%nat;
   Some (returned p, length (awaiting p)))
  = Some (None, 1%nat).
Proof. reflexivity. Qed.



(** C2. Whatever the items, the mapper (throwing or not), the configured
    limit [C] and the order of settlements, no more than [max 1 C] mapper
    invocations are ever in flight together; and any limit that is zero or
    negative behaves exactly as the limit 1. *)
Theorem mapWithConcurrency_bound {T R E} (items : list T)
    (mapper : option T -> nat -> Invocation R E) (C : Z) sched :
  (exists p, mapWithConcurrency items mapper (mkOptions (Some C)) sched = Some p /\
     Z.of_nat (peak p) <= Z.max 1 C /\
     Z.of_nat (length (awaiting p)) <= Z.max 1 C) /\
  mapWithConcurrency items mapper (mkOptions (Some (Z.min C 0))) sched =
    mapWithConcurrency items mapper (mkOptions (Some 1)) sched.
Proof.
  split.
  - destruct (mapWithConcurrency_steady items mapper (mkOptions (Some C)) sched)
      as (p & Hp & _ & Hpk & Haw).
    exists p. by repeat split.
  - apply mapWithConcurrency_limit. unfold maxConcurrentOf; cbn. lia.
Qed.

(** C9, at the failing input. With two items and a limit of two, a mapper
    that throws before returning for item 0 makes the start-up loop call the
    mapper a third time, with no item and index 2, and the array that is
    returned has three entries; the same mapper rejecting its promise
    instead yields the two entries expected. *)
Theorem mapWithConcurrency_throw_overruns :
  (p ← mapWithConcurrency pair throwing (mkOptions (Some 2)) [0; 0]%nat;
   res ← returned p; Some (length res, invoked p))
    = Some (3%nat, [(Some 7%nat, 0%nat); (Some 8%nat, 1%nat); (None, 2%nat)]) /\
  (p ← mapWithConcurrency pair rejecting (mkOptions (Some 2)) [0; 0]%nat;
   res ← returned p; Some (length res, invoked p))
    = Some (2%nat, [(Some 7%nat, 0%nat); (Some 8%nat, 1%nat)]).
Proof. split; reflexivity. Qed.

End ConcurrencyFacts.

(** * Properties of [fetchSnippetsInParallel] *)
Module SnippetFetcherFacts.
Import SnippetFetcher.

Section facts.
Variable remote : nat -> Z -> jsstring -> jsstring -> Z -> Z -> Reply.
Variable options : SnippetFetchOptions.

Local Abbreviation retry := (retryAttemptsOpt options).
Local Abbreviation attemptOnce' := (attemptOnce remote options).
Local Abbreviation retryLoop' := (retryLoop remote options).
Local Abbreviation verdict := (verdict remote options).


Lemma retryLoop_plan (k : nat) : forall n attempt last index request,
  Z.of_nat n = retry + 1 - attempt ->
  attempt + Z.of_nat k <= retry ->
  (forall a : nat, (a < k)%nat -> retryable remote options index (attempt + Z.of_nat a) request) ->
  exists s rest,
    retryLoop' n attempt last index request = (s, planFrom k attempt request ++ rest) /\
    verdict index (attempt + Z.of_nat k) request s rest.
Proof.
  induction k as [|k IH]; intros n attempt last index request Hn Hk Hret.
  - destruct n as [|n]; [lia|]. cbn [retryLoop planFrom]. unfold verdict.
    replace (attempt + Z.of_nat 0) with attempt by lia.
    destruct (attemptOnce' index attempt request) as [e|r] eqn:Hatt.
    + destruct (isAbortError e) eqn:Hab.
      * exists (Rejected e), []. cbn. repeat split; done.
      * destruct (retryLoop' n (attempt + 1) e index request) as [s tr] eqn:Hloop.
        exists s. eexists. split; [reflexivity|]. split; [done|].
        intros ->. destruct n as [|n]; [|lia]. cbn in Hloop. inversion Hloop; subst.
        rewrite Z.ltb_irrefl. done.
    + exists (Fulfilled (r, metadataOf request)), []. done.
  - destruct n as [|n]; [lia|]. cbn [retryLoop planFrom].
    destruct (Hret 0%nat) as (e & Hatt & Hab); [lia|].
    replace (attempt + Z.of_nat 0) with attempt in Hatt by lia.
    rewrite Hatt, Hab.
    destruct (IH n (attempt + 1) e index request) as (s & rest & Hloop & Hv).
    + lia.
    + lia.
    + intros a Ha. replace (attempt + 1 + Z.of_nat a) with (attempt + Z.of_nat (S a)) by lia.
      apply Hret. lia.
    + rewrite Hloop. exists s, rest.
      replace (attempt <? retry) with true by (symmetry; apply Z.ltb_lt; lia).
      split; [done|].
      replace (attempt + Z.of_nat (S k)) with (attempt + 1 + Z.of_nat k) by lia. done.
Qed.

Lemma retryLoop_exhausted : forall n attempt last index request,
  Z.of_nat n = Z.max 0 (retry + 1 - attempt) ->
  (forall a, attempt <= a <= retry -> failing remote options index a request) ->
  exists e, fst (retryLoop' n attempt last index request) = Rejected e.
Proof.
  induction n as [|n IH]; intros attempt last index request Hn Hfail.
  - by exists last.
  - cbn [retryLoop]. destruct (Hfail attempt) as [e He]; [lia|]. rewrite He.
    destruct (isAbortError e); [by exists e|].
    destruct (IH (attempt + 1) e index request) as [e' He'].
    + lia.
    + intros a Ha. apply Hfail. lia.
    + exists e'. by destruct (retryLoop' _ _ _ _ _).
Qed.

Lemma retryLoop_metadata : forall n attempt last index request r md,
  fst (retryLoop' n attempt last index request) = Fulfilled (r, md) ->
  md = metadataOf request.
Proof.
  induction n as [|n IH]; intros attempt last index request r md; cbn [retryLoop].
  - done.
  - destruct (attemptOnce' _ _ _) as [e|r'].
    + destruct (isAbortError e); [done|].
      specialize (IH (attempt + 1) e index request r md).
      destruct (retryLoop' _ _ _ _ _). exact IH.
    + cbn. by intros [= _ <-].
Qed.

Local Abbreviation TR := (Concurrency.TaskResult (FileSliceResponse * Metadata) Thrown).

Lemma snippetMapper_promising : Concurrency.promising (snippetMapper remote options).
Proof. intros [request|] i; cbn; eauto. Qed.

(** [forEach] visits every recorded result once; it cannot throw while
    every recorded position has a request. *)
Lemma forEachResult_lookup requests (results : list (option TR)) :
  forall index m0,
  (forall j r, results !! j = Some (Some r) -> is_Some (requests !! (index + j)%nat)) ->
  exists m, forEachResult requests index results m0 = Some m /\
    forall i, m !! i =
      match (if decide (index <= i)%nat then results !! (i - index)%nat else None) with
      | Some (Some r) => snippetOf requests i r
      | _ => m0 !! i
      end.
Proof.
  induction results as [|o results IH]; intros index m0 Hreq; cbn [forEachResult].
  - exists m0. split; [done|]. intros i. destruct (decide _); by rewrite ?lookup_nil.
  - assert (Hreq' : forall j r, results !! j = Some (Some r) ->
              is_Some (requests !! (S index + j)%nat)).
    { intros j r Hj. replace (S index + j)%nat with (index + S j)%nat by lia.
      by apply (Hreq (S j) r). }
    destruct o as [result|].
    + destruct (Hreq 0%nat result) as [request Hrq]; [done|].
      rewrite Nat.add_0_r in Hrq.
      assert (Hsn : is_Some (snippetOf requests index result)).
      { unfold snippetOf. rewrite Hrq.
        destruct (Concurrency.success result), (Concurrency.data result) as [[? ?]|]; eauto. }
      destruct Hsn as [snippet Hsn]. rewrite Hsn. cbn.
      destruct (IH (S index) (<[index := snippet]> m0) Hreq') as (m & Hm & Hlk).
      exists m. split; [done|]. intros i. rewrite Hlk.
      destruct (decide (S index <= i)%nat) as [Hle|Hnle].
      * rewrite decide_True by lia.
        replace (i - index)%nat with (S (i - S index)) by lia. cbn.
        destruct (results !! _) as [[r|]|]; [done|..]; rewrite lookup_insert_ne; done || lia.
      * destruct (decide (index <= i)%nat) as [Hle'|Hnle'].
        -- assert (i = index) as -> by lia. rewrite Nat.sub_diag. cbn.
           by rewrite lookup_insert_eq.
        -- rewrite lookup_insert_ne; done || lia.
    + destruct (IH (S index) m0 Hreq') as (m & Hm & Hlk).
      exists m. split; [done|]. intros i. rewrite Hlk.
      destruct (decide (S index <= i)%nat) as [Hle|Hnle].
      * rewrite decide_True by lia.
        replace (i - index)%nat with (S (i - S index)) by lia. done.
      * destruct (decide (index <= i)%nat) as [Hle'|Hnle']; [|done].
        assert (i = index) as -> by lia. rewrite Nat.sub_diag. done.
Qed.

(** The batch resolves, and position [i] holds the snippet made from
    what the mapper's promise for request [i] settled to. *)
Lemma fetchSnippets_resolves requests sched :
  (length requests <= length sched)%nat ->
  exists m, fetchSnippetsInParallel remote options requests sched = Resolves _ m /\
    (forall i, (length requests <= i)%nat -> m !! i = None) /\
    (forall i request, requests !! i = Some request ->
       m !! i = match fst (fetchWithRetry remote options i request) with
                | Fulfilled (r, _) => Some (successOf request r)
                | Rejected _ => Some failurePlaceholder
                end).
Proof.
  intros Hlen. unfold fetchSnippetsInParallel.
  destruct (ConcurrencyFacts.promising_resolves requests (snippetMapper remote options)
              (Concurrency.mkOptions (Some (maxConcurrentOpt options))) sched
              snippetMapper_promising Hlen)
    as (p & res & Hp & Hres & Hl & Hall & _).
  rewrite Hp, Hres.
  destruct (forEachResult_lookup requests res 0 ∅) as (m & Hm & Hlk).
  { intros j r Hj. cbn. apply lookup_lt_is_Some. rewrite <- Hl. by eapply lookup_lt_Some. }
  rewrite Hm. exists m. split; [done|]. split.
  - intros i Hi. rewrite Hlk. rewrite decide_True by lia. rewrite Nat.sub_0_r.
    rewrite lookup_ge_None_2 by lia. apply lookup_empty.
  - intros i request Hrq. rewrite Hlk. rewrite decide_True by lia. rewrite Nat.sub_0_r.
    apply lookup_lt_Some in Hrq as Hi.
    destruct (Hall i Hi) as (r & Hr & _ & s & Hs & ->). rewrite Hr.
    rewrite Hrq in Hs. cbn in Hs. inversion Hs as [Hs']. clear Hs.
    unfold snippetOf. rewrite Hrq.
    destruct (fst _) as [[sl md]|e] eqn:Hfst; cbn; [|done].
    apply retryLoop_metadata in Hfst as ->. done.
Qed.
End facts.

Import Examples.

(** A service that is down, with two retries: three calls, sleeps of 100
    and 200 ms between them, and the last error. The line range is widened
    by the context margins and clamped to line 1. *)
Example down_after_two_retries :
  fetchWithRetry down retryTwice 0 request2
  = (Rejected (RestError (lit "upstream_error") (lit "HTTP 503 Service Unavailable")),
     [Attempt 0 1 18; Backoff 100; Attempt 1 1 18; Backoff 200; Attempt 2 1 18]).
Proof. by vm_compute. Qed.

Example batch_with_a_failure :
  match fetchSnippetsInParallel failsOnce (mkFetchOptions None None (Some 0) None)
          [request1; request2] [1; 0]%nat with
  | Resolves _ m => (m !! 0%nat, m !! 1%nat, m !! 2%nat)
  | _ => (None, None, None)
  end = (Some failurePlaceholder, Some failurePlaceholder, None).
Proof. by vm_compute. Qed.

Example batch_with_one_retry :
  match fetchSnippetsInParallel failsOnce retryOnce [request1; request2] [1; 0]%nat with
  | Resolves _ m => (m !! 0%nat, m !! 1%nat)
  | _ => (None, None)
  end = (Some (mkSnippet (lit "hello") None (Some 1) (Some 10) (Some 1) (Some 10)),
         Some (mkSnippet (lit "hello") None (Some 1) (Some 18) (Some 2) (Some 15))).
Proof. by vm_compute. Qed.

(** C3, as stated, fails: with one retry allowed, an attempt that runs into
    its time-out is not retried. The mapper makes the single call and
    rejects with the [AbortError]. *)
Lemma timeout_is_not_retried :
  attemptOnce slowFirst retryOnce 0 0 request1 = inl abortError /\
  retryAttemptsOpt retryOnce = 1 /\
  fetchWithRetry slowFirst retryOnce 0 request1 = (Rejected abortError, [Attempt 0 1 10]).
Proof. by vm_compute. Qed.

(** C3, amended. While the attempts fail with errors that are not named
    [AbortError], the mapper goes on up to [retryAttempts] further attempts,
    sleeping [100 * 2^a] ms after the failed attempt [a]; an attempt that
    passes its time-out fails with an [AbortError], and an [AbortError] ends
    the loop at once, as does the last attempt of the budget. *)
Theorem retry_with_backoff remote options index request (k : nat) :
  Z.of_nat k <= retryAttemptsOpt options ->
  (forall a : nat, (a < k)%nat -> retryable remote options index (Z.of_nat a) request) ->
  (exists s rest,
     fetchWithRetry remote options index request = (s, planFrom k 0 request ++ rest) /\
     verdict remote options index (Z.of_nat k) request s rest) /\
  (forall a,
     requestTimeoutMsOpt options < latency (callRemote remote index a request) ->
     attemptOnce remote options index a request = inl abortError) /\
  isAbortError abortError = true.
Proof.
  intros Hk Hret. split; [|split].
  - unfold fetchWithRetry.
    destruct (retryLoop_plan remote options k (Z.to_nat (retryAttemptsOpt options + 1)) 0
                Undefined index request) as (s & rest & Hloop & Hv); [lia|lia|..].
    + intros a Ha. rewrite Z.add_0_l. by apply Hret.
    + rewrite Z.add_0_l in Hv. by exists s, rest.
  - intros a Hlate. unfold attemptOnce. cbn zeta.
    by rewrite (proj2 (Z.ltb_lt _ _) Hlate).
  - done.
Qed.

Lemma retry_with_backoff_witness :
  (exists s rest,
     fetchWithRetry failsOnce retryOnce 0 request1 = (s, planFrom 1 0 request1 ++ rest) /\
     verdict failsOnce retryOnce 0 1 request1 s rest) /\
  (forall a,
     requestTimeoutMsOpt retryOnce < latency (callRemote failsOnce 0 a request1) ->
     attemptOnce failsOnce retryOnce 0 a request1 = inl abortError) /\
  isAbortError abortError = true.
Proof.
  apply (retry_with_backoff failsOnce retryOnce 0%nat request1 1).
  - vm_compute. discriminate.
  - intros a Ha. assert (a = 0%nat) as -> by lia.
    eexists. split; vm_compute; reflexivity.
Defined.

(** C4, at the failing input. The signal of the options is never read: a
    batch whose signal is already aborted makes its first attempt, sleeps
    and retries like any other, and two batches that differ only in their
    signal behave alike. *)
Theorem aborted_signal_is_ignored :
  signal cancelled = Some (mkSignal true) /\
  fetchWithRetry failsOnce cancelled 0 request1
    = (Fulfilled (hello, mkMetadata 1 10 1 10),
       [Attempt 0 1 10; Backoff 100; Attempt 1 1 10]) /\
  (forall remote c t r s1 s2 requests sched,
     fetchSnippetsInParallel remote (mkFetchOptions c t r s1) requests sched
     = fetchSnippetsInParallel remote (mkFetchOptions c t r s2) requests sched).
Proof. split; [done|]. split; [by vm_compute|]. reflexivity. Qed.

(** C5, as stated, fails: a service that fails the first time, by running
    into the time-out, and then succeeds, leaves the failure placeholder
    although one retry is allowed. *)
Lemma timeout_then_success_is_placeholder :
  failing slowFirst retryOnce 0 0 request1 /\
  attemptOnce slowFirst retryOnce 0 1 request1 = inr hello /\
  1 <= retryAttemptsOpt retryOnce /\
  match fetchSnippetsInParallel slowFirst retryOnce [request1] [0%nat] with
  | Resolves _ m => m !! 0%nat
  | _ => None
  end = Some failurePlaceholder.
Proof.
  split; [eexists; by vm_compute|]. split; [by vm_compute|]. split; [by vm_compute|].
  by vm_compute.
Qed.

(** C5, amended. The batch resolves with a map defined exactly at the
    positions of the requests; a position whose mapper rejected holds the
    failure placeholder; a service that fails [k] times with errors not
    named [AbortError] and then succeeds yields the fetched content when
    [k <= retryAttempts]; and a service whose first [k] attempts fail yields
    the placeholder when [retryAttempts < k]. *)
Theorem fetchSnippets_degrades remote options requests sched :
  (length requests <= length sched)%nat ->
  exists m,
    fetchSnippetsInParallel remote options requests sched = Resolves _ m /\
    (forall i, is_Some (m !! i) <-> (i < length requests)%nat) /\
    (forall i request, requests !! i = Some request ->
       (forall e, fst (fetchWithRetry remote options i request) = Rejected e ->
          m !! i = Some failurePlaceholder) /\
       (forall (k : nat) r,
          (forall a : nat, (a < k)%nat -> retryable remote options i (Z.of_nat a) request) ->
          attemptOnce remote options i (Z.of_nat k) request = inr r ->
          Z.of_nat k <= retryAttemptsOpt options ->
          m !! i = Some (successOf request r)) /\
       (forall k : nat,
          (forall a : nat, (a < k)%nat -> failing remote options i (Z.of_nat a) request) ->
          retryAttemptsOpt options < Z.of_nat k ->
          m !! i = Some failurePlaceholder)).
Proof.
  intros Hlen.
  destruct (fetchSnippets_resolves remote options requests sched Hlen) as (m & Hm & Hout & Hin).
  exists m. split; [done|]. split.
  - intros i. split.
    + intros Hs. destruct (decide (i < length requests)%nat); [done|].
      rewrite Hout in Hs by lia. by destruct Hs.
    + intros Hi. destruct (lookup_lt_is_Some_2 _ _ Hi) as [request Hrq].
      rewrite (Hin i request Hrq). by destruct (fst _) as [[? ?]|?].
  - intros i request Hrq. rewrite (Hin i request Hrq). split; [|split].
    + by intros e ->.
    + intros k r Hret Hok Hk.
      destruct (retryLoop_plan remote options k (Z.to_nat (retryAttemptsOpt options + 1)) 0
                  Undefined i request) as (s & rest & Hloop & Hv); [lia|lia|..].
      { intros a Ha. rewrite Z.add_0_l. by apply Hret. }
      unfold fetchWithRetry. rewrite Hloop. cbn.
      unfold SnippetFetcher.verdict in Hv. rewrite Z.add_0_l, Hok in Hv.
      by destruct Hv as [-> _].
    + intros k Hfail Hk.
      destruct (retryLoop_exhausted remote options (Z.to_nat (retryAttemptsOpt options + 1)) 0
                  Undefined i request) as [e He]; [lia| |].
      { intros a Ha. replace a with (Z.of_nat (Z.to_nat a)) by lia. apply Hfail. lia. }
      unfold fetchWithRetry. by rewrite He.
Qed.

Lemma fetchSnippets_degrades_witness :
  exists m,
    fetchSnippetsInParallel failsOnce retryOnce [request1] [0%nat] = Resolves _ m /\
    (forall i, is_Some (m !! i) <-> (i < length [request1])%nat) /\
    (forall i request, [request1] !! i = Some request ->
       (forall e, fst (fetchWithRetry failsOnce retryOnce i request) = Rejected e ->
          m !! i = Some failurePlaceholder) /\
       (forall (k : nat) r,
          (forall a : nat, (a < k)%nat -> retryable failsOnce retryOnce i (Z.of_nat a) request) ->
          attemptOnce failsOnce retryOnce i (Z.of_nat k) request = inr r ->
          Z.of_nat k <= retryAttemptsOpt retryOnce ->
          m !! i = Some (successOf request r)) /\
       (forall k : nat,
          (forall a : nat, (a < k)%nat -> failing failsOnce retryOnce i (Z.of_nat a) request) ->
          retryAttemptsOpt retryOnce < Z.of_nat k ->
          m !! i = Some failurePlaceholder)).
Proof.
  apply (fetchSnippets_degrades failsOnce retryOnce [request1] [0%nat]). cbn. lia.
Defined.
End SnippetFetcherFacts.

(** * Properties of the payload trimming *)
Module PayloadCapFacts.
Import PayloadCap.

Lemma unitBytes_pos u : 1 <= unitBytes u.
Proof. unfold unitBytes. repeat case_match; lia. Qed.

(** Induction two code units at a time, as [quotedBytes] recurses. *)
Lemma jsstring_pair_ind (P : jsstring -> Prop) :
  P [] -> (forall u, P [u]) -> (forall u v s, P s -> P (v :: s) -> P (u :: v :: s)) ->
  forall s, P s.
Proof.
  intros H0 H1 H2 s. assert (H : P s /\ forall u, P (u :: s)); [|tauto].
  induction s as [|v s [IH1 IH2]]; split; auto.
Qed.

Lemma quotedBytes_nonneg s : 0 <= quotedBytes s.
Proof.
  induction s as [|u|u v s IH1 IH2] using jsstring_pair_ind.
  - done.
  - cbn. pose proof (unitBytes_pos u). repeat case_match; lia.
  - cbn [quotedBytes] in *. pose proof (unitBytes_pos u).
    repeat case_match; lia.
Qed.

Lemma jsonString_pos s : 2 <= jsonString s.
Proof. unfold jsonString. pose proof (quotedBytes_nonneg s). lia. Qed.

Lemma quotedBytes_unpaired u v s :
  isLeadSurrogate u && isTrailSurrogate v = false ->
  quotedBytes (u :: v :: s) = quotedBytes [u] + quotedBytes (v :: s).
Proof.
  intros H. remember (v :: s) as t eqn:Ht. cbn [quotedBytes]. subst t.
  destruct (isLeadSurrogate u); cbn in H.
  - rewrite H. lia.
  - destruct (isTrailSurrogate u); lia.
Qed.

(** A cut that separates no surrogate pair does not add bytes. *)
Lemma quotedBytes_take_clean n : forall s,
  splitsPair n s = false -> quotedBytes (take n s) <= quotedBytes s.
Proof.
  induction n as [n IH] using lt_wf_ind. intros s Hclean.
  destruct n as [|n]; [rewrite take_0; apply quotedBytes_nonneg|].
  destruct s as [|u s]; [done|].
  destruct n as [|n].
  - (* one unit kept *)
    destruct s as [|v s]; [done|].
    unfold splitsPair in Hclean. cbn in Hclean.
    pose proof (quotedBytes_nonneg (v :: s)) as Hvs.
    change (take 1 (u :: v :: s)) with [u].
    rewrite (quotedBytes_unpaired u v s Hclean). lia.
  - destruct s as [|v s]; [done|].
    assert (Hs : splitsPair (S n) (v :: s) = false).
    { unfold splitsPair in *. cbn in *. by rewrite Nat.sub_0_r in *. }
    pose proof (IH (S n) ltac:(lia) (v :: s) Hs) as IH1.
    change (take (S (S n)) (u :: v :: s)) with (u :: v :: take n s).
    change (take (S n) (v :: s)) with (v :: take n s) in IH1.
    cbn [quotedBytes] in *.
    destruct (isLeadSurrogate u).
    + destruct (isTrailSurrogate v).
      * assert (Hs2 : splitsPair n s = false).
        { unfold splitsPair in *. destruct n as [|n]; [done|]. cbn in *.
          by rewrite Nat.sub_0_r in *. }
        pose proof (IH n ltac:(lia) s Hs2). lia.
      * lia.
    + destruct (isTrailSurrogate u); lia.
Qed.

Lemma separated_nil : separated [] = 0.
Proof. done. Qed.

Lemma separated_cons x l : separated (x :: l) = x + tailBytes l.
Proof.
  unfold separated, tailBytes. simpl.
  induction l as [|y l IH]; simpl in *; lia.
Qed.

Lemma tailBytes_app a b : tailBytes (a ++ b) = tailBytes a + tailBytes b.
Proof. unfold tailBytes. induction a as [|x a IH]; simpl in *; lia. Qed.

Lemma tailBytes_nonneg l : Forall (fun x => 0 <= x) l -> 0 <= tailBytes l.
Proof. unfold tailBytes. induction 1; simpl in *; lia. Qed.

Lemma separated_nonneg l : Forall (fun x => 0 <= x) l -> 0 <= separated l.
Proof.
  destruct 1 as [|x l Hx Hl]; [done|]. rewrite separated_cons.
  pose proof (tailBytes_nonneg l Hl). lia.
Qed.

Lemma separated_snoc l x :
  separated (l ++ [x]) = separated l + x + (if decide (l = []) then 0 else 1).
Proof.
  destruct l as [|y l]; [unfold separated; simpl; lia|].
  rewrite decide_False by done. change ((y :: l) ++ [x]) with (y :: (l ++ [x])).
  rewrite !separated_cons, tailBytes_app. unfold tailBytes. simpl. lia.
Qed.

Lemma separated_take_le n l :
  Forall (fun x => 0 <= x) l -> separated (take n l) <= separated l.
Proof.
  intros Hl. rewrite <- (take_drop n l) at 2.
  destruct (take n l) as [|x t] eqn:Ht.
  - apply separated_nonneg. by apply Forall_drop.
  - change ((x :: t) ++ drop n l) with (x :: (t ++ drop n l)).
    rewrite !separated_cons, tailBytes_app.
    pose proof (tailBytes_nonneg (drop n l) (Forall_drop _ _ _ Hl)). lia.
Qed.

Lemma separated_insert l i x y :
  l !! i = Some x -> separated (<[i := y]> l) = separated l - x + y.
Proof.
  intros Hi. rewrite <- (take_drop_middle l i x Hi) at 2.
  rewrite insert_take_drop by (by eapply lookup_lt_Some).
  destruct (take i l) as [|z t].
  - cbn [app]. rewrite !separated_cons. lia.
  - change ((z :: t) ++ ?k) with (z :: (t ++ k)).
    rewrite !separated_cons, !tailBytes_app. unfold tailBytes. simpl. lia.
Qed.
End PayloadCapFacts.

Module SearchKnowledgeFacts.
Import PayloadCap PayloadCapFacts SearchKnowledge.

Ltac json_pos :=
  repeat match goal with
    | |- context [jsonString ?s] =>
        lazymatch goal with
        | H : 2 <= jsonString s |- _ => fail
        | _ => pose proof (jsonString_pos s)
        end
    end.

Lemma jsonObject_cons x l : jsonObject (x :: l) = 2 + x + tailBytes l.
Proof. unfold jsonObject. rewrite separated_cons. lia. Qed.

Lemma blockBytes_nonneg b : 0 <= blockBytes b.
Proof.
  destruct b as [t|u m t]; unfold blockBytes, member; rewrite !jsonObject_cons;
    unfold tailBytes; simpl; json_pos; lia.
Qed.

Lemma hitBytes_nonneg h : 0 <= hitBytes h.
Proof.
  unfold hitBytes, member, jsonInteger. rewrite jsonObject_cons. unfold tailBytes. simpl.
  json_pos. lia.
Qed.

Lemma blocks_nonneg (l : list Block) : Forall (fun x => 0 <= x) (blockBytes <$> l).
Proof. apply Forall_fmap, Forall_forall. intros b _. apply blockBytes_nonneg. Qed.

Lemma hits_nonneg (l : list MetaHit) : Forall (fun x => 0 <= x) (hitBytes <$> l).
Proof. apply Forall_fmap, Forall_forall. intros b _. apply hitBytes_nonneg. Qed.

(** The size as a sum: the blocks, the hits, the [complete] member, and
    what trimming never touches. *)
Lemma jsonSizeBytes_sum r :
  jsonSizeBytes r =
    separated (blockBytes <$> content r) + separated (hitBytes <$> hits (_meta r))
    + flagBytes (complete (_meta r)) + restBytes (isError r) (_meta r).
Proof.
  unfold restBytes, jsonSizeBytes, metaBytes, jsonArray, member.
  rewrite !jsonObject_cons. cbn [app].
  rewrite !jsonObject_cons, !tailBytes_app.
  cbn [hits cursor estimated_total complete warnings model top_k mcp_latency_ms
       content isError _meta fmap list_fmap option_fmap option_map].
  rewrite separated_nil.
  destruct (complete (_meta r)) as [[|]|]; unfold optionalMember, tailBytes; simpl;
    unfold member; simpl; lia.
Qed.

Lemma setContent_id r : setContent (content r) r = r.
Proof. by destruct r. Qed.

Lemma withPrompt_id t r : content r !! 1%nat = Some (TextContent t) -> withPrompt t r = r.
Proof.
  intros H. unfold withPrompt. rewrite list_insert_id by done. apply setContent_id.
Qed.

Lemma withPrompt_again t t' r : withPrompt t' (withPrompt t r) = withPrompt t' r.
Proof. unfold withPrompt, setContent. cbn. by rewrite list_insert_insert_eq. Qed.

Lemma cut90_shorter t : t <> [] -> (length (cut90 t) < length t)%nat.
Proof.
  intros Ht. unfold cut90, slice0. rewrite length_take.
  assert (0 < length t)%nat by (destruct t; [done | cbn; lia]).
  assert (9 * Z.of_nat (length t) / 10 < Z.of_nat (length t))
    by (apply Z.div_lt_upper_bound; lia).
  lia.
Qed.

Lemma capText_short c u m txt :
  (length txt <= c)%nat -> capText c (ResourceBlock u m txt) = ResourceBlock u m txt.
Proof. intros H. unfold capText, slice0. by rewrite take_ge. Qed.

Lemma capped_0 c r : capped c 0 r = r.
Proof. unfold capped. rewrite take_0, drop_0. cbn. apply setContent_id. Qed.

Lemma capped_lookup c k r : content (capped c k r) !! k = content r !! k.
Proof.
  unfold capped, setContent. cbn [content].
  destruct (decide (k < length (content r))%nat) as [Hlt|Hge].
  - rewrite lookup_app_r; rewrite length_fmap, length_take; [|lia].
    replace (k - k `min` length (content r))%nat with 0%nat by lia.
    rewrite lookup_drop. f_equal. lia.
  - rewrite !lookup_ge_None_2; [done|lia|].
    rewrite length_app, length_fmap, length_take, length_drop. lia.
Qed.

(** Capping one more block is a write at its index. *)
Lemma capped_S c k r b :
  content r !! k = Some b ->
  capped c (S k) r = setContent (<[k := capText c b]> (content (capped c k r))) (capped c k r).
Proof.
  intros Hk. unfold capped, setContent. cbn [content isError _meta]. f_equal.
  apply lookup_lt_Some in Hk as Hlt.
  rewrite (take_S_r _ _ _ Hk), fmap_app, <- app_assoc. cbn [fmap list_fmap app].
  rewrite (drop_S _ _ _ Hk).
  rewrite insert_app_r_alt; rewrite length_fmap, length_take; [|lia].
  replace (k - k `min` length (content r))%nat with 0%nat by lia. done.
Qed.

Lemma capped_S_same c k r b :
  content r !! k = Some b -> capText c b = b -> capped c (S k) r = capped c k r.
Proof.
  intros Hk Hb. rewrite (capped_S c k r b Hk), Hb.
  rewrite list_insert_id by (by rewrite capped_lookup). apply setContent_id.
Qed.

Lemma capped_ge c k r : (length (content r) <= k)%nat -> capped c k r = capped c (length (content r)) r.
Proof. intros H. unfold capped. by rewrite !take_ge, !drop_ge by lia. Qed.

Lemma blanked_content_lookup lo hi r j :
  content (blanked lo hi r) !! j
    = (fun b => if bool_decide (lo <= j < hi)%nat then blank b else b) <$> content r !! j.
Proof. unfold blanked, setContent. cbn [content]. apply list_lookup_imap. Qed.

Lemma blanked_length lo hi r : length (content (blanked lo hi r)) = length (content r).
Proof. unfold blanked, setContent. cbn [content]. apply length_imap. Qed.

Lemma blanked_fields lo hi r :
  isError (blanked lo hi r) = isError r /\ _meta (blanked lo hi r) = _meta r.
Proof. done. Qed.

Lemma result_eq r r' :
  content r = content r' -> isError r = isError r' -> _meta r = _meta r' -> r = r'.
Proof. destruct r, r'; cbn; congruence. Qed.

Lemma blanked_empty lo r : blanked lo lo r = r.
Proof.
  apply result_eq; try done. apply list_eq. intros j.
  rewrite blanked_content_lookup. rewrite bool_decide_eq_false_2 by lia.
  by destruct (content r !! j).
Qed.

(** Emptying one more block, below the emptied range, is a write at its
    index. *)
Lemma blanked_S lo hi r b :
  (lo < hi)%nat -> content r !! lo = Some b ->
  blanked lo hi r
    = setContent (<[lo := blank b]> (content (blanked (S lo) hi r))) (blanked (S lo) hi r).
Proof.
  intros Hlt Hb. apply result_eq; try done. cbn [content setContent].
  apply list_eq. intros j. rewrite blanked_content_lookup.
  destruct (decide (j = lo)) as [->|Hne].
  - rewrite list_lookup_insert_eq by (rewrite blanked_length; by eapply lookup_lt_Some).
    rewrite Hb. cbn. by rewrite bool_decide_eq_true_2 by lia.
  - rewrite list_lookup_insert_ne by done. rewrite blanked_content_lookup.
    destruct (content r !! j) as [b'|]; [|done]. cbn. f_equal.
    destruct (decide (lo <= j < hi)%nat).
    + by rewrite !bool_decide_eq_true_2 by lia.
    + by rewrite !bool_decide_eq_false_2 by lia.
Qed.

Lemma blanked_S_same lo hi r :
  (forall b, content r !! lo = Some b -> blank b = b) ->
  blanked lo hi r = blanked (S lo) hi r.
Proof.
  intros Hb. apply result_eq; try done. apply list_eq. intros j.
  rewrite !blanked_content_lookup.
  destruct (content r !! j) as [b'|] eqn:Hj; [|done]. cbn. f_equal.
  destruct (decide (j = lo)) as [->|Hne].
  - rewrite (Hb b' Hj). by repeat case_bool_decide.
  - destruct (decide (lo <= j < hi)%nat).
    + by rewrite !bool_decide_eq_true_2 by lia.
    + by rewrite !bool_decide_eq_false_2 by lia.
Qed.

Lemma pop_take {A} (l : list A) a : (a <= length l)%nat -> pop (take a l) = take (a - 1) l.
Proof.
  intros Ha. unfold pop. rewrite length_take, take_take. f_equal. lia.
Qed.

Lemma dropped_0 r : dropped 0 r = r.
Proof.
  unfold dropped. rewrite !Nat.sub_0_r, !firstn_all. destruct r as [c e m]. cbn.
  by destruct m.
Qed.

Lemma dropLast_dropped d r : dropLast (dropped d r) = dropped (S d) r.
Proof.
  unfold dropLast, dropped, setHits. cbn [content isError _meta hits cursor estimated_total
    complete warnings model top_k mcp_latency_ms].
  rewrite !pop_take by lia.
  by replace (length (content r) - d - 1)%nat with (length (content r) - S d)%nat by lia;
     replace (length (hits (_meta r)) - d - 1)%nat
       with (length (hits (_meta r)) - S d)%nat by lia.
Qed.

Lemma dropped_length d r : length (content (dropped d r)) = (length (content r) - d)%nat.
Proof. unfold dropped. cbn [content]. rewrite length_take. lia. Qed.

Lemma capped_content_lookup c k r j :
  content (capped c k r) !! j
    = (fun b => if bool_decide (j < k)%nat then capText c b else b) <$> content r !! j.
Proof.
  unfold capped, setContent. cbn [content].
  destruct (decide (j < k)%nat) as [Hlt|Hge].
  - rewrite bool_decide_eq_true_2 by done.
    destruct (decide (j < length (content r))%nat) as [Hj|Hj].
    + rewrite lookup_app_l by (rewrite length_fmap, length_take; lia).
      by rewrite list_lookup_fmap, lookup_take_lt.
    + rewrite !lookup_ge_None_2; [done|lia|].
      rewrite length_app, length_fmap, length_take, length_drop. lia.
  - rewrite bool_decide_eq_false_2 by done.
    destruct (decide (k <= length (content r))%nat) as [Hk|Hk].
    + rewrite lookup_app_r; rewrite length_fmap, length_take; [|lia].
      rewrite lookup_drop. replace (k + (j - k `min` length (content r)))%nat with j by lia.
      by destruct (content r !! j).
    + rewrite !lookup_ge_None_2; [done|lia|].
      rewrite length_app, length_fmap, length_take, length_drop. lia.
Qed.

Lemma capped_length c k r : length (content (capped c k r)) = length (content r).
Proof.
  unfold capped, setContent. cbn [content].
  rewrite length_app, length_fmap, length_take, length_drop. lia.
Qed.

Lemma reshaped_refl r : reshaped r r.
Proof. by split. Qed.

Lemma reshaped_trans r1 r2 r3 : reshaped r1 r2 -> reshaped r2 r3 -> reshaped r1 r3.
Proof.
  intros [L1 R1 T1 E1 M1] [L2 R2 T2 E2 M2]. split.
  - by rewrite L2.
  - intros j. by rewrite R2, R1.
  - intros j s Hj Hs. apply T2; [done|]. by apply T1.
  - by rewrite E2.
  - by rewrite M2.
Qed.

Lemma reshaped_withPrompt t t' r :
  content r !! 1%nat = Some (TextContent t) -> reshaped r (withPrompt t' r).
Proof.
  intros Ht. apply lookup_lt_Some in Ht as Hlt.
  split; unfold withPrompt, setContent; cbn [content isError _meta]; try done.
  - apply length_insert.
  - intros j. destruct (decide (j = 1%nat)) as [->|Hne].
    + rewrite list_lookup_insert_eq by done. by rewrite Ht.
    + by rewrite list_lookup_insert_ne.
  - intros j s Hj Hs. by rewrite list_lookup_insert_ne.
Qed.

Lemma reshaped_capped c k r : reshaped r (capped c k r).
Proof.
  split; try done.
  - apply capped_length.
  - intros j. rewrite capped_content_lookup.
    destruct (content r !! j) as [b|]; [|done]. cbn.
    case_bool_decide; [|done]. by destruct b.
  - intros j s _ Hs. rewrite capped_content_lookup, Hs. cbn. by case_bool_decide.
Qed.

Lemma reshaped_blanked lo hi r : reshaped r (blanked lo hi r).
Proof.
  split; try done.
  - apply blanked_length.
  - intros j. rewrite blanked_content_lookup.
    destruct (content r !! j) as [b|]; [|done]. cbn.
    case_bool_decide; [|done]. by destruct b.
  - intros j s _ Hs. rewrite blanked_content_lookup, Hs. cbn. by case_bool_decide.
Qed.

(** *** How the size moves *)

Lemma size_insert r i b b' :
  content r !! i = Some b ->
  jsonSizeBytes (setContent (<[i := b']> (content r)) r)
    = jsonSizeBytes r - blockBytes b + blockBytes b'.
Proof.
  intros Hb. rewrite !jsonSizeBytes_sum. unfold setContent. cbn [content isError _meta].
  rewrite list_fmap_insert.
  rewrite (separated_insert _ i (blockBytes b)) by (by rewrite list_lookup_fmap, Hb). lia.
Qed.

Lemma jsonString_text : jsonString (lit "text") = 6.
Proof. by vm_compute. Qed.

Lemma jsonString_resource : jsonString (lit "resource") = 10.
Proof. by vm_compute. Qed.

Lemma blockBytes_text t : blockBytes (TextContent t) = 25 + quotedBytes t.
Proof.
  unfold blockBytes, member. rewrite jsonObject_cons, jsonString_text.
  unfold tailBytes, jsonString. simpl. lia.
Qed.

Lemma blockBytes_resource u m t :
  blockBytes (ResourceBlock u m t) = blockBytes (ResourceBlock u m []) + quotedBytes t.
Proof.
  unfold blockBytes, member. rewrite !jsonObject_cons, jsonString_resource.
  unfold tailBytes, jsonString. simpl. lia.
Qed.

Lemma blockBytes_min b : 25 <= blockBytes b.
Proof.
  destruct b as [t|u m t].
  - rewrite blockBytes_text. pose proof (quotedBytes_nonneg t). lia.
  - unfold blockBytes, member. rewrite !jsonObject_cons, jsonString_resource.
    unfold tailBytes, jsonString. simpl.
    pose proof (quotedBytes_nonneg t). pose proof (quotedBytes_nonneg u).
    pose proof (quotedBytes_nonneg m). lia.
Qed.

Lemma blockBytes_blank b : blockBytes (blank b) <= blockBytes b.
Proof.
  destruct b as [t|u m t]; [done|]. cbn [blank].
  rewrite (blockBytes_resource u m t). pose proof (quotedBytes_nonneg t). lia.
Qed.

Lemma blockBytes_capText c b :
  match b with
  | ResourceBlock _ _ txt => splitsPair c txt = false
  | TextContent _ => True
  end -> blockBytes (capText c b) <= blockBytes b.
Proof.
  destruct b as [t|u m t]; [done|]. intros Hclean. cbn [capText].
  rewrite (blockBytes_resource u m t), (blockBytes_resource u m (slice0 c t)).
  pose proof (quotedBytes_take_clean c t Hclean). unfold slice0. lia.
Qed.

Lemma size_withPrompt r t t' :
  content r !! 1%nat = Some (TextContent t) ->
  jsonSizeBytes (withPrompt t' r) = jsonSizeBytes r - quotedBytes t + quotedBytes t'.
Proof.
  intros Ht. unfold withPrompt. rewrite (size_insert r 1 _ _ Ht), !blockBytes_text. lia.
Qed.

Lemma size_capped_le c r : cleanCut c r -> forall k, jsonSizeBytes (capped c k r) <= jsonSizeBytes r.
Proof.
  intros Hclean. induction k as [|k IH]; [by rewrite capped_0|].
  destruct (content r !! k) as [b|] eqn:Hb.
  - rewrite (capped_S c k r b Hb).
    rewrite (size_insert (capped c k r) k b) by (by rewrite capped_lookup).
    unfold cleanCut in Hclean. rewrite Forall_lookup in Hclean.
    pose proof (blockBytes_capText c b (Hclean k b Hb)). lia.
  - apply lookup_ge_None in Hb.
    rewrite (capped_ge c (S k)) by lia. by rewrite <- (capped_ge c k) by lia.
Qed.

Lemma size_blanked_le r hi : forall n lo,
  (hi - lo <= n)%nat -> jsonSizeBytes (blanked lo hi r) <= jsonSizeBytes r.
Proof.
  induction n as [|n IH]; intros lo Hn.
  - assert (Heq : blanked lo hi r = r); [|by rewrite Heq].
    apply result_eq; try done. apply list_eq. intros j.
    rewrite blanked_content_lookup. rewrite bool_decide_eq_false_2 by lia.
    by destruct (content r !! j).
  - destruct (decide (lo < hi)%nat) as [Hlt|Hge]; [|apply (IH lo); lia].
    pose proof (IH (S lo) ltac:(lia)) as IH'.
    destruct (content r !! lo) as [b|] eqn:Hb.
    + rewrite (blanked_S lo hi r b Hlt Hb).
      rewrite (size_insert (blanked (S lo) hi r) lo b).
      * pose proof (blockBytes_blank b). lia.
      * rewrite blanked_content_lookup, Hb. cbn. by rewrite bool_decide_eq_false_2 by lia.
    + rewrite (blanked_S_same lo hi r); [done|]. intros b. by rewrite Hb.
Qed.

Lemma size_dropped_le d r : jsonSizeBytes (dropped d r) <= jsonSizeBytes r.
Proof.
  rewrite !jsonSizeBytes_sum. unfold dropped, setHits.
  cbn [content isError _meta hits complete].
  rewrite !fmap_take.
  pose proof (separated_take_le (length (content r) - d) _ (blocks_nonneg (content r))).
  pose proof (separated_take_le (length (hits (_meta r)) - d) _ (hits_nonneg (hits (_meta r)))).
  unfold restBytes. cbn [cursor estimated_total warnings model top_k mcp_latency_ms]. lia.
Qed.

(** A round that removes a block removes at least its 25 bytes and its
    comma. *)
Lemma size_dropped_one d r :
  (0 < d)%nat -> (1 < length (content r))%nat ->
  jsonSizeBytes (dropped d r) <= jsonSizeBytes r - 26.
Proof.
  intros Hd Hlen. rewrite !jsonSizeBytes_sum. unfold dropped, setHits.
  cbn [content isError _meta hits complete]. rewrite !fmap_take.
  pose proof (separated_take_le (length (hits (_meta r)) - d) _ (hits_nonneg (hits (_meta r)))).
  assert (Hc : separated (take (length (content r) - d) (blockBytes <$> content r))
               <= separated (blockBytes <$> content r) - 26).
  { destruct (content r) as [|b l] eqn:Hl using rev_ind; [cbn in Hlen; lia|].
    clear IHl. rewrite length_app in *. cbn [length] in *.
    rewrite fmap_app. cbn [fmap list_fmap]. rewrite separated_snoc.
    rewrite decide_False by (destruct l; [cbn in Hlen; lia|done]).
    rewrite take_app_le by (rewrite length_fmap; lia).
    pose proof (separated_take_le (length l + 1 - d) _ (blocks_nonneg l)).
    pose proof (blockBytes_min b). lia. }
  unfold restBytes. cbn [cursor estimated_total warnings model top_k mcp_latency_ms]. lia.
Qed.

Lemma size_markPartial c e m :
  jsonSizeBytes (mkResult c e (markPartial m))
    = jsonSizeBytes (mkResult c e m) - flagBytes (complete m) + 17.
Proof.
  rewrite !jsonSizeBytes_sum. unfold markPartial, restBytes.
  cbn [content isError _meta hits complete cursor estimated_total warnings model top_k
       mcp_latency_ms flagBytes]. lia.
Qed.

Lemma flagBytes_range flag : 0 <= flagBytes flag <= 17.
Proof. destruct flag as [[|]|]; cbn; lia. Qed.

(** Nothing that keeps the first block, the flag and the untouched
    metadata is smaller than the skeleton. *)
Lemma skeleton_le r r' b :
  content r !! 0%nat = Some b -> content r' !! 0%nat = Some b ->
  isError r' = isError r ->
  (exists hs, _meta r' = setHits hs (_meta r)) ->
  jsonSizeBytes (skeleton r) <= jsonSizeBytes r'.
Proof.
  intros Hb Hb' He [hs Hm]. rewrite !jsonSizeBytes_sum. unfold skeleton.
  cbn [content isError _meta]. rewrite Hm, He. unfold setHits, restBytes.
  cbn [hits complete cursor estimated_total warnings model top_k mcp_latency_ms].
  destruct (content r) as [|b0 l]; [done|]. destruct (content r') as [|b0' l']; [done|].
  cbn in Hb, Hb'. inversion Hb; inversion Hb'; subst.
  change (take 1 (b :: l)) with [b].
  cbn [fmap list_fmap]. rewrite !separated_cons, separated_nil.
  pose proof (tailBytes_nonneg _ (blocks_nonneg l')).
  pose proof (separated_nonneg _ (hits_nonneg hs)).
  unfold tailBytes at 1. simpl. lia.
Qed.

Section stages.
Variable capBytes : Z.
Variables shrunkCap minFloor : nat.

Local Abbreviation promptLoop := (promptLoop capBytes).
Local Abbreviation stage1 := (stage1 capBytes).

Lemma promptLoop_spec n : forall t r,
  (length t <= n)%nat ->
  exists m,
    promptLoop n t (withPrompt t r, jsonSizeBytes (withPrompt t r))
      = (withPrompt (Nat.iter m cut90 t) r,
         jsonSizeBytes (withPrompt (Nat.iter m cut90 t) r)) /\
    (Nat.iter m cut90 t = [] \/
     jsonSizeBytes (withPrompt (Nat.iter m cut90 t) r) <= capBytes) /\
    (forall j, (j < m)%nat ->
       Nat.iter j cut90 t <> [] /\
       capBytes < jsonSizeBytes (withPrompt (Nat.iter j cut90 t) r)).
Proof.
  induction n as [|n IH]; intros t r Hn.
  - exists 0%nat. cbn. split; [done|]. split; [|intros; lia].
    left. apply nil_length_inv. lia.
  - cbn [SearchKnowledge.promptLoop fst snd].
    destruct (bool_decide (0 < length t)%nat) eqn:Hlen; cbn [andb].
    + destruct (capBytes <? _) eqn:Hcap.
      * apply bool_decide_eq_true in Hlen. apply Z.ltb_lt in Hcap.
        assert (Ht : t <> []) by (intros ->; cbn in Hlen; lia).
        fold (withPrompt (cut90 t) (withPrompt t r)). rewrite withPrompt_again.
        destruct (IH (cut90 t) r) as (m & Hm & Hexit & Hmin).
        { pose proof (cut90_shorter t Ht). lia. }
        exists (S m). rewrite Nat.iter_succ_r. split; [exact Hm|]. split; [exact Hexit|].
        intros [|j] Hj; [done|]. rewrite Nat.iter_succ_r. apply Hmin. lia.
      * apply Z.ltb_ge in Hcap. exists 0%nat. cbn. split; [done|].
        split; [by right|intros; lia].
    + apply bool_decide_eq_false in Hlen. exists 0%nat. cbn. split; [done|].
      split; [|intros; lia]. left. apply nil_length_inv. lia.
Qed.

(** Step 1 ends with the prompt text cut [m] times to nine tenths, where
    [m] is the first number of cuts after which the text is empty or the
    size fits. *)
Lemma stage1_spec r t :
  content r !! 1%nat = Some (TextContent t) -> capBytes < jsonSizeBytes r ->
  exists m,
    stage1 (r, jsonSizeBytes r)
      = (withPrompt (Nat.iter m cut90 t) r,
         jsonSizeBytes (withPrompt (Nat.iter m cut90 t) r)) /\
    (Nat.iter m cut90 t = [] \/
     jsonSizeBytes (withPrompt (Nat.iter m cut90 t) r) <= capBytes) /\
    (forall j, (j < m)%nat ->
       Nat.iter j cut90 t <> [] /\
       capBytes < jsonSizeBytes (withPrompt (Nat.iter j cut90 t) r)).
Proof.
  intros Ht Hcap. unfold SearchKnowledge.stage1. cbn [fst snd].
  rewrite (proj2 (Z.ltb_lt _ _) Hcap), Ht.
  pose proof (promptLoop_spec (length t) t r (Nat.le_refl _)) as Hloop.
  by rewrite (withPrompt_id t r Ht) in Hloop.
Qed.

Local Abbreviation shrinkStep := (shrinkStep capBytes).
Local Abbreviation shrinkPass := (shrinkPass capBytes).

Lemma shrinkStep_fits c st i : st.2 <= capBytes -> shrinkStep c st i = st.
Proof. intros H. unfold SearchKnowledge.shrinkStep. by rewrite (proj2 (Z.ltb_ge _ _) H). Qed.

Lemma shrinkFold_fits c st l : st.2 <= capBytes -> foldl (shrinkStep c) st l = st.
Proof.
  intros H. induction l as [|i l IH]; [done|]. cbn [foldl]. by rewrite shrinkStep_fits.
Qed.

Lemma shrinkStep_capped c k r :
  (k < length (content r))%nat -> capBytes < jsonSizeBytes (capped c k r) ->
  shrinkStep c (capped c k r, jsonSizeBytes (capped c k r)) k
    = (capped c (S k) r, jsonSizeBytes (capped c (S k) r)).
Proof.
  intros Hk Hcap. unfold SearchKnowledge.shrinkStep. cbn [fst snd].
  rewrite (proj2 (Z.ltb_lt _ _) Hcap), capped_lookup.
  destruct (lookup_lt_is_Some_2 _ _ Hk) as [b Hb]. rewrite Hb.
  destruct b as [t|u m txt].
  - by rewrite (capped_S_same c k r _ Hb).
  - destruct (bool_decide (c < length txt)%nat) eqn:Hlong.
    + by rewrite (capped_S c k r _ Hb).
    + apply bool_decide_eq_false in Hlong.
      rewrite (capped_S_same c k r _ Hb); [done|]. apply capText_short. lia.
Qed.

Lemma shrinkFold_spec c r n : forall k0,
  (k0 + n = length (content r))%nat ->
  exists k, (k0 <= k <= k0 + n)%nat /\
    foldl (shrinkStep c) (capped c k0 r, jsonSizeBytes (capped c k0 r)) (seq k0 n)
      = (capped c k r, jsonSizeBytes (capped c k r)) /\
    (k = (k0 + n)%nat \/ jsonSizeBytes (capped c k r) <= capBytes) /\
    (forall j, (k0 <= j < k)%nat -> capBytes < jsonSizeBytes (capped c j r)).
Proof.
  induction n as [|n IH]; intros k0 Hlen.
  - exists k0. cbn. split; [lia|]. split; [done|]. split; [left; lia|intros; lia].
  - cbn [seq foldl].
    destruct (decide (capBytes < jsonSizeBytes (capped c k0 r))) as [Hcap|Hfit].
    + rewrite shrinkStep_capped by (done || lia).
      destruct (IH (S k0)) as (k & Hk & Hfold & Hexit & Hmin); [lia|].
      exists k. split; [lia|]. split; [done|]. split; [destruct Hexit; [left; lia|by right]|].
      intros j Hj. destruct (decide (j = k0)) as [->|]; [done|]. apply Hmin. lia.
    + rewrite shrinkStep_fits by (cbn [snd]; lia). rewrite shrinkFold_fits by (cbn [snd]; lia).
      exists k0. split; [lia|]. split; [done|]. split; [right; lia|intros; lia].
Qed.

(** A pass of step 2 caps the resource texts of the first [k] blocks,
    where [k] is the first index at which the size fits, or the number of
    blocks. *)
Lemma shrinkPass_spec c r :
  exists k, (k <= length (content r))%nat /\
    shrinkPass c (r, jsonSizeBytes r) = (capped c k r, jsonSizeBytes (capped c k r)) /\
    (k = length (content r) \/ jsonSizeBytes (capped c k r) <= capBytes) /\
    (forall j, (j < k)%nat -> capBytes < jsonSizeBytes (capped c j r)).
Proof.
  destruct (shrinkFold_spec c r (length (content r)) 0) as (k & Hk & Hfold & Hexit & Hmin);
    [done|].
  rewrite capped_0 in Hfold. exists k. split; [lia|]. split; [exact Hfold|].
  split; [exact Hexit|]. intros j Hj. apply Hmin. lia.
Qed.

Local Abbreviation blankStep := (blankStep capBytes).
Local Abbreviation stage3 := (stage3 capBytes).
Local Abbreviation dropLoop := (dropLoop capBytes).

Lemma blankStep_fits st i : st.2 <= capBytes -> blankStep st i = st.
Proof. intros H. unfold SearchKnowledge.blankStep. by rewrite (proj2 (Z.ltb_ge _ _) H). Qed.

Lemma blankFold_fits st l : st.2 <= capBytes -> foldl blankStep st l = st.
Proof.
  intros H. induction l as [|i l IH]; [done|]. cbn [foldl]. by rewrite blankStep_fits.
Qed.

Lemma blankStep_blanked i hi r :
  (i + 2 < hi)%nat -> capBytes < jsonSizeBytes (blanked (i + 3) hi r) ->
  blankStep (blanked (i + 3) hi r, jsonSizeBytes (blanked (i + 3) hi r)) i
    = (blanked (i + 2) hi r, jsonSizeBytes (blanked (i + 2) hi r)).
Proof.
  intros Hi Hcap. unfold SearchKnowledge.blankStep. cbn [fst snd].
  rewrite (proj2 (Z.ltb_lt _ _) Hcap), blanked_content_lookup.
  rewrite bool_decide_eq_false_2 by lia.
  replace (i + 3)%nat with (S (i + 2)) by lia.
  destruct (content r !! (i + 2)%nat) as [[t|u m txt]|] eqn:Hb; cbn [fmap option_fmap option_map].
  - rewrite (blanked_S_same (i + 2) hi r); [done|]. intros b. rewrite Hb. by intros [= <-].
  - by rewrite (blanked_S (i + 2) hi r _ Hi Hb).
  - rewrite (blanked_S_same (i + 2) hi r); [done|]. intros b. by rewrite Hb.
Qed.

Lemma blankFold_spec r h : forall n,
  (n <= h)%nat ->
  exists k, (k <= n)%nat /\
    foldl blankStep (blanked (n + 2) (h + 2) r, jsonSizeBytes (blanked (n + 2) (h + 2) r))
          (reverse (seq 0 n))
      = (blanked (k + 2) (h + 2) r, jsonSizeBytes (blanked (k + 2) (h + 2) r)) /\
    (k = 0%nat \/ jsonSizeBytes (blanked (k + 2) (h + 2) r) <= capBytes) /\
    (forall j, (k < j <= n)%nat -> capBytes < jsonSizeBytes (blanked (j + 2) (h + 2) r)).
Proof.
  induction n as [|n IH]; intros Hn.
  - exists 0%nat. cbn. split; [lia|]. split; [done|]. split; [by left|intros; lia].
  - rewrite seq_S, reverse_snoc, Nat.add_0_l. cbn [foldl].
    destruct (decide (capBytes < jsonSizeBytes (blanked (S n + 2) (h + 2) r))) as [Hcap|Hfit].
    + replace (S n + 2)%nat with (n + 3)%nat in * by lia.
      rewrite blankStep_blanked by (done || lia).
      destruct IH as (k & Hk & Hfold & Hexit & Hmin); [lia|].
      exists k. split; [lia|]. split; [done|]. split; [done|].
      intros j Hj. destruct (decide (j = S n)) as [->|].
      * by replace (S n + 2)%nat with (n + 3)%nat by lia.
      * apply Hmin. lia.
    + rewrite blankStep_fits by (cbn [snd]; lia). rewrite blankFold_fits by (cbn [snd]; lia).
      exists (S n). split; [lia|]. split; [done|]. split; [right; lia|intros; lia].
Qed.

(** Step 3 empties the resource texts of the hits [k], ..., [h - 1], where
    [k] is the first hit, counting down, at which the size fits, or 0. *)
Lemma stage3_spec h r :
  capBytes < jsonSizeBytes r ->
  exists k, (k <= h)%nat /\
    stage3 h (r, jsonSizeBytes r)
      = (blanked (k + 2) (h + 2) r, jsonSizeBytes (blanked (k + 2) (h + 2) r)) /\
    (k = 0%nat \/ jsonSizeBytes (blanked (k + 2) (h + 2) r) <= capBytes) /\
    (forall j, (k < j <= h)%nat -> capBytes < jsonSizeBytes (blanked (j + 2) (h + 2) r)).
Proof.
  intros Hcap. unfold SearchKnowledge.stage3. cbn [fst snd].
  rewrite (proj2 (Z.ltb_lt _ _) Hcap).
  destruct (blankFold_spec r h h) as (k & Hk & Hfold & Hexit & Hmin); [done|].
  rewrite blanked_empty in Hfold. by exists k.
Qed.

Lemma dropLoop_spec r n : forall d0,
  (length (content r) - d0 <= S n)%nat ->
  exists d, (d0 <= d)%nat /\
    dropLoop n (dropped d0 r, jsonSizeBytes (dropped d0 r))
      = (dropped d r, jsonSizeBytes (dropped d r)) /\
    ((length (content (dropped d r)) <= 1)%nat \/ jsonSizeBytes (dropped d r) <= capBytes) /\
    (forall j, (d0 <= j < d)%nat ->
       (1 < length (content (dropped j r)))%nat /\ capBytes < jsonSizeBytes (dropped j r)).
Proof.
  induction n as [|n IH]; intros d0 Hlen.
  - exists d0. cbn [SearchKnowledge.dropLoop]. split; [lia|]. split; [done|].
    split; [|intros; lia]. left. rewrite dropped_length. lia.
  - cbn [SearchKnowledge.dropLoop fst snd].
    destruct (bool_decide (1 < length (content (dropped d0 r)))%nat) eqn:Hmany; cbn [andb].
    + destruct (capBytes <? _) eqn:Hcap.
      * apply bool_decide_eq_true in Hmany. apply Z.ltb_lt in Hcap.
        rewrite dropLast_dropped.
        destruct (IH (S d0)) as (d & Hd & Hloop & Hexit & Hmin); [lia|].
        exists d. split; [lia|]. split; [done|]. split; [done|].
        intros j Hj. destruct (decide (j = d0)) as [->|]; [done|]. apply Hmin. lia.
      * apply Z.ltb_ge in Hcap. exists d0. split; [lia|]. split; [done|].
        split; [by right|intros; lia].
    + apply bool_decide_eq_false in Hmany. exists d0. split; [lia|]. split; [done|].
      split; [left; lia|intros; lia].
Qed.

Local Abbreviation stage2 := (stage2 capBytes shrunkCap minFloor).
Local Abbreviation stage4 := (stage4 capBytes).
Local Abbreviation trim := (trim capBytes shrunkCap minFloor).

(** Each of the first three steps keeps [size] in step with the result
    and changes texts only. *)
Lemma stage1_sound st : synced st -> synced (stage1 st) /\ reshaped st.1 (stage1 st).1.
Proof.
  destruct st as [r z]. unfold synced. cbn [fst snd]. intros ->.
  destruct (decide (capBytes < jsonSizeBytes r)) as [Hcap|Hfit].
  - destruct (content r !! 1%nat) as [[t|u m txt]|] eqn:Hb.
    + destruct (stage1_spec r t Hb Hcap) as (m & -> & _). cbn [fst snd].
      split; [done|]. by eapply reshaped_withPrompt.
    + unfold SearchKnowledge.stage1. cbn [fst snd].
      rewrite (proj2 (Z.ltb_lt _ _) Hcap), Hb. split; [done|apply reshaped_refl].
    + unfold SearchKnowledge.stage1. cbn [fst snd].
      rewrite (proj2 (Z.ltb_lt _ _) Hcap), Hb. split; [done|apply reshaped_refl].
  - unfold SearchKnowledge.stage1. cbn [fst snd].
    assert (Hge : jsonSizeBytes r <= capBytes) by lia.
    rewrite (proj2 (Z.ltb_ge _ _) Hge). split; [done|apply reshaped_refl].
Qed.

Lemma shrinkPass_sound c st :
  synced st -> synced (shrinkPass c st) /\ reshaped st.1 (shrinkPass c st).1.
Proof.
  destruct st as [r z]. unfold synced. cbn [fst snd]. intros ->.
  destruct (shrinkPass_spec c r) as (k & _ & -> & _). cbn [fst snd].
  split; [done|apply reshaped_capped].
Qed.

Lemma stage2_sound st : synced st -> synced (stage2 st) /\ reshaped st.1 (stage2 st).1.
Proof.
  intros Hs. unfold SearchKnowledge.stage2.
  destruct (capBytes <? st.2); [|split; [done|apply reshaped_refl]].
  destruct (shrinkPass_sound shrunkCap st Hs) as [Hs1 Hr1].
  destruct (shrinkPass_sound minFloor _ Hs1) as [Hs2 Hr2].
  split; [done|]. by eapply reshaped_trans.
Qed.

Lemma stage3_sound h st : synced st -> synced (stage3 h st) /\ reshaped st.1 (stage3 h st).1.
Proof.
  destruct st as [r z]. unfold synced. cbn [fst snd]. intros ->.
  destruct (decide (capBytes < jsonSizeBytes r)) as [Hcap|Hfit].
  - destruct (stage3_spec h r Hcap) as (k & _ & -> & _). cbn [fst snd].
    split; [done|apply reshaped_blanked].
  - unfold SearchKnowledge.stage3. cbn [fst snd].
    assert (Hge : jsonSizeBytes r <= capBytes) by lia.
    rewrite (proj2 (Z.ltb_ge _ _) Hge). split; [done|apply reshaped_refl].
Qed.

(** Step 4 on a result over budget. *)
Lemma stage4_spec r :
  capBytes < jsonSizeBytes r ->
  exists d,
    stage4 (r, jsonSizeBytes r)
      = (mkResult (content (dropped d r)) (isError r) (markPartial (_meta (dropped d r))),
         [trimmedWarning]) /\
    ((length (content (dropped d r)) <= 1)%nat \/ jsonSizeBytes (dropped d r) <= capBytes) /\
    (forall j, (j < d)%nat ->
       (1 < length (content (dropped j r)))%nat /\ capBytes < jsonSizeBytes (dropped j r)).
Proof.
  intros Hcap. unfold SearchKnowledge.stage4. cbn [fst snd].
  rewrite (proj2 (Z.ltb_lt _ _) Hcap).
  destruct (dropLoop_spec r (length (content r)) 0) as (d & _ & Hloop & Hexit & Hmin); [lia|].
  rewrite dropped_0 in Hloop. rewrite Hloop. cbn [fst snd].
  exists d. split; [done|]. split; [done|]. intros j Hj. apply Hmin. lia.
Qed.

(** The whole trimming: texts are changed in the first three steps, and
    step 4, when it is entered, removes [d] blocks and hits from the end,
    marks the result partial and logs the warning. *)
Lemma trim_shape h r :
  exists r3, reshaped r r3 /\
    ((jsonSizeBytes r3 <= capBytes /\ trim h r = (r3, [])) \/
     (capBytes < jsonSizeBytes r3 /\
      exists d,
        trim h r
          = (mkResult (content (dropped d r3)) (isError r3) (markPartial (_meta (dropped d r3))),
             [trimmedWarning]) /\
        ((length (content (dropped d r3)) <= 1)%nat \/
         jsonSizeBytes (dropped d r3) <= capBytes) /\
        (forall j, (j < d)%nat ->
           (1 < length (content (dropped j r3)))%nat /\
           capBytes < jsonSizeBytes (dropped j r3)))).
Proof.
  unfold SearchKnowledge.trim.
  destruct (stage1_sound (r, jsonSizeBytes r)) as [Hs1 Hr1]; [done|].
  destruct (stage2_sound _ Hs1) as [Hs2 Hr2].
  destruct (stage3_sound h _ Hs2) as [Hs3 Hr3].
  set (st3 := SearchKnowledge.stage3 _ _ _) in *.
  destruct st3 as [r3 z3]. unfold synced in Hs3. cbn [fst snd] in *. subst z3.
  exists r3. split; [eauto using reshaped_trans|].
  destruct (decide (capBytes < jsonSizeBytes r3)) as [Hcap|Hfit].
  - right. split; [done|]. by apply stage4_spec.
  - left. split; [lia|]. unfold SearchKnowledge.stage4. cbn [fst snd].
    assert (Hge : jsonSizeBytes r3 <= capBytes) by lia.
    by rewrite (proj2 (Z.ltb_ge _ _) Hge).
Qed.

Lemma stages_skipped h st :
  st.2 <= capBytes ->
  stage1 st = st /\ stage2 st = st /\ stage3 h st = st /\ stage4 st = (st.1, []).
Proof.
  intros H. unfold SearchKnowledge.stage1, SearchKnowledge.stage2, SearchKnowledge.stage3,
    SearchKnowledge.stage4.
  by rewrite (proj2 (Z.ltb_ge _ _) H).
Qed.

Lemma trim_within h r : jsonSizeBytes r <= capBytes -> trim h r = (r, []).
Proof.
  intros H. unfold SearchKnowledge.trim.
  destruct (stages_skipped h (r, jsonSizeBytes r) H) as (-> & -> & -> & ->). done.
Qed.

(** What survives the trimming is paired as before it. *)
Lemma trim_pairs h r :
  aligned r ->
  aligned (trim h r).1 /\
  (forall i, (i < length (hits (_meta (trim h r).1)))%nat ->
     hits (_meta (trim h r).1) !! i = hits (_meta r) !! i /\
     exists b b', content r !! (2 + i)%nat = Some b /\
       content (trim h r).1 !! (2 + i)%nat = Some b' /\ resourceOf b' = resourceOf b).
Proof.
  unfold aligned. intros Hal.
  destruct (trim_shape h r) as (r3 & [L R T E M] & [[_ ->]|(_ & d & -> & _)]); cbn [fst].
  - rewrite M, L. split; [done|]. intros i Hi. split; [done|].
    destruct (lookup_lt_is_Some_2 (content r) (2 + i)) as [b Hb]; [lia|].
    destruct (lookup_lt_is_Some_2 (content r3) (2 + i)) as [b' Hb']; [lia|].
    exists b, b'. split; [done|]. split; [done|].
    pose proof (R (2 + i)%nat) as HR. rewrite Hb, Hb' in HR. by inversion HR.
  - unfold dropped, setHits, markPartial. cbn [content _meta hits]. rewrite M.
    rewrite !length_take, L. split; [lia|]. intros i Hi.
    rewrite lookup_take_lt by lia. split; [done|].
    destruct (lookup_lt_is_Some_2 (content r) (2 + i)) as [b Hb]; [lia|].
    destruct (lookup_lt_is_Some_2 (content r3) (2 + i)) as [b' Hb']; [lia|].
    exists b, b'. split; [done|]. rewrite lookup_take_lt by lia. split; [done|].
    pose proof (R (2 + i)%nat) as HR. rewrite Hb, Hb' in HR. by inversion HR.
Qed.

Lemma markPartial_id m : complete m = Some false -> markPartial m = m.
Proof. destruct m. cbn. by intros ->. Qed.

(** A result over budget that the trimming returns was marked partial. *)
Lemma trim_flagged h r :
  capBytes < jsonSizeBytes (trim h r).1 -> complete (_meta (trim h r).1) = Some false.
Proof.
  destruct (trim_shape h r) as (r3 & _ & [[Hfit ->]|(_ & d & -> & _)]); cbn [fst _meta].
  - lia.
  - done.
Qed.

(** Nothing is left to trim in a single text block. *)
Lemma trim_single h r s :
  content r = [TextContent s] -> complete (_meta r) = Some false -> (trim h r).1 = r.
Proof.
  intros Hc Hflag.
  destruct (decide (capBytes < jsonSizeBytes r)) as [Hcap|Hfit];
    [|by rewrite trim_within by lia].
  pose proof (proj2 (Z.ltb_lt _ _) Hcap) as Hguard.
  assert (H1 : stage1 (r, jsonSizeBytes r) = (r, jsonSizeBytes r)).
  { unfold SearchKnowledge.stage1. cbn [fst snd]. by rewrite Hguard, Hc. }
  assert (Hpass : forall c, shrinkPass c (r, jsonSizeBytes r) = (r, jsonSizeBytes r)).
  { intros c. unfold SearchKnowledge.shrinkPass. cbn [fst snd]. rewrite Hc. cbn [length seq foldl].
    unfold SearchKnowledge.shrinkStep. cbn [fst snd]. by rewrite Hguard, Hc. }
  assert (H2 : stage2 (r, jsonSizeBytes r) = (r, jsonSizeBytes r)).
  { unfold SearchKnowledge.stage2. cbn [fst snd]. by rewrite Hguard, !Hpass. }
  assert (H3 : stage3 h (r, jsonSizeBytes r) = (r, jsonSizeBytes r)).
  { unfold SearchKnowledge.stage3. cbn [fst snd]. rewrite Hguard.
    induction (reverse (seq 0 h)) as [|i l IH]; [done|]. cbn [foldl].
    unfold SearchKnowledge.blankStep at 2. cbn [fst snd]. rewrite Hguard, Hc.
    replace (i + 2)%nat with (S (S i)) by lia. cbn. exact IH. }
  unfold SearchKnowledge.trim. rewrite H1, H2, H3.
  unfold SearchKnowledge.stage4. cbn [fst snd]. rewrite Hguard, Hc.
  cbn [length SearchKnowledge.dropLoop fst snd]. rewrite Hc. cbn [length].
  rewrite bool_decide_eq_false_2 by lia. cbn [andb fst snd].
  rewrite markPartial_id by done. by destruct r.
Qed.

Lemma stage1_size r : jsonSizeBytes (stage1 (r, jsonSizeBytes r)).1 <= jsonSizeBytes r.
Proof.
  destruct (decide (capBytes < jsonSizeBytes r)) as [Hcap|Hfit].
  - destruct (content r !! 1%nat) as [[t|u m txt]|] eqn:Hb.
    + destruct (stage1_spec r t Hb Hcap) as (m & -> & [Hnil|Hfit] & _); cbn [fst]; [|lia].
      rewrite (size_withPrompt r t _ Hb), Hnil. cbn.
      pose proof (quotedBytes_nonneg t). lia.
    + unfold SearchKnowledge.stage1. cbn [fst snd].
      by rewrite (proj2 (Z.ltb_lt _ _) Hcap), Hb.
    + unfold SearchKnowledge.stage1. cbn [fst snd].
      by rewrite (proj2 (Z.ltb_lt _ _) Hcap), Hb.
  - assert (Hge : jsonSizeBytes r <= capBytes) by lia.
    unfold SearchKnowledge.stage1. cbn [fst snd]. by rewrite (proj2 (Z.ltb_ge _ _) Hge).
Qed.

Lemma shrinkPass_size c r :
  cleanCut c r -> jsonSizeBytes (shrinkPass c (r, jsonSizeBytes r)).1 <= jsonSizeBytes r.
Proof.
  intros Hclean. destruct (shrinkPass_spec c r) as (k & _ & -> & _). cbn [fst].
  by apply size_capped_le.
Qed.

Lemma stage3_size h r : jsonSizeBytes (stage3 h (r, jsonSizeBytes r)).1 <= jsonSizeBytes r.
Proof.
  destruct (decide (capBytes < jsonSizeBytes r)) as [Hcap|Hfit].
  - destruct (stage3_spec h r Hcap) as (k & _ & -> & _). cbn [fst].
    by apply (size_blanked_le r (h + 2) (h + 2)); lia.
  - assert (Hge : jsonSizeBytes r <= capBytes) by lia.
    unfold SearchKnowledge.stage3. cbn [fst snd]. by rewrite (proj2 (Z.ltb_ge _ _) Hge).
Qed.

Lemma dropLoop_size r :
  jsonSizeBytes (dropLoop (length (content r)) (r, jsonSizeBytes r)).1 <= jsonSizeBytes r.
Proof.
  destruct (dropLoop_spec r (length (content r)) 0) as (d & _ & Hloop & _); [lia|].
  rewrite dropped_0 in Hloop. rewrite Hloop. cbn [fst]. apply size_dropped_le.
Qed.

Lemma stage4_size r :
  jsonSizeBytes (stage4 (r, jsonSizeBytes r)).1 <= jsonSizeBytes r + 17 /\
  ((length (content (stage4 (r, jsonSizeBytes r)).1) < length (content r))%nat ->
   jsonSizeBytes (stage4 (r, jsonSizeBytes r)).1 <= jsonSizeBytes r).
Proof.
  destruct (decide (capBytes < jsonSizeBytes r)) as [Hcap|Hfit].
  - destruct (stage4_spec r Hcap) as (d & -> & _ & Hmin). cbn [fst content].
    rewrite size_markPartial.
    pose proof (flagBytes_range (complete (_meta (dropped d r)))).
    assert (Heq : mkResult (content (dropped d r)) (isError r) (_meta (dropped d r))
                  = dropped d r) by done.
    rewrite Heq. pose proof (size_dropped_le d r). split; [lia|].
    rewrite dropped_length. intros Hlt.
    destruct (Hmin 0%nat) as [Hmany _]; [lia|]. rewrite dropped_length in Hmany.
    pose proof (size_dropped_one d r). lia.
  - assert (Hge : jsonSizeBytes r <= capBytes) by lia.
    unfold SearchKnowledge.stage4. cbn [fst snd]. rewrite (proj2 (Z.ltb_ge _ _) Hge).
    cbn [fst]. split; lia.
Qed.

Lemma trim_first_block h r s :
  content r !! 0%nat = Some (TextContent s) ->
  content (trim h r).1 !! 0%nat = Some (TextContent s) /\
  (capBytes < jsonSizeBytes (skeleton r) ->
     content (trim h r).1 = [TextContent s] /\
     complete (_meta (trim h r).1) = Some false /\
     (aligned r -> hits (_meta (trim h r).1) = [])).
Proof.
  intros Hs.
  destruct (trim_shape h r) as (r3 & [L R T E M] & Hcases).
  pose proof (T 0%nat s ltac:(lia) Hs) as Hs3.
  assert (Hlen : (0 < length (content r3))%nat) by (by eapply lookup_lt_Some).
  assert (Hfloor : forall d, (d < length (content r3))%nat ->
            jsonSizeBytes (skeleton r) <= jsonSizeBytes (dropped d r3)).
  { intros d Hd. apply (skeleton_le r (dropped d r3) (TextContent s)); try done.
    - unfold dropped. cbn [content]. by rewrite lookup_take_lt by lia.
    - unfold dropped. cbn [_meta]. rewrite M. by eexists. }
  destruct Hcases as [[Hfit ->]|(_ & d & -> & Hexit & Hmin)]; cbn [fst content _meta].
  - split; [done|]. intros Hsmall.
    pose proof (Hfloor 0%nat Hlen) as Hf. rewrite dropped_0 in Hf. lia.
  - assert (Hd : (d < length (content r3))%nat).
    { destruct d as [|d]; [done|]. destruct (Hmin d) as [Hmany _]; [lia|].
      rewrite dropped_length in Hmany. lia. }
    split.
    { unfold dropped. cbn [content]. by rewrite lookup_take_lt by lia. }
    intros Hsmall. pose proof (Hfloor d Hd) as Hf.
    destruct Hexit as [Hone|Hfit]; [|lia].
    rewrite dropped_length in Hone. split; [|split; [done|]].
    + unfold dropped. cbn [content].
      replace (length (content r3) - d)%nat with 1%nat by lia.
      destruct (content r3) as [|b l]; [done|]. cbn in Hs3. by inversion Hs3.
    + unfold aligned. intros Hal. unfold dropped, markPartial, setHits. cbn [hits _meta].
      rewrite M. apply nil_length_inv. rewrite length_take. lia.
Qed.
End stages.

Import TrimExamples.

(** The sample of 797 bytes under a budget of 600: the prompt text is cut
    away, both snippets are capped to 40 and the first to 20 code units,
    and the second pass stops when the second snippet is capped; nothing is
    removed and nothing is logged. *)
Example sample_fits_after_step_two :
  jsonSizeBytes sample = 797 /\
  trim 600 40 20 2 sample
  = (setContent
       [TextContent (lit "Found 2 results across 1 repo.");
        TextContent [];
        ResourceBlock (lit "kb://repoa/src/a.ts#L1-L10") (lit "text/typescript")
          (replicate 20 120%N);
        ResourceBlock (lit "kb://repoa/src/b.py#L5-L15") (lit "text/x-python")
          (replicate 20 121%N)] sample, []) /\
  jsonSizeBytes (trim 600 40 20 2 sample).1 = 587.
Proof. by vm_compute. Qed.

(** Under a budget of 400 both snippets are emptied and the last block goes
    with its hit. *)
Example sample_loses_a_block :
  trim 400 40 20 2 sample
  = (mkResult
       [TextContent (lit "Found 2 results across 1 repo.");
        TextContent [];
        ResourceBlock (lit "kb://repoa/src/a.ts#L1-L10") (lit "text/typescript") []]
       false
       (markPartial (setHits [metaHit hitA] (_meta sample))),
     [trimmedWarning]).
Proof. by vm_compute. Qed.

(** The cut of step 1 keeps the first nine tenths of the code units,
    rounded down. *)
Lemma cut90_take t : cut90 t = take (9 * length t / 10) t.
Proof.
  unfold cut90, slice0. f_equal.
  rewrite Z.max_l by (apply Z.div_pos; lia).
  rewrite <- (Nat2Z.id (9 * length t / 10)). f_equal.
  rewrite Nat2Z.inj_div, Nat2Z.inj_mul. done.
Qed.

Lemma tenths_le m : forall n, (Nat.iter m (fun n => 9 * n / 10) n <= n)%nat.
Proof.
  induction m as [|m IH]; intros n; [done|]. rewrite Nat.iter_succ.
  specialize (IH n). set (k := Nat.iter m _ n) in *. cbn beta.
  assert (9 * k / 10 <= k)%nat; [|lia].
  apply Nat.Div0.div_le_upper_bound. lia.
Qed.

Lemma iter_cut90 m t :
  Nat.iter m cut90 t = take (Nat.iter m (fun n => 9 * n / 10)%nat (length t)) t.
Proof.
  induction m as [|m IH]; [cbn; by rewrite take_ge|]. rewrite !Nat.iter_succ.
  rewrite IH, cut90_take. pose proof (tenths_le m (length t)) as Hle.
  set (k := Nat.iter m _ (length t)) in *. cbn beta.
  rewrite length_take, Nat.min_l by done. rewrite take_take. f_equal.
  assert (9 * k / 10 <= k)%nat; [|lia].
  apply Nat.Div0.div_le_upper_bound. lia.
Qed.

Lemma iter_cut90_nil m t :
  Nat.iter m cut90 t = [] <-> Nat.iter m (fun n => 9 * n / 10)%nat (length t) = 0%nat.
Proof.
  rewrite iter_cut90. pose proof (tenths_le m (length t)) as Hle.
  set (k := Nat.iter m _ (length t)) in *. split.
  - intros H. apply (f_equal length) in H. rewrite length_take in H. cbn in H. lia.
  - intros ->. done.
Qed.

(** C6. The trimming is the four steps in their order, each a no-op when
    the size is within the budget at its entry: a result within the budget
    is returned as it is, and a result that fits after step 1, or after
    step 2, is returned as that step left it; the [size] variable holds the
    measured size between the steps. Step 1 does nothing without a text
    block at index 1; otherwise it leaves in that block the first [n] code
    units of the text, [n] being what [m] roundings down of nine tenths
    leave of its length, and [m] the first number of cuts after which the
    text is empty or the size fits. Step 2 is the pass with the upper cap
    followed by the pass with the floor cap. A pass with cap [c] leaves the
    first [c] code units of the resource texts of the first [k] blocks and
    nothing else changed, [k] being the first index at which the size fits,
    or the number of blocks. *)
Theorem trim_stages_in_order capBytes shrunkCap minFloor h r :
  trim capBytes shrunkCap minFloor h r
    = stage4 capBytes
        (stage3 capBytes h
           (stage2 capBytes shrunkCap minFloor (stage1 capBytes (r, jsonSizeBytes r)))) /\
  (forall st, st.2 <= capBytes ->
     stage1 capBytes st = st /\ stage2 capBytes shrunkCap minFloor st = st /\
     stage3 capBytes h st = st /\ stage4 capBytes st = (st.1, [])) /\
  (forall st, synced st ->
     synced (stage1 capBytes st) /\ synced (stage2 capBytes shrunkCap minFloor st) /\
     synced (stage3 capBytes h st)) /\
  (jsonSizeBytes r <= capBytes -> trim capBytes shrunkCap minFloor h r = (r, [])) /\
  ((stage1 capBytes (r, jsonSizeBytes r)).2 <= capBytes ->
     trim capBytes shrunkCap minFloor h r = ((stage1 capBytes (r, jsonSizeBytes r)).1, [])) /\
  ((stage2 capBytes shrunkCap minFloor (stage1 capBytes (r, jsonSizeBytes r))).2 <= capBytes ->
     trim capBytes shrunkCap minFloor h r
       = ((stage2 capBytes shrunkCap minFloor (stage1 capBytes (r, jsonSizeBytes r))).1, [])) /\
  ((forall t, content r !! 1%nat <> Some (TextContent t)) ->
     stage1 capBytes (r, jsonSizeBytes r) = (r, jsonSizeBytes r)) /\
  (forall t, content r !! 1%nat = Some (TextContent t) -> capBytes < jsonSizeBytes r ->
     exists m r1,
       stage1 capBytes (r, jsonSizeBytes r) = (r1, jsonSizeBytes r1) /\
       r1 = mkResult
              (<[1%nat := TextContent
                            (take (Nat.iter m (fun n => 9 * n / 10)%nat (length t)) t)]>
                 (content r))
              (isError r) (_meta r) /\
       (Nat.iter m (fun n => 9 * n / 10)%nat (length t) = 0%nat \/
        jsonSizeBytes r1 <= capBytes) /\
       (forall j, (j < m)%nat ->
          (0 < Nat.iter j (fun n => 9 * n / 10)%nat (length t))%nat /\
          capBytes
          < jsonSizeBytes
              (mkResult
                 (<[1%nat := TextContent
                               (take (Nat.iter j (fun n => 9 * n / 10)%nat (length t)) t)]>
                    (content r))
                 (isError r) (_meta r)))) /\
  (capBytes < jsonSizeBytes r ->
     stage2 capBytes shrunkCap minFloor (r, jsonSizeBytes r)
       = shrinkPass capBytes minFloor (shrinkPass capBytes shrunkCap (r, jsonSizeBytes r))) /\
  (forall c, exists k r2, (k <= length (content r))%nat /\
     shrinkPass capBytes c (r, jsonSizeBytes r) = (r2, jsonSizeBytes r2) /\
     r2 = mkResult
            (((fun b => match b with
                        | ResourceBlock uri mimeType txt =>
                            ResourceBlock uri mimeType (take c txt)
                        | TextContent _ => b
                        end) <$> take k (content r)) ++ drop k (content r))
            (isError r) (_meta r) /\
     (forall j uri mimeType txt, (j < k)%nat ->
        content r !! j = Some (ResourceBlock uri mimeType txt) ->
        content r2 !! j = Some (ResourceBlock uri mimeType (take c txt)) /\
        length (take c txt) = Nat.min c (length txt)) /\
     (forall j t, content r !! j = Some (TextContent t) ->
        content r2 !! j = Some (TextContent t)) /\
     (forall j, (k <= j)%nat -> content r2 !! j = content r !! j) /\
     (k = length (content r) \/ jsonSizeBytes r2 <= capBytes) /\
     (forall j, (j < k)%nat ->
        capBytes
        < jsonSizeBytes
            (mkResult
               (((fun b => match b with
                           | ResourceBlock uri mimeType txt =>
                               ResourceBlock uri mimeType (take c txt)
                           | TextContent _ => b
                           end) <$> take j (content r)) ++ drop j (content r))
               (isError r) (_meta r)))).
Proof.
  split; [done|]. split; [apply stages_skipped|]. split.
  { intros st Hs. split; [by apply stage1_sound|].
    split; [by apply stage2_sound|by apply stage3_sound]. }
  split; [apply trim_within|]. split.
  { intros Hfit. unfold trim.
    destruct (stages_skipped capBytes shrunkCap minFloor h _ Hfit) as (_ & -> & -> & ->).
    done. }
  split.
  { intros Hfit. unfold trim.
    destruct (stages_skipped capBytes shrunkCap minFloor h _ Hfit) as (_ & _ & -> & ->).
    done. }
  split.
  { intros Hno. unfold stage1. cbn [fst snd]. destruct (capBytes <? _); [|done].
    destruct (content r !! 1%nat) as [[t|? ? ?]|] eqn:Hb; try done. by destruct (Hno t). }
  split.
  { intros t Ht Hcap. destruct (stage1_spec capBytes r t Ht Hcap) as (m & Hst & Hexit & Hmin).
    exists m, (withPrompt (Nat.iter m cut90 t) r). split; [exact Hst|].
    split; [by rewrite iter_cut90|]. split.
    - destruct Hexit as [Hnil|Hfit]; [left; by apply iter_cut90_nil|by right].
    - intros j Hj. destruct (Hmin j Hj) as [Hne Hover]. split.
      + destruct (Nat.iter j (fun n => 9 * n / 10)%nat (length t)) eqn:Hz; [|lia].
        by apply iter_cut90_nil in Hz.
      + rewrite iter_cut90 in Hover. exact Hover. }
  split.
  { intros Hcap. unfold stage2. cbn [fst snd]. by rewrite (proj2 (Z.ltb_lt _ _) Hcap). }
  intros c. destruct (shrinkPass_spec capBytes c r) as (k & Hk & Hpass & Hexit & Hmin).
  exists k, (capped c k r). split; [done|]. split; [exact Hpass|]. split; [done|].
  split.
  { intros j uri mimeType txt Hj Hb. split; [|apply length_take].
    rewrite capped_content_lookup, Hb. cbn. by rewrite bool_decide_eq_true_2 by done. }
  split.
  { intros j t Hb. rewrite capped_content_lookup, Hb. cbn. by destruct (bool_decide _). }
  split.
  { intros j Hj. rewrite capped_content_lookup.
    destruct (content r !! j) as [b|]; [|done]. cbn. by rewrite bool_decide_eq_false_2 by lia. }
  split; [exact Hexit|]. intros j Hj. exact (Hmin j Hj).
Qed.

Lemma trim_stages_in_order_witness :
  trim 600 40 20 2 sample
    = stage4 600
        (stage3 600 2
           (stage2 600 40 20 (stage1 600 (sample, jsonSizeBytes sample)))) /\
  (forall st, st.2 <= 600 ->
     stage1 600 st = st /\ stage2 600 40 20 st = st /\
     stage3 600 2 st = st /\ stage4 600 st = (st.1, [])) /\
  (forall st, synced st ->
     synced (stage1 600 st) /\ synced (stage2 600 40 20 st) /\
     synced (stage3 600 2 st)) /\
  (jsonSizeBytes sample <= 600 -> trim 600 40 20 2 sample = (sample, [])) /\
  ((stage1 600 (sample, jsonSizeBytes sample)).2 <= 600 ->
     trim 600 40 20 2 sample = ((stage1 600 (sample, jsonSizeBytes sample)).1, [])) /\
  ((stage2 600 40 20 (stage1 600 (sample, jsonSizeBytes sample))).2 <= 600 ->
     trim 600 40 20 2 sample
       = ((stage2 600 40 20 (stage1 600 (sample, jsonSizeBytes sample))).1, [])) /\
  ((forall t, content sample !! 1%nat <> Some (TextContent t)) ->
     stage1 600 (sample, jsonSizeBytes sample) = (sample, jsonSizeBytes sample)) /\
  (forall t, content sample !! 1%nat = Some (TextContent t) -> 600 < jsonSizeBytes sample ->
     exists m r1,
       stage1 600 (sample, jsonSizeBytes sample) = (r1, jsonSizeBytes r1) /\
       r1 = mkResult
              (<[1%nat := TextContent
                            (take (Nat.iter m (fun n => 9 * n / 10)%nat (length t)) t)]>
                 (content sample))
              (isError sample) (_meta sample) /\
       (Nat.iter m (fun n => 9 * n / 10)%nat (length t) = 0%nat \/
        jsonSizeBytes r1 <= 600) /\
       (forall j, (j < m)%nat ->
          (0 < Nat.iter j (fun n => 9 * n / 10)%nat (length t))%nat /\
          600
          < jsonSizeBytes
              (mkResult
                 (<[1%nat := TextContent
                               (take (Nat.iter j (fun n => 9 * n / 10)%nat (length t)) t)]>
                    (content sample))
                 (isError sample) (_meta sample)))) /\
  (600 < jsonSizeBytes sample ->
     stage2 600 40 20 (sample, jsonSizeBytes sample)
       = shrinkPass 600 20 (shrinkPass 600 40 (sample, jsonSizeBytes sample))) /\
  (forall c, exists k r2, (k <= length (content sample))%nat /\
     shrinkPass 600 c (sample, jsonSizeBytes sample) = (r2, jsonSizeBytes r2) /\
     r2 = mkResult
            (((fun b => match b with
                        | ResourceBlock uri mimeType txt =>
                            ResourceBlock uri mimeType (take c txt)
                        | TextContent _ => b
                        end) <$> take k (content sample)) ++ drop k (content sample))
            (isError sample) (_meta sample) /\
     (forall j uri mimeType txt, (j < k)%nat ->
        content sample !! j = Some (ResourceBlock uri mimeType txt) ->
        content r2 !! j = Some (ResourceBlock uri mimeType (take c txt)) /\
        length (take c txt) = Nat.min c (length txt)) /\
     (forall j t, content sample !! j = Some (TextContent t) ->
        content r2 !! j = Some (TextContent t)) /\
     (forall j, (k <= j)%nat -> content r2 !! j = content sample !! j) /\
     (k = length (content sample) \/ jsonSizeBytes r2 <= 600) /\
     (forall j, (j < k)%nat ->
        600
        < jsonSizeBytes
            (mkResult
               (((fun b => match b with
                           | ResourceBlock uri mimeType txt =>
                               ResourceBlock uri mimeType (take c txt)
                           | TextContent _ => b
                           end) <$> take j (content sample)) ++ drop j (content sample))
               (isError sample) (_meta sample)))).
Proof. exact (trim_stages_in_order 600 40 20 2 sample). Defined.

(** C7. Step 3 leaves every block in its place and empties the resource
    texts of the hits from the last one backward, down to the first hit
    [k] at which the size fits: the blocks [k + 2] to [h + 1] that are
    resources have the text [""], with their uri and MIME type, and every
    other block is as it was. Step 4 takes [d] blocks off the end of the
    content and [d] hits off the end of [metaHits], going on only while
    more than one block is left and the size is over the budget, writes
    [complete: false] and logs the warning. The hits that survive the
    trimming are the first hits, and hit [i] is still paired with block
    [2 + i], the block it was paired with; whenever a block was removed the
    result is marked partial and the warning is logged. *)
Theorem trim_blanks_then_drops capBytes shrunkCap minFloor h r :
  (capBytes < jsonSizeBytes r ->
     exists k r3, (k <= h)%nat /\
       stage3 capBytes h (r, jsonSizeBytes r) = (r3, jsonSizeBytes r3) /\
       r3 = mkResult
              (imap (fun i b => if bool_decide (k + 2 <= i < h + 2)%nat
                                then match b with
                                     | ResourceBlock uri mimeType _ =>
                                         ResourceBlock uri mimeType []
                                     | TextContent _ => b
                                     end
                                else b) (content r))
              (isError r) (_meta r) /\
       length (content r3) = length (content r) /\
       (forall i uri mimeType txt, (k + 2 <= i < h + 2)%nat ->
          content r !! i = Some (ResourceBlock uri mimeType txt) ->
          content r3 !! i = Some (ResourceBlock uri mimeType [])) /\
       (forall i t, content r !! i = Some (TextContent t) ->
          content r3 !! i = Some (TextContent t)) /\
       (forall i, ~ (k + 2 <= i < h + 2)%nat -> content r3 !! i = content r !! i) /\
       (k = 0%nat \/ jsonSizeBytes r3 <= capBytes) /\
       (forall j, (k < j <= h)%nat ->
          capBytes
          < jsonSizeBytes
              (mkResult
                 (imap (fun i b => if bool_decide (j + 2 <= i < h + 2)%nat
                                   then match b with
                                        | ResourceBlock uri mimeType _ =>
                                            ResourceBlock uri mimeType []
                                        | TextContent _ => b
                                        end
                                   else b) (content r))
                 (isError r) (_meta r)))) /\
  (capBytes < jsonSizeBytes r ->
     exists d r4,
       stage4 capBytes (r, jsonSizeBytes r)
         = (r4, [Warn "search" "trimmed content to respect 50KB cap"]) /\
       r4 = mkResult (take (length (content r) - d) (content r)) (isError r)
              (mkMeta (take (length (hits (_meta r)) - d) (hits (_meta r)))
                 (cursor (_meta r)) (estimated_total (_meta r)) (Some false)
                 (warnings (_meta r)) (model (_meta r)) (top_k (_meta r))
                 (mcp_latency_ms (_meta r))) /\
       ((length (content r) - d <= 1)%nat \/
        jsonSizeBytes
          (mkResult (take (length (content r) - d) (content r)) (isError r)
             (mkMeta (take (length (hits (_meta r)) - d) (hits (_meta r)))
                (cursor (_meta r)) (estimated_total (_meta r)) (complete (_meta r))
                (warnings (_meta r)) (model (_meta r)) (top_k (_meta r))
                (mcp_latency_ms (_meta r))))
        <= capBytes) /\
       (forall j, (j < d)%nat ->
          (1 < length (content r) - j)%nat /\
          capBytes
          < jsonSizeBytes
              (mkResult (take (length (content r) - j) (content r)) (isError r)
                 (mkMeta (take (length (hits (_meta r)) - j) (hits (_meta r)))
                    (cursor (_meta r)) (estimated_total (_meta r)) (complete (_meta r))
                    (warnings (_meta r)) (model (_meta r)) (top_k (_meta r))
                    (mcp_latency_ms (_meta r)))))) /\
  (aligned r ->
     aligned (trim capBytes shrunkCap minFloor h r).1 /\
     (forall i, (i < length (hits (_meta (trim capBytes shrunkCap minFloor h r).1)))%nat ->
        hits (_meta (trim capBytes shrunkCap minFloor h r).1) !! i = hits (_meta r) !! i /\
        exists b b', content r !! (2 + i)%nat = Some b /\
          content (trim capBytes shrunkCap minFloor h r).1 !! (2 + i)%nat = Some b' /\
          resourceOf b' = resourceOf b)) /\
  ((length (content (trim capBytes shrunkCap minFloor h r).1) < length (content r))%nat ->
     complete (_meta (trim capBytes shrunkCap minFloor h r).1) = Some false /\
     (trim capBytes shrunkCap minFloor h r).2
       = [Warn "search" "trimmed content to respect 50KB cap"]).
Proof.
  split.
  { intros Hcap. destruct (stage3_spec capBytes h r Hcap) as (k & Hk & Hst & Hexit & Hmin).
    exists k, (blanked (k + 2) (h + 2) r). split; [done|]. split; [exact Hst|].
    split; [done|]. split; [apply blanked_length|]. split.
    { intros i uri mimeType txt Hi Hb. rewrite blanked_content_lookup, Hb. cbn.
      by rewrite bool_decide_eq_true_2 by done. }
    split.
    { intros i t Hb. rewrite blanked_content_lookup, Hb. cbn. by destruct (bool_decide _). }
    split.
    { intros i Hi. rewrite blanked_content_lookup.
      destruct (content r !! i) as [b|]; [|done]. cbn.
      by rewrite bool_decide_eq_false_2 by done. }
    split; [exact Hexit|]. intros j Hj. exact (Hmin j Hj). }
  split.
  { intros Hcap. destruct (stage4_spec capBytes r Hcap) as (d & Hst & Hexit & Hmin).
    exists d, (mkResult (content (dropped d r)) (isError r) (markPartial (_meta (dropped d r)))).
    split; [exact Hst|]. split; [done|]. split.
    - destruct Hexit as [Hone|Hfit]; [left|right; exact Hfit].
      by rewrite dropped_length in Hone.
    - intros j Hj. destruct (Hmin j Hj) as [Hlen Hover]. rewrite dropped_length in Hlen.
      split; [done|exact Hover]. }
  split; [apply trim_pairs|].
  destruct (trim_shape capBytes shrunkCap minFloor h r)
    as (r3 & [L R T E M] & [[_ ->]|(_ & d & -> & _)]); cbn [fst snd content _meta].
  - intros Hlt. lia.
  - done.
Qed.

Lemma trim_blanks_then_drops_witness :
  (400 < jsonSizeBytes sample ->
     exists k r3, (k <= 2)%nat /\
       stage3 400 2 (sample, jsonSizeBytes sample) = (r3, jsonSizeBytes r3) /\
       r3 = mkResult
              (imap (fun i b => if bool_decide (k + 2 <= i < 2 + 2)%nat
                                then match b with
                                     | ResourceBlock uri mimeType _ =>
                                         ResourceBlock uri mimeType []
                                     | TextContent _ => b
                                     end
                                else b) (content sample))
              (isError sample) (_meta sample) /\
       length (content r3) = length (content sample) /\
       (forall i uri mimeType txt, (k + 2 <= i < 2 + 2)%nat ->
          content sample !! i = Some (ResourceBlock uri mimeType txt) ->
          content r3 !! i = Some (ResourceBlock uri mimeType [])) /\
       (forall i t, content sample !! i = Some (TextContent t) ->
          content r3 !! i = Some (TextContent t)) /\
       (forall i, ~ (k + 2 <= i < 2 + 2)%nat -> content r3 !! i = content sample !! i) /\
       (k = 0%nat \/ jsonSizeBytes r3 <= 400) /\
       (forall j, (k < j <= 2)%nat ->
          400
          < jsonSizeBytes
              (mkResult
                 (imap (fun i b => if bool_decide (j + 2 <= i < 2 + 2)%nat
                                   then match b with
                                        | ResourceBlock uri mimeType _ =>
                                            ResourceBlock uri mimeType []
                                        | TextContent _ => b
                                        end
                                   else b) (content sample))
                 (isError sample) (_meta sample)))) /\
  (400 < jsonSizeBytes sample ->
     exists d r4,
       stage4 400 (sample, jsonSizeBytes sample)
         = (r4, [Warn "search" "trimmed content to respect 50KB cap"]) /\
       r4 = mkResult (take (length (content sample) - d) (content sample)) (isError sample)
              (mkMeta (take (length (hits (_meta sample)) - d) (hits (_meta sample)))
                 (cursor (_meta sample)) (estimated_total (_meta sample)) (Some false)
                 (warnings (_meta sample)) (model (_meta sample)) (top_k (_meta sample))
                 (mcp_latency_ms (_meta sample))) /\
       ((length (content sample) - d <= 1)%nat \/
        jsonSizeBytes
          (mkResult (take (length (content sample) - d) (content sample)) (isError sample)
             (mkMeta (take (length (hits (_meta sample)) - d) (hits (_meta sample)))
                (cursor (_meta sample)) (estimated_total (_meta sample)) (complete (_meta sample))
                (warnings (_meta sample)) (model (_meta sample)) (top_k (_meta sample))
                (mcp_latency_ms (_meta sample))))
        <= 400) /\
       (forall j, (j < d)%nat ->
          (1 < length (content sample) - j)%nat /\
          400
          < jsonSizeBytes
              (mkResult (take (length (content sample) - j) (content sample)) (isError sample)
                 (mkMeta (take (length (hits (_meta sample)) - j) (hits (_meta sample)))
                    (cursor (_meta sample)) (estimated_total (_meta sample)) (complete (_meta sample))
                    (warnings (_meta sample)) (model (_meta sample)) (top_k (_meta sample))
                    (mcp_latency_ms (_meta sample)))))) /\
  (aligned sample ->
     aligned (trim 400 40 20 2 sample).1 /\
     (forall i, (i < length (hits (_meta (trim 400 40 20 2 sample).1)))%nat ->
        hits (_meta (trim 400 40 20 2 sample).1) !! i = hits (_meta sample) !! i /\
        exists b b', content sample !! (2 + i)%nat = Some b /\
          content (trim 400 40 20 2 sample).1 !! (2 + i)%nat = Some b' /\
          resourceOf b' = resourceOf b)) /\
  ((length (content (trim 400 40 20 2 sample).1) < length (content sample))%nat ->
     complete (_meta (trim 400 40 20 2 sample).1) = Some false /\
     (trim 400 40 20 2 sample).2
       = [Warn "search" "trimmed content to respect 50KB cap"]).
Proof. exact (trim_blanks_then_drops 400 40 20 2 sample). Defined.

(** C8, as stated, fails in three ways, each at the budget of the handler,
    71680 bytes. Step 4 on a single block over budget removes nothing and
    turns [complete: true] into [complete: false]: one byte more. A pass of
    step 2 that cuts a text of 301 code units between the two halves of its
    last character leaves a lone surrogate, written as an escape: two bytes
    more. And when the flag written at the end of step 4 pushes the size
    back over the budget, here to 71692 bytes with three blocks and one hit
    left, a second run removes a further block and its hit. *)
Lemma trimming_can_grow_and_repeat :
  CAP_BYTES = 71680 /\
  (jsonSizeBytes flagged = 71819 /\
   jsonSizeBytes (stage4 CAP_BYTES (flagged, 71819)).1 = 71820) /\
  (jsonSizeBytes astral = 72344 /\
   jsonSizeBytes
     (stage2 CAP_BYTES SHRUNK_SNIPPET_CHAR_CAP MIN_SNIPPET_CHAR_FLOOR (astral, 72344)).1
     = 72346) /\
  rerun crowded = ((3%nat, 1%nat), 71692, (2%nat, 0%nat)).
Proof. split; [done|]. split; [|split]; by vm_compute. Qed.

(** C8, amended. Step 1, step 3 and the loop of step 4 never increase the
    measured size; a pass of step 2 does not increase it when the cut
    separates no surrogate pair of a resource text; the flag that ends
    step 4 adds at most 17 bytes, and step 4 does not increase the size
    when it removes a block. A second run changes nothing when the first
    one left the result within the budget, and returns the same result when
    the first one left a single text block. *)
Theorem trim_sizes_and_reruns capBytes shrunkCap minFloor h r :
  jsonSizeBytes (stage1 capBytes (r, jsonSizeBytes r)).1 <= jsonSizeBytes r /\
  (forall c, cleanCut c r ->
     jsonSizeBytes (shrinkPass capBytes c (r, jsonSizeBytes r)).1 <= jsonSizeBytes r) /\
  jsonSizeBytes (stage3 capBytes h (r, jsonSizeBytes r)).1 <= jsonSizeBytes r /\
  jsonSizeBytes (dropLoop capBytes (length (content r)) (r, jsonSizeBytes r)).1
    <= jsonSizeBytes r /\
  jsonSizeBytes (stage4 capBytes (r, jsonSizeBytes r)).1 <= jsonSizeBytes r + 17 /\
  ((length (content (stage4 capBytes (r, jsonSizeBytes r)).1) < length (content r))%nat ->
     jsonSizeBytes (stage4 capBytes (r, jsonSizeBytes r)).1 <= jsonSizeBytes r) /\
  (jsonSizeBytes (trim capBytes shrunkCap minFloor h r).1 <= capBytes ->
     forall h', trim capBytes shrunkCap minFloor h' (trim capBytes shrunkCap minFloor h r).1
                = ((trim capBytes shrunkCap minFloor h r).1, [])) /\
  (forall s, content (trim capBytes shrunkCap minFloor h r).1 = [TextContent s] ->
     forall h', (trim capBytes shrunkCap minFloor h' (trim capBytes shrunkCap minFloor h r).1).1
                = (trim capBytes shrunkCap minFloor h r).1).
Proof.
  split; [apply stage1_size|]. split; [intros c; apply shrinkPass_size|].
  split; [apply stage3_size|]. split; [apply dropLoop_size|].
  split; [apply stage4_size|]. split; [apply stage4_size|]. split.
  - intros Hfit h'. by apply trim_within.
  - intros s Hs h'.
    destruct (decide (capBytes < jsonSizeBytes (trim capBytes shrunkCap minFloor h r).1))
      as [Hcap|Hfit].
    + eapply trim_single; [done|]. by apply trim_flagged.
    + by rewrite trim_within by lia.
Qed.

Lemma trim_sizes_and_reruns_witness :
  jsonSizeBytes (stage1 400 (sample, jsonSizeBytes sample)).1 <= jsonSizeBytes sample /\
  (forall c, cleanCut c sample ->
     jsonSizeBytes (shrinkPass 400 c (sample, jsonSizeBytes sample)).1 <= jsonSizeBytes sample) /\
  jsonSizeBytes (stage3 400 2 (sample, jsonSizeBytes sample)).1 <= jsonSizeBytes sample /\
  jsonSizeBytes (dropLoop 400 (length (content sample)) (sample, jsonSizeBytes sample)).1
    <= jsonSizeBytes sample /\
  jsonSizeBytes (stage4 400 (sample, jsonSizeBytes sample)).1 <= jsonSizeBytes sample + 17 /\
  ((length (content (stage4 400 (sample, jsonSizeBytes sample)).1) < length (content sample))%nat ->
     jsonSizeBytes (stage4 400 (sample, jsonSizeBytes sample)).1 <= jsonSizeBytes sample) /\
  (jsonSizeBytes (trim 400 40 20 2 sample).1 <= 400 ->
     forall h', trim 400 40 20 h' (trim 400 40 20 2 sample).1
                = ((trim 400 40 20 2 sample).1, [])) /\
  (forall s, content (trim 400 40 20 2 sample).1 = [TextContent s] ->
     forall h', (trim 400 40 20 h' (trim 400 40 20 2 sample).1).1
                = (trim 400 40 20 2 sample).1).
Proof. exact (trim_sizes_and_reruns 400 40 20 2 sample). Defined.

(** C10. The first block, the summary, comes out of the trimming as it
    went in. When the budget is below the size of the skeleton of the
    result (its first block, no hits), step 4 removes every other block,
    the prompt-ready text block included: the content is the summary alone,
    the result is marked partial, and [metaHits], popped once more than it
    has entries, is empty. Popping an empty array does nothing, and the
    blocks and hits that are left stay aligned in every case. *)
Theorem summary_block_survives capBytes shrunkCap minFloor h r s :
  content r !! 0%nat = Some (TextContent s) ->
  content (trim capBytes shrunkCap minFloor h r).1 !! 0%nat = Some (TextContent s) /\
  (capBytes < jsonSizeBytes (skeleton r) ->
     content (trim capBytes shrunkCap minFloor h r).1 = [TextContent s] /\
     complete (_meta (trim capBytes shrunkCap minFloor h r).1) = Some false /\
     (aligned r -> hits (_meta (trim capBytes shrunkCap minFloor h r).1) = [])) /\
  (aligned r -> aligned (trim capBytes shrunkCap minFloor h r).1) /\
  pop (@nil MetaHit) = [] /\
  dropLast (mkResult [TextContent s; TextContent []] false (setHits [] (_meta r)))
    = mkResult [TextContent s] false (setHits [] (_meta r)).
Proof.
  intros Hs.
  destruct (trim_first_block capBytes shrunkCap minFloor h r s Hs) as [Hfirst Hsmall].
  split; [done|]. split; [done|]. split; [|done].
  intros Hal. by apply trim_pairs.
Qed.

Lemma summary_block_survives_witness :
  content (trim 10 40 20 2 sample).1 !! 0%nat
    = Some (TextContent (lit "Found 2 results across 1 repo.")) /\
  (10 < jsonSizeBytes (skeleton sample) ->
     content (trim 10 40 20 2 sample).1 = [TextContent (lit "Found 2 results across 1 repo.")] /\
     complete (_meta (trim 10 40 20 2 sample).1) = Some false /\
     (aligned sample -> hits (_meta (trim 10 40 20 2 sample).1) = [])) /\
  (aligned sample -> aligned (trim 10 40 20 2 sample).1) /\
  pop (@nil MetaHit) = [] /\
  dropLast (mkResult [TextContent (lit "Found 2 results across 1 repo."); TextContent []] false
              (setHits [] (_meta sample)))
    = mkResult [TextContent (lit "Found 2 results across 1 repo.")] false
        (setHits [] (_meta sample)).
Proof.
  apply (summary_block_survives 10 40 20 2 sample (lit "Found 2 results across 1 repo.")).
  reflexivity.
Defined.
End SearchKnowledgeFacts.
(** * Further properties of [mapWithConcurrency]: progress, resolution, use of the limit *)
Module PoolFacts.
Import Concurrency Observed ConcurrencyFacts.

Section facts.
Context {T R E : Type}.
Variable items : list T.
Variable mapper : option T -> nat -> Invocation R E.
Variable options : ConcurrencyPoolOptions.

Local Abbreviation pool := (Pool T R E).
Local Abbreviation M := (maxConcurrentOf options).
Local Abbreviation tidy := (tidy items mapper options).
Local Abbreviation saturated := (@saturated T R E items options).
Local Abbreviation ledger := (@ledger T R E items options).

Lemma omap_id_insert_hole {A} (a : list (option A)) i v :
  a !! i = Some None ->
  length (omap id (<[i := Some v]> a)) = S (length (omap id a)).
Proof.
  revert i. induction a as [|x a IH]; intros [|i] H; try done.
  - cbn in H. inversion H; subst. done.
  - cbn in H. cbn [insert list_insert]. destruct x; cbn; rewrite IH; done.
Qed.

Lemma completed_record (p : pool) i s :
  results p !! i = Some None ->
  completed (record i s p) = S (completed p).
Proof.
  intros H. unfold completed, record. cbn [results]. unfold array_set.
  rewrite decide_True by (by eapply lookup_lt_Some).
  by apply omap_id_insert_hole.
Qed.

Lemma closing_progress (p : pool) :
  progress (closing items p) = progress p ++ [(completed p, length items)].
Proof. unfold closing, checkComplete. by destruct (_ && _ && _). Qed.

Lemma reports_S k N : reports (S k) N = reports k N ++ [(S k, N)].
Proof. unfold reports. by rewrite seq_S, fmap_app. Qed.

Lemma completed_le (p : pool) : tidy p -> ledger p -> (completed p <= length items)%nat.
Proof. intros [] []. lia. Qed.

(** Starting the next task keeps the ledger. *)
Lemma launch_ledger fuel (p : pool) :
  promising mapper -> tidy p -> ledger p -> (currentIndex p < length items)%nat ->
  Z.of_nat (length (awaiting p)) < M ->
  exists s p', runTask items mapper options (S fuel) (currentIndex p) (bump p) = Some p' /\
    tidy p' /\ ledger p' /\
    currentIndex p' = S (currentIndex p) /\
    awaiting p' = awaiting p ++ [(currentIndex p, s)] /\
    resolved p' = resolved p /\ completed p' = completed p /\
    peak p' = (peak p `max` S (length (awaiting p)))%nat.
Proof.
  intros Hm Ht Hl Hlt Hroom.
  destruct (launch_tidy items mapper options fuel p Hm Ht Hlt Hroom)
    as (s & p' & Hrun & Htp' & Hc & Ha & Hr & Hres).
  destruct (runTask_promising items mapper options fuel (currentIndex p) (bump p) Hm)
    as (s' & Hs' & Hrun').
  rewrite Hrun in Hrun'. inversion Hrun' as [Hp'].
  assert (Hcomp : completed p' = completed p) by (unfold completed; by rewrite Hres).
  assert (Hpk : peak p' = (peak p `max` S (length (awaiting p)))%nat) by (by rewrite Hp').
  assert (Hpr : progress p' = progress p) by (by rewrite Hp').
  exists s, p'. split; [done|]. split; [done|].
  destruct Hl as [L1 L2 L3 L4 (L5 & L5' & L5'') L6].
  split; [|done].
  split.
  - rewrite Hcomp, Hc, Ha, length_app. cbn. lia.
  - intros i. rewrite Hres, Hc, Ha, fmap_app, elem_of_app. cbn.
    rewrite list_elem_of_singleton. intros [[Hin| ->]|Hi]; apply L2; auto; lia.
  - rewrite Ha, fmap_app. cbn. apply NoDup_app. split; [done|]. split.
    + intros i Hin. rewrite list_elem_of_singleton. intros ->.
      apply list_elem_of_fmap in Hin as ([j s0] & Hj & Hin). cbn in Hj. subst j.
      destruct Ht as [_ _ _ _ H5 _ _]. destruct (H5 _ _ Hin). lia.
    + apply NoDup_singleton.
  - by rewrite Hpr, Hcomp.
  - rewrite Hpk, Hc, Ha, length_app. cbn. lia.
  - rewrite Hr, Hcomp. done.
Qed.

Lemma startBatch_ledger n (p : pool) :
  promising mapper -> tidy p -> ledger p -> (currentIndex p + n <= length items)%nat ->
  Z.of_nat (length (awaiting p) + n) <= M ->
  exists p', startBatch items mapper options n p = Some p' /\ tidy p' /\ ledger p' /\
    currentIndex p' = (currentIndex p + n)%nat /\
    length (awaiting p') = (length (awaiting p) + n)%nat /\
    resolved p' = resolved p /\ completed p' = completed p /\
    peak p' = (peak p `max` (if n is O then 0 else length (awaiting p) + n))%nat.
Proof.
  intros Hm. revert p. induction n as [|n IH]; intros p Ht Hl Hn Hroom; cbn [startBatch].
  - exists p. repeat (split; [done || lia|]). lia.
  - destruct (launch_ledger (length items) p Hm Ht Hl)
      as (s & q & Hq & Htq & Hlq & Hc & Ha & Hr & Hcomp & Hpk); [lia..|].
    fold (depth items) in Hq. rewrite Hq. cbn.
    destruct (IH q Htq Hlq) as (p' & Hp' & Htp' & Hlp' & Hc' & Ha' & Hr' & Hcomp' & Hpk').
    + lia.
    + rewrite Ha, length_app; cbn. lia.
    + exists p'. split; [done|]. split; [done|]. split; [done|].
      rewrite Hc', Ha', Hr', Hcomp', Hpk', Hc, Ha, Hr, Hcomp, Hpk, length_app; cbn [length].
      split; [lia|]. split; [lia|]. split; [done|]. split; [done|].
      destruct n; lia.
Qed.

(** A settlement records one more result and reports it. *)
Lemma resume_ledger k (p : pool) :
  promising mapper -> tidy p -> saturated p -> ledger p -> (k < length (awaiting p))%nat ->
  exists p', resume items mapper options k p = Some p' /\ tidy p' /\ saturated p' /\
    ledger p' /\ completed p' = S (completed p) /\ (peak p <= peak p')%nat.
Proof.
  intros Hm Ht Hsat Hl Hk.
  destruct (resume_tidy items mapper options k p Hm Ht Hsat Hk) as (p' & Hp' & Htp' & Hsp' & _).
  exists p'. split; [done|]. split; [done|]. split; [done|].
  destruct (lookup_lt_is_Some_2 _ _ Hk) as [[i s] Hlk].
  unfold resume in Hp'. rewrite Hlk in Hp'.
  pose proof Ht as [H1 H2 H3 H4 H5 H6 H7].
  pose proof Hl as [L1 L2 L3 L4 (L5 & L5' & L5'') L6].
  assert (Hin : (i, s) ∈ awaiting p) by (rewrite list_elem_of_lookup; eauto).
  destruct (H5 i s Hin) as [Hi Hs].
  assert (Hdel : length (delete k (awaiting p)) = (length (awaiting p) - 1)%nat)
    by (apply length_delete; eauto).
  assert (Hhole : results p !! i = Some None).
  { apply L2. left. apply list_elem_of_fmap. by exists (i, s). }
  set (q := record i s _) in Hp'.
  assert (Hcq : completed q = S (completed p)) by (subst q; by rewrite completed_record by exact Hhole).
  unfold finally in Hp'. fold (closing items q) in Hp'.
  destruct (closing_fields items q) as (Hcr & Hcc & Hca & Hcw & Hci & Hcp).
  pose proof (closing_resolved items q) as Hcres.
  assert (Hcomp : completed (closing items q) = S (completed p))
    by (unfold completed; rewrite Hcr; exact Hcq).
  assert (Hprog : progress (closing items q) = progress p ++ [(S (completed p), length items)]).
  { rewrite closing_progress, Hcq. subst q. by cbn. }
  assert (Hnd : NoDup (delete k (awaiting p)).*1).
  { rewrite <- (take_drop_middle _ _ _ Hlk) in L3.
    rewrite fmap_app in L3. cbn in L3. apply NoDup_app in L3 as (N1 & N2 & N3).
    apply NoDup_cons in N3 as [N3 N4].
    rewrite delete_take_drop, fmap_app. apply NoDup_app. split; [done|]. split; [|done].
    intros x Hx Hx'. apply (N2 x Hx). by right. }
  assert (Hnotin : i ∉ (delete k (awaiting p)).*1).
  { rewrite <- (take_drop_middle _ _ _ Hlk) in L3.
    rewrite fmap_app in L3. cbn in L3. apply NoDup_app in L3 as (N1 & N2 & N3).
    apply NoDup_cons in N3 as [N3 N4].
    rewrite delete_take_drop, fmap_app, elem_of_app. intros [Hx|Hx]; [|done].
    apply (N2 i Hx). by left. }
  assert (Hlq : ledger (closing items q)).
  { split; rewrite ?Hcomp, ?Hcr, ?Hcc, ?Hcw, ?Hcp.
    - subst q. cbn [record awaiting currentIndex]. lia.
    - intros j Hj. subst q. cbn [record results awaiting currentIndex] in *.
      assert (Hne : i <> j).
      { intros ->. destruct Hj as [Hj|Hj]; [done|lia]. }
      rewrite array_set_ne by (done || lia).
      apply L2. destruct Hj as [Hj|Hj]; [left|by right].
      apply list_elem_of_fmap in Hj as (x & -> & Hx).
      apply list_elem_of_fmap. exists x. split; [done|]. by eapply elem_of_delete_inv.
    - subst q. by cbn [record awaiting].
    - rewrite Hprog, L4. by rewrite reports_S.
    - subst q. cbn [record peak currentIndex awaiting]. lia.
    - rewrite Hcres. subst q. cbn [record resolved currentIndex activeCount awaiting].
      intros Hres. apply orb_true_iff in Hres as [Hres|Hres].
      + specialize (L6 Hres). lia.
      + apply andb_prop in Hres as [Ha Hb].
        apply bool_decide_eq_true in Ha, Hb. lia. }
  assert (Htq : tidy (closing items q)).
  { split; rewrite ?Hcr, ?Hcc, ?Hca, ?Hcw, ?Hci; subst q;
      cbn [record results currentIndex activeCount awaiting invoked].
    - done.
    - rewrite array_set_length; [done | lia].
    - lia.
    - lia.
    - intros j s' Hj. apply H5. by eapply elem_of_delete_inv.
    - intros j Hj. destruct (decide (j = i)) as [->|Hne].
      + right. eexists. rewrite array_set_eq by lia. split; [done|]. by exists s.
      + destruct (H6 j Hj) as [[s' Hs']|(r & Hr & He)].
        * destruct (elem_of_delete_or _ _ _ _ Hlk Hs') as [Heq|Hd]; [congruence|].
          left. by exists s'.
        * right. exists r. rewrite array_set_ne by (done || lia). done.
    - done. }
  destruct (_ && _ && _) eqn:Hcond.
  - apply andb_prop in Hcond as [Hcond _].
    apply andb_prop in Hcond as [Hlt Hroom].
    apply bool_decide_eq_true in Hlt. apply Z.ltb_lt in Hroom.
    destruct (launch_ledger (length items) (closing items q) Hm Htq Hlq Hlt)
      as (s' & p'' & Hp'' & _ & Hlp'' & _ & _ & _ & Hcomp'' & Hpk'').
    { destruct Htq. lia. }
    fold (depth items) in Hp''. rewrite Hp'' in Hp'. inversion Hp'; subst p''.
    split; [done|]. rewrite Hcomp'', Hcomp, Hpk'', Hcp. subst q. cbn [record peak]. lia.
  - inversion Hp'; subst p'. split; [done|]. rewrite Hcomp, Hcp. subst q. by cbn.
Qed.

(** [k] settlements, or as many as there are promises. *)
Lemma run_ledger sched (p : pool) :
  promising mapper -> tidy p -> saturated p -> ledger p ->
  exists p', run items mapper options sched p = Some p' /\ tidy p' /\ saturated p' /\
    ledger p' /\
    completed p' = ((completed p + length sched) `min` length items)%nat /\
    (peak p <= peak p')%nat.
Proof.
  intros Hm. revert p. induction sched as [|k sched IH]; intros p Ht Hs Hl; cbn [run].
  - exists p. repeat (split; [done|]). pose proof (completed_le p Ht Hl). cbn. lia.
  - destruct (awaiting p) as [|a l] eqn:Haw.
    + exists p. repeat (split; [done|]).
      destruct Hs as [_ Hres]. destruct Hl as [_ _ _ _ _ L6]. rewrite L6 by auto. lia.
    + rewrite <- Haw.
      destruct (resume_ledger (k mod length (awaiting p))%nat p Hm Ht Hs Hl)
        as (q & Hq & Htq & Hsq & Hlq & Hcq & Hpq).
      { apply Nat.mod_upper_bound. rewrite Haw. done. }
      rewrite Hq. cbn.
      destruct (IH q Htq Hsq Hlq) as (p' & Hp' & Htp' & Hsp' & Hlp' & Hcp' & Hpp').
      exists p'. repeat (split; [done|]). rewrite Hcp', Hcq. cbn [length]. lia.
Qed.

Lemma initialPool_ledger : ledger (initialPool items).
Proof.
  split; unfold initialPool, completed; cbn.
  - induction (length items); cbn; done.
  - intros i [Hi|Hi]; [by apply elem_of_nil in Hi|].
    apply lookup_replicate. split; [done|lia].
  - constructor.
  - replace (omap id (replicate (length items) None)) with (@nil (TaskResult R E)); [done|].
    induction (length items); cbn; done.
  - pose proof (maxConcurrentOf_pos options). lia.
  - done.
Qed.

Lemma initialPool_tidy : tidy (initialPool items).
Proof.
  split; unfold initialPool; cbn; try done; try lia.
  - by rewrite length_replicate.
  - pose proof (maxConcurrentOf_pos options). lia.
  - intros i s Hin. by apply elem_of_nil in Hin.
Qed.

(** The pool after any number of settlements. *)
Lemma mapWithConcurrency_ledger sched :
  promising mapper ->
  exists p, mapWithConcurrency items mapper options sched = Some p /\
    completed p = (length sched `min` length items)%nat /\
    progress p = reports (completed p) (length items) /\
    (resolved p = true <-> completed p = length items) /\
    currentIndex p = Z.to_nat (Z.min (Z.of_nat (length items)) (Z.of_nat (completed p) + M)) /\
    invoked p = (fun i => (items !! i, i)) <$> seq 0 (currentIndex p) /\
    peak p = Z.to_nat (Z.min M (Z.of_nat (length items))) /\
    length (awaiting p) = (currentIndex p - completed p)%nat.
Proof.
  intros Hm. unfold mapWithConcurrency.
  pose proof (maxConcurrentOf_pos options) as HM.
  destruct (decide _) as [Hz|Hne].
  { eexists. split; [done|]. unfold completed, reports. cbn.
    rewrite Hz. cbn. rewrite Nat.min_0_r. repeat split; try done; lia. }
  destruct (startBatch_ledger (initialBatch items options) (initialPool items) Hm
              initialPool_tidy initialPool_ledger)
    as (p0 & Hp0 & Ht0 & Hl0 & Hc0 & Ha0 & Hr0 & Hcomp0 & Hpk0).
  { unfold initialBatch, initialPool; cbn. lia. }
  { unfold initialBatch, initialPool; cbn. lia. }
  rewrite Hp0. cbn.
  assert (Hcz : completed (initialPool items : pool) = 0%nat).
  { pose proof initialPool_ledger as [Hz _ _ _ _ _]. unfold initialPool in *. cbn in *. lia. }
  unfold initialPool in Hc0, Ha0, Hr0, Hpk0; cbn in Hc0, Ha0, Hr0, Hpk0.
  assert (Hs0 : saturated p0).
  { split.
    - rewrite Ha0, Hc0. unfold initialBatch. lia.
    - intros Hnil. rewrite Hnil in Ha0. cbn in Ha0. unfold initialBatch in Ha0. lia. }
  destruct (run_ledger sched p0 Hm Ht0 Hs0 Hl0) as (p & Hp & Ht & Hs & Hl & Hcomp & Hpk).
  exists p. split; [done|].
  rewrite Hcomp0, Hcz in Hcomp. cbn in Hcomp.
  pose proof Ht as [H1 H2 H3 H4 H5 H6 H7].
  pose proof Hl as [L1 L2 L3 L4 (L5 & L5' & L5'') L6].
  destruct Hs as [Hsat Hres].
  split; [done|]. split; [done|]. split; [|split; [|split; [done|split]]].
  - split; [done|]. intros Hall. apply Hres. apply nil_length_inv. lia.
  - destruct (decide (currentIndex p < length items)%nat) as [Hlt|Hge].
    + specialize (Hsat Hlt). lia.
    + assert (currentIndex p = length items) by lia.
      destruct (decide (completed p = length items)) as [Hd|Hd]; [lia|].
      assert (Hpos : (0 < length (awaiting p))%nat) by lia.
(* every suspended frame took a slot: the pool stays full while results are owed *)
lia.
- assert (Hlow : (initialBatch items options <= peak p)%nat).
{ rewrite Hpk0 in Hpk. destruct (initialBatch items options) eqn:Hb; lia. }
unfold initialBatch in Hlow. lia.
- lia.
Qed.
End facts.

Import Examples.

(** X1. For a mapper that returns a promise at every call, after [k]
    settlements of a run over [N] items ([k] is the length of the schedule,
    or [N] if the schedule is longer) [onProgress] has been called exactly
    [k] times, with (1, N), (2, N), ..., (k, N) in this order, whatever the
    order of the settlements; and the promise of [mapWithConcurrency] is
    resolved if and only if all [N] promises have settled. For the empty
    input it is resolved at once, with no call of [onProgress]. *)
Theorem onProgress_counts_up {T R E} (items : list T)
    (mapper : option T -> nat -> Invocation R E) options sched :
  promising mapper ->
  exists p, mapWithConcurrency items mapper options sched = Some p /\
    progress p = reports (length sched `min` length items) (length items) /\
    (is_Some (returned p) <-> (length items <= length sched)%nat).
Proof.
  intros Hm.
  destruct (mapWithConcurrency_ledger items mapper options sched Hm)
    as (p & Hp & Hc & Hpr & Hres & _).
  exists p. split; [done|]. split; [by rewrite Hpr, Hc|].
  unfold returned. destruct (resolved p) eqn:Hr.
  - split; [|by eauto]. intros _. destruct Hres as [Hres _]. specialize (Hres eq_refl). lia.
  - split; [by intros [? ?]|]. intros Hlen. destruct Hres as [_ Hres].
    assert (Hall : completed p = length items) by lia.
    specialize (Hres Hall). congruence.
Qed.

Lemma onProgress_counts_up_witness :
  exists p, mapWithConcurrency three doubling (mkOptions (Some 2)) [1; 0]%nat = Some p /\
    progress p = reports (length [1; 0]%nat `min` length three) (length three) /\
    (is_Some (returned p) <-> (length three <= length [1; 0]%nat)%nat).
Proof.
  apply (onProgress_counts_up three doubling (mkOptions (Some 2)) [1; 0]%nat).
  intros item i. unfold doubling. destruct item; eauto.
Defined.

(** X2. For a mapper that returns a promise at every call, after [k]
    settlements the mapper has been called on exactly the first
    [min N (k + max 1 C)] items, in input order, so that the number of
    promises pending is [min N (k + max 1 C) - k]: a task is started as soon
    as a slot is free. The largest number of invocations in flight over the
    run is exactly [min (max 1 C) N]. *)
Theorem pool_stays_full {T R E} (items : list T)
    (mapper : option T -> nat -> Invocation R E) options sched :
  promising mapper ->
  exists p, mapWithConcurrency items mapper options sched = Some p /\
    let k := (length sched `min` length items)%nat in
    let started :=
      Z.to_nat (Z.min (Z.of_nat (length items)) (Z.of_nat k + maxConcurrentOf options)) in
    invoked p = ((fun i => (items !! i, i)) <$> seq 0 started) /\
    length (awaiting p) = (started - k)%nat /\
    peak p = Z.to_nat (Z.min (maxConcurrentOf options) (Z.of_nat (length items))).
Proof.
  intros Hm.
  destruct (mapWithConcurrency_ledger items mapper options sched Hm)
    as (p & Hp & Hc & _ & _ & Hcur & Hinv & Hpk & Haw).
  exists p. split; [done|]. cbn zeta. rewrite <- Hc, <- Hcur. done.
Qed.

Lemma pool_stays_full_witness :
  exists p, mapWithConcurrency three doubling (mkOptions (Some 2)) [1]%nat = Some p /\
    let k := (length [1]%nat `min` length three)%nat in
    let started :=
      Z.to_nat (Z.min (Z.of_nat (length three))
                  (Z.of_nat k + maxConcurrentOf (mkOptions (Some 2)))) in
    invoked p = ((fun i => (three !! i, i)) <$> seq 0 started) /\
    length (awaiting p) = (started - k)%nat /\
    peak p = Z.to_nat (Z.min (maxConcurrentOf (mkOptions (Some 2))) (Z.of_nat (length three))).
Proof.
  apply (pool_stays_full three doubling (mkOptions (Some 2)) [1]%nat).
  intros item i. unfold doubling. destruct item; eauto.
Defined.
End PoolFacts.
(** * What a request costs: calls of the remote service and time asleep *)
Module BudgetFacts.
Import SnippetFetcher Observed.

Section facts.
Variable remote : nat -> Z -> jsstring -> jsstring -> Z -> Z -> Reply.
Variable options : SnippetFetchOptions.

Local Abbreviation retry := (retryAttemptsOpt options).

Lemma slept_app a b : slept (a ++ b) = slept a + slept b.
Proof. unfold slept. induction a as [|[] a IH]; cbn; lia. Qed.

Lemma calls_app a b : calls (a ++ b) = (calls a + calls b)%nat.
Proof. unfold calls. induction a as [|[] a IH]; cbn; lia. Qed.

Lemma retryLoop_budget : forall n attempt last index request,
  Z.of_nat n = Z.max 0 (retry + 1 - attempt) -> 0 <= attempt ->
  let res := retryLoop remote options n attempt last index request in
  (calls res.2 <= n)%nat /\
  0 <= slept res.2 <= 100 * (2 ^ Z.max attempt retry - 2 ^ attempt) /\
  (forall e, res.1 = Rejected e -> isAbortError e = false -> calls res.2 = n) /\
  (forall v, res.1 = Fulfilled v -> (1 <= calls res.2)%nat).
Proof.
  induction n as [|n IH]; intros attempt last index request Hn Hpos; cbn zeta.
  - cbn. split; [done|]. split; [|done].
    assert (2 ^ attempt <= 2 ^ Z.max attempt retry) by (apply Z.pow_le_mono_r; lia). lia.
  - cbn [retryLoop].
    assert (Hle : attempt <= retry) by lia.
    assert (Hmono : 2 ^ attempt <= 2 ^ Z.max attempt retry) by (apply Z.pow_le_mono_r; lia).
    destruct (attemptOnce _ _ _ _ _) as [error|result].
    + destruct (isAbortError error) eqn:Hab.
      * cbn. split; [lia|]. split; [lia|]. split; [|done].
        intros e [= <-]. congruence.
      * specialize (IH (attempt + 1) error index request).
        destruct (retryLoop remote options n (attempt + 1) error index request) as [s tr].
        cbn [fst snd] in *.
        destruct IH as (Hc & Hs & Hrej & Hok); [lia..|].
        change (calls (?ev :: ?l)) with (S (calls l)).
        change (slept (Attempt ?a ?b ?c :: ?l)) with (slept l).
        rewrite calls_app, slept_app.
        assert (Hpow : 2 ^ (attempt + 1) = 2 * 2 ^ attempt) by (rewrite Z.pow_add_r; lia).
        destruct (attempt <? retry) eqn:Hlt.
        -- apply Z.ltb_lt in Hlt. cbn.
           replace (Z.max (attempt + 1) retry) with (Z.max attempt retry) in Hs by lia.
           split; [lia|]. split; [lia|]. split.
           ++ intros e He Hne. rewrite (Hrej e He Hne). done.
           ++ intros v Hv. lia.
        -- apply Z.ltb_ge in Hlt. cbn.
           assert (n = 0%nat) by lia. subst n.
           split; [lia|]. split.
           { replace (Z.max (attempt + 1) retry) with (attempt + 1) in Hs by lia. lia. }
           split.
           ++ intros e He Hne. rewrite (Hrej e He Hne). done.
           ++ intros v Hv. lia.
    + cbn. split; [lia|]. split; [lia|]. split; [done|]. intros v _. lia.
Qed.
Lemma retryLoop_window : forall n attempt last index request a s e,
  Attempt a s e ∈ (retryLoop remote options n attempt last index request).2 ->
  s = fetchStartLineOf request /\ e = fetchEndLineOf request.
Proof.
  induction n as [|n IH]; intros attempt last index request a s e; cbn [retryLoop].
  - intros H. by apply elem_of_nil in H.
  - destruct (attemptOnce _ _ _ _ _) as [error|result].
    + destruct (isAbortError error).
      * cbn. intros H. apply list_elem_of_singleton in H. by inversion H.
      * specialize (IH (attempt + 1) error index request a s e).
        destruct (retryLoop remote options n (attempt + 1) error index request) as [s0 tr].
        cbn [snd] in *. intros H. apply elem_of_cons in H as [H|H]; [by inversion H|].
        apply elem_of_app in H as [H|H]; [|by apply IH].
        destruct (attempt <? retry); [|by apply elem_of_nil in H].
        apply list_elem_of_singleton in H. done.
    + cbn. intros H. apply list_elem_of_singleton in H. by inversion H.
Qed.
End facts.

(** X3. Whatever the remote service answers, a request costs at most
    [retryAttempts + 1] calls of it (none when [retryAttempts] is negative)
    and at most [100 * (2 ^ retryAttempts - 1)] milliseconds of back-off. A
    request that is given up with an error other than an [AbortError] has
    used the whole budget of calls, and a request that succeeds has made at
    least one call. *)
Theorem fetchWithRetry_within_budget remote options index request :
  let res := fetchWithRetry remote options index request in
  Z.of_nat (calls res.2) <= Z.max 0 (retryAttemptsOpt options + 1) /\
  0 <= slept res.2 <= 100 * (2 ^ Z.max 0 (retryAttemptsOpt options) - 1) /\
  (forall e, res.1 = Rejected e -> isAbortError e = false ->
     Z.of_nat (calls res.2) = Z.max 0 (retryAttemptsOpt options + 1)) /\
  (forall v, res.1 = Fulfilled v -> (1 <= calls res.2)%nat).
Proof.
  cbn zeta. unfold fetchWithRetry.
  destruct (retryLoop_budget remote options (Z.to_nat (retryAttemptsOpt options + 1)) 0
              Undefined index request) as (Hc & Hs & Hrej & Hok); [lia..|].
  cbn zeta in *. split; [lia|]. split; [cbn in Hs; lia|]. split; [|done].
  intros e He Hne. rewrite (Hrej e He Hne). lia.
Qed.

(** X4. Every call of the remote service for a request asks for the same
    window of lines, from [max 1 (startLine - contextLinesBefore)] to
    [endLine + contextLinesAfter]: it never starts before line 1, and for
    context counts that are not negative and a chunk that starts at line 1
    or later it contains the chunk and exceeds it by no more than the
    context asked for. A request made by [requestsFromHits] carries no
    context: its window is the chunk, clamped to line 1. The handler asks
    for the context of its input on the trimmed repository name. *)
Theorem fetched_window_contains_the_chunk remote options index request :
  (forall a s e, Attempt a s e ∈ (fetchWithRetry remote options index request).2 ->
     s = fetchStartLineOf request /\ e = fetchEndLineOf request) /\
  1 <= fetchStartLineOf request /\
  (forall b c, contextLinesBefore request = Some b -> contextLinesAfter request = Some c ->
     0 <= b -> 0 <= c -> 1 <= startLine request ->
     startLine request - b <= fetchStartLineOf request <= startLine request /\
     fetchEndLineOf request = endLine request + c) /\
  (forall hits i made, SnippetRequests.requestsFromHits hits !! i = Some made ->
     exists hit, hits !! i = Some hit /\
       fetchStartLineOf made = Z.max 1 (SnippetRequests.hit_start_line hit) /\
       fetchEndLineOf made = SnippetRequests.hit_end_line hit) /\
  (forall input hit,
     fetchStartLineOf (SearchHandler.snippetRequest input hit)
       = Z.max 1 (SearchHandler.a_start_line hit
                  - default 0 (SearchHandler.context_lines_before input)) /\
     fetchEndLineOf (SearchHandler.snippetRequest input hit)
       = SearchHandler.a_end_line hit + default 0 (SearchHandler.context_lines_after input) /\
     repo (SearchHandler.snippetRequest input hit) = trim (SearchHandler.a_repo hit)).
Proof.
  split; [intros a s e; apply retryLoop_window|].
  split; [unfold fetchStartLineOf; lia|]. split; [|split].
  - intros b c Hb Hc Hb0 Hc0 Hs. unfold fetchStartLineOf, fetchEndLineOf.
    rewrite Hb, Hc. cbn. lia.
  - intros hits i made H. unfold SnippetRequests.requestsFromHits in H.
    rewrite list_lookup_fmap in H. destruct (hits !! i) as [hit|]; [|done].
    cbn in H. inversion H; subst. exists hit. split; [done|].
    unfold fetchStartLineOf, fetchEndLineOf. cbn. split; [f_equal; lia|lia].
  - intros input hit. unfold SearchHandler.snippetRequest, fetchStartLineOf, fetchEndLineOf,
      SearchHandler.orNumber, SearchHandler.nonzero. cbn.
    split; [|split; [|done]].
    + destruct (SearchHandler.context_lines_before input) as [b|]; [|done]. cbn.
      destruct (b =? 0) eqn:Hb; [apply Z.eqb_eq in Hb; by subst|done].
    + destruct (SearchHandler.context_lines_after input) as [c|]; [|done]. cbn.
      destruct (c =? 0) eqn:Hc; [apply Z.eqb_eq in Hc; by subst|done].
Qed.
End BudgetFacts.
(** * Properties of the configuration *)
Module ConfigFacts.
Import JsText PayloadCap Config SnippetFetcher.

(** *** [parseInt] reads what [String(n)] prints *)

(** The digits of a decimal numeral, most significant first. *)
Lemma digitsOf_numeral (d : Decimal.uint) (rest : jsstring) :
  exists ds,
    digitsOf (lit (DecimalString.NilEmpty.string_of_uint d) ++ rest) = ds ++ digitsOf rest /\
    (forall acc, foldl (fun acc d => 10 * acc + d) (Z.pos acc) ds = Z.pos (Pos.of_uint_acc d acc)) /\
    foldl (fun acc d => 10 * acc + d) 0 ds = Z.of_N (Pos.of_uint d) /\
    (d <> Decimal.Nil -> ds <> []).
Proof.
  induction d as [|d IH|d IH|d IH|d IH|d IH|d IH|d IH|d IH|d IH|d IH];
    [exists []; by repeat split|..];
    destruct IH as (ds & Hds & Hacc & Hval & _);
    [exists (0 :: ds)|exists (1 :: ds)|exists (2 :: ds)|exists (3 :: ds)|exists (4 :: ds)
    |exists (5 :: ds)|exists (6 :: ds)|exists (7 :: ds)|exists (8 :: ds)|exists (9 :: ds)];
    (split; [cbn [DecimalString.NilEmpty.string_of_uint]; unfold lit in *; cbn; by rewrite Hds|]);
    (split; [intros acc; cbn [foldl Pos.of_uint_acc]; rewrite <- Hacc; f_equal; lia|]);
    (split; [|done]);
    cbn [foldl Pos.of_uint]; try exact Hval;
    change (10 * 0 + ?k) with k; apply (Hacc _).
Qed.

Lemma trimStart_blank ws s :
  Forall (fun u => isWhiteSpace u = true) ws -> trimStart (ws ++ s) = trimStart s.
Proof. induction 1 as [|u ws Hu _ IH]; [done|]. cbn. by rewrite Hu. Qed.

Lemma digit_range u d : digitOf u = Some d -> (48 <= u <= 57)%N /\ d = Z.of_N u - 48.
Proof.
  unfold digitOf. destruct (_ && _) eqn:H; [|done]. intros [= <-].
  apply andb_prop in H as [H1 H2]. apply N.leb_le in H1, H2. by split.
Qed.

Lemma digit_plain u d :
  digitOf u = Some d -> isWhiteSpace u = false /\ u <> 45%N /\ u <> 43%N.
Proof.
  intros H. apply digit_range in H as [[H1 H2] _].
  assert (Hu : (u = 48 \/ u = 49 \/ u = 50 \/ u = 51 \/ u = 52 \/ u = 53 \/ u = 54 \/ u = 55
                \/ u = 56 \/ u = 57)%N) by lia.
  repeat destruct Hu as [->|Hu]; try subst u; by vm_compute.
Qed.

Lemma parseInt_digits u s d :
  digitOf u = Some d -> parseInt (u :: s) = Some (valueOf (digitsOf (u :: s))).
Proof.
  intros H. apply digit_range in H as [[H1 H2] _].
  assert (Hu : (u = 48 \/ u = 49 \/ u = 50 \/ u = 51 \/ u = 52 \/ u = 53 \/ u = 54 \/ u = 55
                \/ u = 56 \/ u = 57)%N) by lia.
  repeat destruct Hu as [->|Hu]; try subst u;
    unfold parseInt; cbn [trimStart];
    match goal with
    | |- context [isWhiteSpace ?x] => change (isWhiteSpace x) with false
    end;
    cbn iota beta; cbn [digitsOf];
    match goal with
    | |- context [digitOf ?x] =>
        let v := eval vm_compute in (digitOf x) in change (digitOf x) with v
    end;
    cbn iota beta; f_equal; lia.
Qed.

Lemma parseInt_minus s :
  parseInt (45%N :: s) = match digitsOf s with [] => None | ds => Some (- valueOf ds) end.
Proof.
  unfold parseInt. cbn [trimStart]. change (isWhiteSpace 45) with false. cbn iota.
  destruct (digitsOf s); [done|]. f_equal; lia.
Qed.

Lemma numeral_value p rest :
  digitsOf rest = [] ->
  exists u s d, lit (DecimalString.NilEmpty.string_of_uint (Pos.to_uint p)) ++ rest = u :: s /\
    digitOf u = Some d /\ valueOf (digitsOf (u :: s)) = Z.pos p.
Proof.
  intros Hrest.
  pose proof (DecimalPos.Unsigned.to_uint_nonnil p) as Hnil.
  pose proof (DecimalPos.Unsigned.of_to p) as Hof.
  destruct (digitsOf_numeral (Pos.to_uint p) rest) as (ds & Hds & _ & Hval & Hne).
  specialize (Hne Hnil). rewrite Hrest, app_nil_r in Hds.
  assert (Hv : valueOf (digitsOf (lit (DecimalString.NilEmpty.string_of_uint (Pos.to_uint p))
                                   ++ rest)) = Z.pos p).
  { rewrite Hds. unfold valueOf. rewrite Hval, Hof. done. }
  destruct (lit _ ++ rest) as [|u s] eqn:Hs.
  { cbn in Hds. congruence. }
  exists u, s. cbn [digitsOf] in Hds. destruct (digitOf u) as [d|] eqn:Hd; [|congruence].
  exists d. done.
Qed.

Lemma parseInt_numeral ws (n : Z) rest :
  Forall (fun u => isWhiteSpace u = true) ws -> digitsOf rest = [] ->
  parseInt (ws ++ decimal n ++ rest) = Some n.
Proof.
  intros Hws Hrest.
  assert (Hblank : parseInt (ws ++ decimal n ++ rest) = parseInt (decimal n ++ rest)).
  { unfold parseInt. rewrite trimStart_blank by done. done. }
  rewrite Hblank. clear Hblank.
  unfold decimal. destruct n as [|p|p]; cbn [Z.to_int DecimalString.NilZero.string_of_int].
  - change (lit (DecimalString.NilZero.string_of_uint (Decimal.D0 Decimal.Nil)) ++ rest)
      with (48%N :: rest).
    rewrite (parseInt_digits 48 rest 0) by done. cbn [digitsOf].
    change (digitOf 48) with (Some 0). rewrite Hrest. done.
  - destruct (numeral_value p rest Hrest) as (u & s & d & Hs & Hd & Hv).
    pose proof (DecimalPos.Unsigned.to_uint_nonnil p) as Hnil.
    assert (Hz : DecimalString.NilZero.string_of_uint (Pos.to_uint p)
                 = DecimalString.NilEmpty.string_of_uint (Pos.to_uint p))
      by (by destruct (Pos.to_uint p)).
    rewrite Hz, Hs, (parseInt_digits u s d Hd), Hv. done.
  - destruct (numeral_value p rest Hrest) as (u & s & d & Hs & Hd & Hv).
    pose proof (DecimalPos.Unsigned.to_uint_nonnil p) as Hnil.
    assert (Hz : DecimalString.NilZero.string_of_uint (Pos.to_uint p)
                 = DecimalString.NilEmpty.string_of_uint (Pos.to_uint p))
      by (by destruct (Pos.to_uint p)).
    change (lit (String.String ?a ?t)) with (Ascii.N_of_ascii a :: lit t).
    change (Ascii.N_of_ascii _) with 45%N. cbn [app].
    rewrite parseInt_minus, Hz, Hs.
    cbn [digitsOf] in Hv |- *. rewrite Hd in Hv |- *. rewrite Hv. done.
Qed.

(** *** [getIntConfig] and the limits *)

Lemma getIntConfig_range envVar d lo hi :
  lo <= hi -> lo <= d <= hi -> lo <= getIntConfig envVar d lo hi <= hi.
Proof.
  intros Hle Hd. unfold getIntConfig.
  destruct (truthy envVar); [destruct (parseInt _)|]; lia.
Qed.

Lemma CONFIG_limits env :
  MIN_CONCURRENT <= MAX_CONCURRENT_SNIPPET_FETCH (CONFIG env) <= MAX_CONCURRENT /\
  MIN_TIMEOUT <= SNIPPET_FETCH_TIMEOUT_MS (CONFIG env) <= MAX_TIMEOUT /\
  MIN_RETRIES <= SNIPPET_FETCH_RETRY_ATTEMPTS (CONFIG env) <= MAX_RETRIES.
Proof.
  unfold CONFIG. cbn [MAX_CONCURRENT_SNIPPET_FETCH SNIPPET_FETCH_TIMEOUT_MS
                        SNIPPET_FETCH_RETRY_ATTEMPTS].
  repeat split; apply getIntConfig_range; by vm_compute.
Qed.

(** *** [trim] *)

Lemma trimStart_head s :
  match trimStart s with u :: _ => isWhiteSpace u = false | [] => True end.
Proof.
  induction s as [|u s IH]; [done|]. cbn. destruct (isWhiteSpace u) eqn:Hu; [done|]. done.
Qed.

Lemma trimStart_suffix s : exists ws, s = ws ++ trimStart s.
Proof.
  induction s as [|u s [ws IH]]; [by exists []|]. cbn. destruct (isWhiteSpace u).
  - exists (u :: ws). cbn. by rewrite <- IH.
  - by exists [].
Qed.

Lemma trimStart_keep s :
  match s with u :: _ => isWhiteSpace u = false | [] => True end -> trimStart s = s.
Proof. destruct s as [|u s]; [done|]. cbn. by intros ->. Qed.

Lemma trim_bare s : bare (trim s) = true.
Proof.
  unfold trim, bare. set (s1 := trimStart s). set (t := trimStart (reverse s1)).
  rewrite reverse_involutive.
  pose proof (trimStart_head (reverse s1)) as Ht. fold t in Ht.
  pose proof (trimStart_head s) as Hs1. fold s1 in Hs1.
  destruct (trimStart_suffix (reverse s1)) as [ws Hws]. fold t in Hws.
  apply andb_true_iff. split.
  - destruct t as [|v t'] eqn:Et; [done|].
    assert (Hr : s1 = reverse (v :: t') ++ reverse ws).
    { rewrite <- reverse_app, <- Hws. by rewrite reverse_involutive. }
    destruct (reverse (v :: t')) as [|w r] eqn:Er.
    + apply (f_equal length) in Er. rewrite length_reverse in Er. done.
    + rewrite Hr in Hs1. cbn in Hs1. by rewrite Hs1.
  - destruct t as [|v t']; [done|]. by rewrite Ht.
Qed.

Lemma bare_trim s : bare s = true -> trim s = s.
Proof.
  unfold bare, trim. intros H. apply andb_true_iff in H as [H1 H2].
  rewrite (trimStart_keep s).
  - rewrite (trimStart_keep (reverse s)); [apply reverse_involutive|].
    destruct (reverse s); [done|]. by apply negb_true_iff.
  - destruct s; [done|]. by apply negb_true_iff.
Qed.

Lemma getStringConfig_bare envVar d :
  d <> [] -> bare d = true ->
  getStringConfig envVar d <> [] /\ bare (getStringConfig envVar d) = true.
Proof.
  intros Hd Hb. unfold getStringConfig. destruct envVar as [s|]; [|done].
  destruct (bool_decide _) eqn:He; [done|].
  apply bool_decide_eq_false in He. split; [done|apply trim_bare].
Qed.

(** X5. Whatever the environment holds, the three numbers of [CONFIG] lie
    within [CONFIG_LIMITS]: the concurrency between 1 and 12, the timeout
    between 500 and 10000 ms, the retries between 0 and 3; in general
    [getIntConfig] returns a value between [min] and [max] whenever the
    default lies between them. The four strings of [CONFIG] are never empty
    and have no white space at either end. *)
Theorem CONFIG_within_limits :
  (forall envVar d lo hi, lo <= hi -> lo <= d <= hi -> lo <= getIntConfig envVar d lo hi <= hi) /\
  (forall env,
     1 <= MAX_CONCURRENT_SNIPPET_FETCH (CONFIG env) <= 12 /\
     500 <= SNIPPET_FETCH_TIMEOUT_MS (CONFIG env) <= 10000 /\
     0 <= SNIPPET_FETCH_RETRY_ATTEMPTS (CONFIG env) <= 3 /\
     Forall (fun s => s <> [] /\ bare s = true)
       [DOLPHIN_API_URL (CONFIG env); SERVER_NAME (CONFIG env);
        SERVER_VERSION (CONFIG env); LOG_LEVEL (CONFIG env)]).
Proof.
  split; [apply getIntConfig_range|]. intros env.
  destruct (CONFIG_limits env) as (H1 & H2 & H3).
  split; [exact H1|]. split; [exact H2|]. split; [exact H3|].
  unfold CONFIG. cbn [DOLPHIN_API_URL SERVER_NAME SERVER_VERSION LOG_LEVEL].
  repeat constructor; apply getStringConfig_bare; by vm_compute.
Qed.

(** X6. On the configuration computed from any environment,
    [validateConfig] reports at most the URL and the log level: its six
    checks of the concurrency, the timeout and the retries against
    [CONFIG_LIMITS] never add a warning, since [getIntConfig] has clamped
    the values. *)
Theorem validateConfig_numbers_never_warn isURL env :
  validateConfig isURL (CONFIG env)
    = (if isURL (DOLPHIN_API_URL (CONFIG env)) then []
       else [lit "Invalid DOLPHIN_API_URL format: " ++ DOLPHIN_API_URL (CONFIG env)])
      ++ (if bool_decide (LOG_LEVEL (CONFIG env) ∈ validLogLevels) then []
          else [lit "Invalid LOG_LEVEL: " ++ LOG_LEVEL (CONFIG env)
                  ++ lit ". Valid: debug, info, warn, error"]).
Proof.
  destruct (CONFIG_limits env) as (H1 & H2 & H3).
  unfold validateConfig.
  rewrite (proj2 (Z.ltb_ge _ _)) by lia. rewrite (proj2 (Z.ltb_ge _ _)) by lia.
  rewrite (proj2 (Z.ltb_ge _ _)) by lia. rewrite (proj2 (Z.ltb_ge _ _)) by lia.
  rewrite (proj2 (Z.ltb_ge _ _)) by lia. rewrite (proj2 (Z.ltb_ge _ _)) by lia.
  rewrite !app_nil_r. done.
Qed.

(** X7. [parseInt] reads back what [String(n)] prints: for every safe
    integer [n], white space [ws] before it and text [rest] after it that
    does not begin with a digit, [parseInt(ws + n + rest, 10)] is [n], so
    that [getIntConfig] returns [n] clamped between [min] and [max]. A
    numeral whose value is [max] or more, however long, gives the greater
    of [min] and [max], and one whose value is [min] or less gives [min].
    A value in which no digit follows the optional sign gives [NaN], for
    which [getIntConfig] returns the default as it is, not clamped. *)
Theorem getIntConfig_reads_decimal ws (n : Z) rest d lo hi :
  Forall (fun u => isWhiteSpace u = true) ws ->
  digitsOf rest = [] ->
  isSafeInteger n = true -> isSafeInteger lo = true -> isSafeInteger hi = true ->
  parseInt (ws ++ decimal n ++ rest) = Some n /\
  getIntConfig (Some (ws ++ decimal n ++ rest)) d lo hi = Z.max lo (Z.min hi n) /\
  (forall s v, s <> [] -> parseInt s = Some v -> hi <= v ->
     getIntConfig (Some s) d lo hi = Z.max lo hi) /\
  (forall s v, s <> [] -> parseInt s = Some v -> v <= lo ->
     getIntConfig (Some s) d lo hi = lo) /\
  (forall s, s <> [] -> parseInt s = None -> getIntConfig (Some s) d lo hi = d).
Proof.
  intros Hws Hrest _ _ _. pose proof (parseInt_numeral ws n rest Hws Hrest) as Hp.
  assert (Hread : forall s, s <> [] ->
            getIntConfig (Some s) d lo hi
            = match parseInt s with Some v => Z.max lo (Z.min hi v) | None => d end).
  { intros s Hs. unfold getIntConfig. destruct s; [done|]. cbn [truthy].
    change (default [] (Some ?x)) with x. done. }
  split; [done|]. split.
  - rewrite Hread, Hp; [done|]. intros E. rewrite E in Hp. by vm_compute in Hp.
  - split; [|split].
    + intros s v Hs Hv Hle. rewrite Hread, Hv by done. lia.
    + intros s v Hs Hv Hle. rewrite Hread, Hv by done. lia.
    + intros s Hs Hnan. by rewrite Hread, Hnan.
Qed.

Lemma getIntConfig_reads_decimal_witness :
  parseInt (lit " " ++ decimal 12 ++ lit "abc") = Some 12 /\
  getIntConfig (Some (lit " " ++ decimal 12 ++ lit "abc")) 8 1 10 = Z.max 1 (Z.min 10 12) /\
  (forall s v, s <> [] -> parseInt s = Some v -> 10 <= v ->
     getIntConfig (Some s) 8 1 10 = Z.max 1 10) /\
  (forall s v, s <> [] -> parseInt s = Some v -> v <= 1 ->
     getIntConfig (Some s) 8 1 10 = 1) /\
  (forall s, s <> [] -> parseInt s = None -> getIntConfig (Some s) 8 1 10 = 8).
Proof.
  apply (getIntConfig_reads_decimal (lit " ") 12 (lit "abc") 8 1 10).
  - repeat constructor.
  - reflexivity.
  - reflexivity.
  - reflexivity.
  - reflexivity.
Defined.

(** X8. [getBaseUrl] returns [KB_REST_BASE_URL] when it is set and not
    empty, whatever [DOLPHIN_API_URL] holds; otherwise [DOLPHIN_API_URL]
    as it is when that is set and not empty; otherwise
    [CONFIG.DOLPHIN_API_URL]. With a configuration read from an
    environment it is never empty. It agrees with [CONFIG.DOLPHIN_API_URL],
    for which [DOLPHIN_API_URL] comes first and is trimmed, when
    [KB_REST_BASE_URL] is unset or empty and [DOLPHIN_API_URL], if set,
    has no white space at either end; when both are set, [getBaseUrl]
    gives [KB_REST_BASE_URL] and the configuration [DOLPHIN_API_URL]. *)
Theorem getBaseUrl_agrees_with_CONFIG config env :
  (forall k, env_KB_REST_BASE_URL env = Some k -> k <> [] -> getBaseUrl config env = k) /\
  (forall d, truthy (env_KB_REST_BASE_URL env) = false ->
     env_DOLPHIN_API_URL env = Some d -> d <> [] -> getBaseUrl config env = d) /\
  (truthy (env_KB_REST_BASE_URL env) = false -> truthy (env_DOLPHIN_API_URL env) = false ->
     getBaseUrl config env = DOLPHIN_API_URL config) /\
  (forall loaded, getBaseUrl (CONFIG loaded) env <> []) /\
  (truthy (env_KB_REST_BASE_URL env) = false ->
     (forall d, env_DOLPHIN_API_URL env = Some d -> bare d = true) ->
     getBaseUrl (CONFIG env) env = DOLPHIN_API_URL (CONFIG env)) /\
  (forall k d, env_KB_REST_BASE_URL env = Some k -> k <> [] ->
     env_DOLPHIN_API_URL env = Some d -> d <> [] -> bare d = true ->
     getBaseUrl (CONFIG env) env = k /\ DOLPHIN_API_URL (CONFIG env) = d).
Proof.
  assert (Hkb : forall c k, env_KB_REST_BASE_URL env = Some k -> k <> [] ->
            getBaseUrl c env = k).
  { intros c k Ek Hne. unfold getBaseUrl, orElse. rewrite Ek. by destruct k. }
  split; [apply Hkb|]. split.
  { intros d Hk Ed Hne. unfold getBaseUrl, orElse. rewrite Hk, Ed. by destruct d. }
  split.
  { intros Hk Hd. unfold getBaseUrl, orElse. by rewrite Hk, Hd. }
  split.
  { intros loaded. unfold getBaseUrl.
    destruct (truthy (orElse _ _)) eqn:Ht.
    - destruct (orElse _ _) as [[|? ?]|]; done.
    - unfold CONFIG. cbn [DOLPHIN_API_URL].
      refine (proj1 (getStringConfig_bare _ _ _ _)); by vm_compute. }
  split.
  { intros Hk Hd. unfold getBaseUrl, CONFIG, orElse. cbn [DOLPHIN_API_URL]. rewrite Hk.
    destruct (env_DOLPHIN_API_URL env) as [d|] eqn:Ed.
    + destruct d as [|u d]; cbn [truthy default].
      * destruct (env_KB_REST_BASE_URL env) as [[|? ?]|]; try done.
      * unfold getStringConfig. rewrite (bare_trim (u :: d)) by (by apply Hd).
        by rewrite bool_decide_eq_false_2.
    + cbn [truthy]. destruct (env_KB_REST_BASE_URL env) as [[|? ?]|]; try done. }
  intros k d Ek Hk Ed Hd Hb. split; [by apply Hkb|].
  unfold CONFIG, orElse. cbn [DOLPHIN_API_URL]. rewrite Ed.
  destruct d as [|u d]; [done|]. cbn [truthy].
  unfold getStringConfig. rewrite (bare_trim (u :: d)) by done.
  by rewrite bool_decide_eq_false_2.
Qed.

Lemma getBaseUrl_agrees_with_CONFIG_witness :
  getBaseUrl
    (CONFIG (mkEnv (Some (lit "http://dolphin:7777")) (Some (lit "http://kb:7777"))
               None None None None None None))
    (mkEnv (Some (lit "http://dolphin:7777")) (Some (lit "http://kb:7777"))
       None None None None None None)
  = lit "http://kb:7777" /\
  DOLPHIN_API_URL
    (CONFIG (mkEnv (Some (lit "http://dolphin:7777")) (Some (lit "http://kb:7777"))
               None None None None None None))
  = lit "http://dolphin:7777".
Proof.
  apply (getBaseUrl_agrees_with_CONFIG
           (CONFIG (mkEnv (Some (lit "http://dolphin:7777")) (Some (lit "http://kb:7777"))
                      None None None None None None))
           (mkEnv (Some (lit "http://dolphin:7777")) (Some (lit "http://kb:7777"))
              None None None None None None)).
  - reflexivity.
  - discriminate.
  - reflexivity.
  - discriminate.
  - reflexivity.
Defined.

(** X9. With the options the handler takes from [CONFIG], whatever the
    environment holds: a hit costs at most four calls of the file service
    and at most 700 ms of back-off, each call is given between 500 and
    10000 ms, and no more than twelve snippet fetches are in flight
    together. *)
Theorem configured_fetch_is_bounded env signal remote index request requests sched :
  let options := fetchOptions (CONFIG env) signal in
  (Observed.calls (fetchWithRetry remote options index request).2 <= 4)%nat /\
  0 <= Observed.slept (fetchWithRetry remote options index request).2 <= 700 /\
  500 <= requestTimeoutMsOpt options <= 10000 /\
  exists p,
    Concurrency.mapWithConcurrency requests (snippetMapper remote options)
      (Concurrency.mkOptions (Some (maxConcurrentOpt options))) sched = Some p /\
    (Concurrency.peak p <= 12)%nat.
Proof.
  cbn zeta. destruct (CONFIG_limits env) as (H1 & H2 & H3).
  unfold MIN_CONCURRENT, MAX_CONCURRENT, MIN_TIMEOUT, MAX_TIMEOUT, MIN_RETRIES, MAX_RETRIES
    in *.
  set (options := fetchOptions (CONFIG env) signal).
  assert (Hr : retryAttemptsOpt options = SNIPPET_FETCH_RETRY_ATTEMPTS (CONFIG env)) by done.
  assert (Ht : requestTimeoutMsOpt options = SNIPPET_FETCH_TIMEOUT_MS (CONFIG env)) by done.
  assert (Hc : maxConcurrentOpt options = MAX_CONCURRENT_SNIPPET_FETCH (CONFIG env)) by done.
  destruct (BudgetFacts.retryLoop_budget remote options
              (Z.to_nat (retryAttemptsOpt options + 1)) 0 Undefined index request)
    as (Hcalls & Hslept & _); [lia..|].
  cbn zeta in Hcalls, Hslept. fold (fetchWithRetry remote options index request) in *.
  assert (Hpow : 2 ^ Z.max 0 (retryAttemptsOpt options) <= 2 ^ 3)
    by (apply Z.pow_le_mono_r; lia).
  split; [lia|]. split; [cbn in Hslept, Hpow; lia|]. split; [lia|].
  destruct (ConcurrencyFacts.mapWithConcurrency_steady requests (snippetMapper remote options)
              (Concurrency.mkOptions (Some (maxConcurrentOpt options))) sched)
    as (p & Hp & _ & Hpk & _).
  exists p. split; [done|].
  change (Concurrency.maxConcurrentOf _) with (Z.max 1 (maxConcurrentOpt options)) in Hpk.
  rewrite Hc in Hpk. lia.
Qed.
End ConfigFacts.
(** * Properties of the language table *)
Module LanguageFacts.
Import JsText Language.

Lemma find_unique {A} (P : A -> bool) (l : list A) (m : A) :
  m ∈ l -> P m = true -> (forall m', m' ∈ l -> P m' = true -> m' = m) ->
  List.find P l = Some m.
Proof.
  induction l as [|x l IH]; intros Hin HP Huniq.
  - by apply elem_of_nil in Hin.
  - cbn. destruct (P x) eqn:Hx.
    + f_equal. apply Huniq; [by left|done].
    + apply IH; [|done|].
      * apply elem_of_cons in Hin as [->|Hin]; [congruence|done].
      * intros m' Hm'. apply Huniq. by right.
Qed.

Lemma find_none {A} (P : A -> bool) (l : list A) :
  (forall m, m ∈ l -> P m = false) -> List.find P l = None.
Proof.
  induction l as [|x l IH]; intros H; [done|]. cbn.
  rewrite (H x) by (by left). apply IH. intros m Hm. apply H. by right.
Qed.

Lemma find_some {A} (P : A -> bool) (l : list A) (m : A) :
  List.find P l = Some m -> m ∈ l /\ P m = true.
Proof.
  induction l as [|x l IH]; [done|]. cbn. destruct (P x) eqn:Hx.
  - intros [= <-]. split; [by left|done].
  - intros H. destruct (IH H). split; [by right|done].
Qed.

(** A string that ends with two extensions makes them overlap. *)
Lemma endsWith_both s e1 e2 :
  endsWith s e1 = true -> endsWith s e2 = true -> overlap e1 e2 = true.
Proof.
  unfold endsWith, overlap. intros H1 H2.
  apply bool_decide_eq_true in H1, H2.
  assert (L1 : (length e1 <= length s)%nat).
  { apply (f_equal length) in H1. rewrite length_drop in H1. lia. }
  assert (L2 : (length e2 <= length s)%nat).
  { apply (f_equal length) in H2. rewrite length_drop in H2. lia. }
  apply orb_true_iff.
  destruct (decide (length e1 <= length e2)%nat) as [Hle|Hgt].
  - right. apply bool_decide_eq_true.
    rewrite <- H2 at 2. rewrite drop_drop.
    replace (length s - length e2 + (length e2 - length e1))%nat
      with (length s - length e1)%nat by lia. done.
  - left. apply bool_decide_eq_true.
    rewrite <- H1 at 2. rewrite drop_drop.
    replace (length s - length e1 + (length e1 - length e2))%nat
      with (length s - length e2)%nat by lia. done.
Qed.

Ltac table_cases H :=
  unfold LANGUAGE_MAPPINGS in H;
  repeat (apply elem_of_cons in H as [->|H]); [..|by apply elem_of_nil in H].

Ltac list_cases H :=
  cbn [languageNames extensions] in H;
  repeat (apply elem_of_cons in H as [->|H]); [..|by apply elem_of_nil in H].

(** No language name belongs to two mappings. *)
Lemma names_apart m m' x :
  m ∈ LANGUAGE_MAPPINGS -> m' ∈ LANGUAGE_MAPPINGS ->
  x ∈ languageNames m -> namedBy x m' = true -> m' = m.
Proof.
  intros Hm Hm' Hx Hn. table_cases Hm; list_cases Hx; table_cases Hm';
    first [reflexivity | by vm_compute in Hn].
Qed.

(** No two extensions of different mappings overlap. *)
Lemma extensions_apart m m' e e' :
  m ∈ LANGUAGE_MAPPINGS -> m' ∈ LANGUAGE_MAPPINGS ->
  e ∈ extensions m -> e' ∈ extensions m' -> overlap e e' = true -> m' = m.
Proof.
  intros Hm Hm' He He' Ho. table_cases Hm; list_cases He; table_cases Hm'; list_cases He';
    first [reflexivity | by vm_compute in Ho].
Qed.

Section facts.
Variable toLowerCase : jsstring -> jsstring.

Local Abbreviation byName := (byName toLowerCase).
Local Abbreviation byExtension := (byExtension toLowerCase).
Local Abbreviation getLanguageInfo := (getLanguageInfo toLowerCase).

Lemma byName_named lang l m :
  m ∈ LANGUAGE_MAPPINGS -> lang = Some l -> toLowerCase l ∈ languageNames m ->
  byName lang = Some m.
Proof.
  intros Hm -> Hl. unfold Language.byName. cbn [fmap option_fmap option_map].
  assert (Ht : truthy (Some (toLowerCase l)) = true).
  { destruct (toLowerCase l) eqn:E; [|done]. table_cases Hm; list_cases Hl; done. }
  rewrite Ht. change (default [] (Some ?x)) with x.
  apply find_unique; [done|by apply bool_decide_eq_true|].
  intros m' Hm' Hn. by eapply names_apart.
Qed.

Lemma byName_unnamed lang :
  (forall m l, m ∈ LANGUAGE_MAPPINGS -> lang = Some l -> toLowerCase l ∉ languageNames m) ->
  byName lang = None.
Proof.
  intros H. unfold Language.byName. destruct (truthy _) eqn:Ht; [|done].
  destruct lang as [l|]; [|done]. cbn [fmap option_fmap option_map].
  change (default [] (Some ?x)) with x.
  apply find_none. intros m Hm. apply bool_decide_eq_false. by eapply H.
Qed.

Lemma byExtension_extended path p m e :
  m ∈ LANGUAGE_MAPPINGS -> path = Some p -> e ∈ extensions m ->
  endsWith (toLowerCase p) e = true ->
  byExtension path = Some m.
Proof.
  intros Hm -> He Hends. unfold Language.byExtension. cbn [fmap option_fmap option_map].
  assert (Ht : truthy (Some (toLowerCase p)) = true).
  { destruct (toLowerCase p) eqn:E; [|done]. table_cases Hm; list_cases He; done. }
  rewrite Ht. change (default [] (Some ?x)) with x.
  apply find_unique; [done| |].
  - unfold extendedBy. apply existsb_exists. exists e. split; [|done].
    by apply list_elem_of_In.
  - intros m' Hm' Hx. unfold extendedBy in Hx. apply existsb_exists in Hx as (e' & He' & Hends').
    apply list_elem_of_In in He'.
    eapply extensions_apart; try done. by eapply endsWith_both.
Qed.

Lemma byExtension_none path :
  (forall m p e, m ∈ LANGUAGE_MAPPINGS -> path = Some p -> e ∈ extensions m ->
     endsWith (toLowerCase p) e = false) ->
  byExtension path = None.
Proof.
  intros H. unfold Language.byExtension. destruct (truthy _) eqn:Ht; [|done].
  destruct path as [p|]; [|done]. cbn [fmap option_fmap option_map].
  change (default [] (Some ?x)) with x.
  apply find_none. intros m Hm. unfold extendedBy.
  destruct (existsb _ _) eqn:Hx; [|done].
  apply existsb_exists in Hx as (e & He & Hends). apply list_elem_of_In in He.
  rewrite (H m p e) in Hends; done.
Qed.

Lemma byName_in lang m : byName lang = Some m -> m ∈ LANGUAGE_MAPPINGS.
Proof.
  unfold Language.byName. destruct (truthy _); [|done]. intros H.
  by apply find_some in H as [? _].
Qed.

Lemma byExtension_in path m : byExtension path = Some m -> m ∈ LANGUAGE_MAPPINGS.
Proof.
  unfold Language.byExtension. destruct (truthy _); [|done]. intros H.
  by apply find_some in H as [? _].
Qed.

Lemma table_fields m :
  m ∈ LANGUAGE_MAPPINGS ->
  mimeType m <> lit "text/plain" /\ fenceName m <> [] /\
  mimeType m ∈ [lit "text/x-python"; lit "text/x-typescript"; lit "text/markdown";
                lit "application/json"; lit "text/html"; lit "text/css"; lit "text/yaml"].
Proof.
  intros Hm. table_cases Hm; (split; [done|]); (split; [done|]); cbn [mimeType];
    repeat first [by apply list_elem_of_here | apply list_elem_of_further].
Qed.
End facts.

(** X10. The mapping that [getLanguageInfo] returns does not depend on the
    order of the table: when the lower-cased language is a name of a
    mapping, that mapping gives the MIME type and the fence name, whatever
    the path; when the language is absent, empty or no name of any mapping
    and the lower-cased path ends with an extension of a mapping, that
    mapping gives them; and when neither is the case the result is
    [text/plain] without a fence name. No name belongs to two mappings, and
    no path ends with extensions of two mappings. *)
Theorem getLanguageInfo_by_name_then_extension toLowerCase lang path :
  (forall m l, m ∈ LANGUAGE_MAPPINGS -> lang = Some l ->
     toLowerCase l ∈ languageNames m ->
     getLanguageInfo toLowerCase lang path = (mimeType m, Some (fenceName m))) /\
  ((forall m l, m ∈ LANGUAGE_MAPPINGS -> lang = Some l ->
      toLowerCase l ∉ languageNames m) ->
   (forall m p e, m ∈ LANGUAGE_MAPPINGS -> path = Some p -> e ∈ extensions m ->
      endsWith (toLowerCase p) e = true ->
      getLanguageInfo toLowerCase lang path = (mimeType m, Some (fenceName m))) /\
   ((forall m p e, m ∈ LANGUAGE_MAPPINGS -> path = Some p -> e ∈ extensions m ->
       endsWith (toLowerCase p) e = false) ->
    getLanguageInfo toLowerCase lang path = (lit "text/plain", None))).
Proof.
  split.
  - intros m l Hm Hl Hn. unfold getLanguageInfo.
    by rewrite (byName_named toLowerCase lang l m).
  - intros Hno. unfold getLanguageInfo. rewrite (byName_unnamed toLowerCase lang Hno). split.
    + intros m p e Hm Hp He Hends.
      by rewrite (byExtension_extended toLowerCase path p m e).
    + intros Hnone. by rewrite (byExtension_none toLowerCase path).
Qed.

(** X11. [mimeFromLangOrPath] returns [text/plain] exactly when [fenceLang]
    returns [undefined]; a fence name that is returned is never the empty
    string; and the MIME type is always one of the seven of the table or
    [text/plain]. *)
Theorem plain_text_iff_no_fence toLowerCase lang path :
  (mimeFromLangOrPath toLowerCase lang path = lit "text/plain"
   <-> fenceLang toLowerCase lang path = None) /\
  fenceLang toLowerCase lang path <> Some [] /\
  mimeFromLangOrPath toLowerCase lang path
    ∈ [lit "text/x-python"; lit "text/x-typescript"; lit "text/markdown";
       lit "application/json"; lit "text/html"; lit "text/css"; lit "text/yaml";
       lit "text/plain"].
Proof.
  unfold mimeFromLangOrPath, fenceLang, getLanguageInfo.
  assert (Hcase : forall m, m ∈ LANGUAGE_MAPPINGS ->
    ((mimeType m, Some (fenceName m)).1 = lit "text/plain"
     <-> (mimeType m, Some (fenceName m)).2 = None) /\
    (mimeType m, Some (fenceName m)).2 <> Some [] /\
    (mimeType m, Some (fenceName m)).1
      ∈ [lit "text/x-python"; lit "text/x-typescript"; lit "text/markdown";
         lit "application/json"; lit "text/html"; lit "text/css"; lit "text/yaml";
         lit "text/plain"]).
  { intros m Hm. destruct (table_fields m Hm) as (H1 & H2 & H3). cbn [fst snd].
    split; [split; [done|done]|]. split; [congruence|].
    clear -H3. revert H3. rewrite !elem_of_cons, !elem_of_nil. tauto. }
  destruct (byName toLowerCase lang) as [m|] eqn:Hn.
  { apply Hcase. by eapply byName_in. }
  destruct (byExtension toLowerCase path) as [m|] eqn:He.
  { apply Hcase. by eapply byExtension_in. }
  cbn [fst snd]. split; [done|]. split; [done|].
  repeat first [by apply list_elem_of_here | apply list_elem_of_further].
Qed.
End LanguageFacts.
(** * Properties of the [search_knowledge] handler *)
Module SearchHandlerFacts.
Import JsText PayloadCap Language SearchKnowledge SearchHandler.
Import SearchKnowledgeFacts.

(** *** Lines *)

Lemma splitLines_nonempty s : splitLines s <> [].
Proof.
  induction s as [|u s IH]; [done|]. cbn. destruct (u =? 10)%N; [done|].
  by destruct (splitLines s).
Qed.

Lemma join_cons sep x y l : join sep (x :: y :: l) = x ++ sep ++ join sep (y :: l).
Proof. done. Qed.

Lemma join_splitLines s : join lineFeed (splitLines s) = s.
Proof.
  induction s as [|u s IH]; [done|]. cbn [splitLines].
  pose proof (splitLines_nonempty s) as Hne.
  destruct (u =? 10)%N eqn:Hu.
  - apply N.eqb_eq in Hu. subst u.
    destruct (splitLines s) as [|l ls]; [done|]. by rewrite join_cons, IH.
  - destruct (splitLines s) as [|l ls]; [done|].
    destruct ls as [|l' ls].
    + cbn in IH |- *. by rewrite IH.
    + rewrite join_cons in IH |- *. by rewrite <- IH.
Qed.

Lemma join_two sep x y l : join sep (x :: y :: l) <> [] \/ sep = [].
Proof.
  destruct sep as [|u sep]; [by right|left]. rewrite join_cons.
  intros H. apply app_eq_nil in H as [_ H]. done.
Qed.

Lemma markLines_sublist first last cs ce : forall lines idx,
  lines `sublist_of` markLines first last cs ce idx lines.
Proof.
  induction lines as [|line lines IH]; intros idx; cbn [markLines]; [done|].
  apply sublist_inserts_l. cbn [app]. apply sublist_skip.
  apply sublist_inserts_l. apply IH.
Qed.

Lemma startMark_ahead first cs idx :
  (length (startMark first cs idx) + ahead first cs (idx + 1) <= ahead first cs idx)%nat.
Proof.
  unfold startMark, ahead. destruct cs as [c|]; [|done].
  destruct (bool_decide (first + idx = c)) eqn:Hb.
  - apply bool_decide_eq_true in Hb.
    rewrite (proj2 (Z.leb_le (first + idx) c)) by lia.
    rewrite (proj2 (Z.leb_gt (first + (idx + 1)) c)) by lia.
    destruct (first <? c); cbn; lia.
  - cbn. destruct (first + (idx + 1) <=? c) eqn:H1; [|cbn; lia].
    apply Z.leb_le in H1. rewrite (proj2 (Z.leb_le (first + idx) c)) by lia. done.
Qed.

Lemma endMark_ahead first last ce idx :
  (length (endMark first last ce idx) + ahead first ce (idx + 1) <= ahead first ce idx)%nat.
Proof.
  unfold endMark, ahead. destruct ce as [c|]; [|done].
  destruct (bool_decide (first + idx = c)) eqn:Hb.
  - apply bool_decide_eq_true in Hb.
    rewrite (proj2 (Z.leb_le (first + idx) c)) by lia.
    rewrite (proj2 (Z.leb_gt (first + (idx + 1)) c)) by lia.
    destruct (c <? last); cbn; lia.
  - cbn. destruct (first + (idx + 1) <=? c) eqn:H1; [|cbn; lia].
    apply Z.leb_le in H1. rewrite (proj2 (Z.leb_le (first + idx) c)) by lia. done.
Qed.

Lemma markLines_length first last cs ce : forall lines idx,
  (length (markLines first last cs ce idx lines)
   <= length lines + ahead first cs idx + ahead first ce idx)%nat.
Proof.
  induction lines as [|line lines IH]; intros idx; cbn [markLines]; [cbn; lia|].
  specialize (IH (idx + 1)). rewrite !length_app. cbn [length].
  pose proof (startMark_ahead first cs idx). pose proof (endMark_ahead first last ce idx).
  lia.
Qed.

Lemma markLines_plain first last cs ce : forall lines idx,
  (forall c, cs = Some c -> c <= first) -> (forall c, ce = Some c -> last <= c) ->
  markLines first last cs ce idx lines = lines.
Proof.
  intros lines idx Hs He. revert idx.
  induction lines as [|line lines IH]; intros idx; cbn [markLines]; [done|].
  rewrite IH.
  assert (H1 : startMark first cs idx = []).
  { unfold startMark. destruct cs as [c|]; [|done]. specialize (Hs c eq_refl).
    rewrite (proj2 (Z.ltb_ge _ _)) by lia. by rewrite andb_false_r. }
  assert (H2 : endMark first last ce idx = []).
  { unfold endMark. destruct ce as [c|]; [|done]. specialize (He c eq_refl).
    rewrite (proj2 (Z.ltb_ge _ _)) by lia. by rewrite andb_false_r. }
  by rewrite H1, H2.
Qed.

(** *** The assembled result *)

Section facts.
Variable toLowerCase : jsstring -> jsstring.
Variable typeErrorText : jsstring.

Local Abbreviation hitParts := (hitParts toLowerCase).
Local Abbreviation buildPromptReady := (buildPromptReady toLowerCase).
Local Abbreviation hitOf := (hitOf toLowerCase).
Local Abbreviation assembled := (assembled toLowerCase).

Lemma buildPromptReady_empty hits : buildPromptReady hits = [] <-> hits = [].
Proof.
  split; [|by intros ->].
  destruct hits as [|hit hits]; [done|]. unfold SearchHandler.buildPromptReady.
  cbn [fmap list_fmap concat]. unfold SearchHandler.hitParts at 1. cbn [app].
  rewrite bool_decide_eq_false_2 by done. intros H.
  apply app_eq_nil in H as [_ H]. done.
Qed.

Lemma assembled_content hits meta :
  content (assembled hits meta)
    = TextContent (summaryOf hits meta)
        :: (match hits with [] => [] | _ => [TextContent (buildPromptReady hits)] end)
        ++ ((fun hit => resourceBlock (hitOf hit)) <$> hits).
Proof.
  unfold SearchHandler.assembled, assemble. cbn [content]. f_equal.
  rewrite <- list_fmap_compose. f_equal.
  destruct hits as [|hit hits]; [done|].
  rewrite bool_decide_eq_true_2; [done|].
  destruct (buildPromptReady (hit :: hits)) eqn:E; [|cbn; lia].
  by apply buildPromptReady_empty in E.
Qed.

Lemma assembled_hits hits meta :
  SearchKnowledge.hits (_meta (assembled hits meta)) = (fun hit => metaHit (hitOf hit)) <$> hits.
Proof.
  unfold SearchHandler.assembled, assemble. cbn [_meta SearchKnowledge.hits].
  by rewrite <- list_fmap_compose.
Qed.

Lemma assembled_aligned hits meta : aligned (assembled hits meta).
Proof.
  unfold aligned. rewrite assembled_content, assembled_hits.
  destruct hits as [|hit hits]; [done|].
  cbn [length app]. rewrite !length_fmap. cbn [length]. lia.
Qed.

Lemma assembled_block hits meta i hit :
  hits !! i = Some hit ->
  content (assembled hits meta) !! (2 + i)%nat = Some (resourceBlock (hitOf hit)).
Proof.
  intros Hi. rewrite assembled_content.
  destruct hits as [|h0 hits]; [done|].
  change ((?a :: [?b] ++ ?l) !! (2 + i)%nat) with (l !! i).
  by rewrite list_lookup_fmap, Hi.
Qed.
End facts.

(** *** The size of what the trimming returns *)

Lemma trim_bounded capBytes shrunkCap minFloor h r :
  let out := trim capBytes shrunkCap minFloor h r in
  (out.2 = [] /\ jsonSizeBytes out.1 <= capBytes) \/
  (out.2 = [trimmedWarning] /\ complete (_meta out.1) = Some false /\
   (jsonSizeBytes out.1 <= capBytes + 17 - flagBytes (complete (_meta r)) \/
    (length (content out.1) <= 1)%nat)).
Proof.
  cbn zeta.
  destruct (trim_shape capBytes shrunkCap minFloor h r)
    as (r3 & [L R T E M] & [[Hfit ->]|(_ & d & -> & Hexit & _)]); cbn [fst snd].
  - by left.
  - right. split; [done|]. split; [done|]. cbn [content].
    destruct Hexit as [Hone|Hfit]; [by right|left].
    rewrite size_markPartial.
    assert (Heta : mkResult (content (dropped d r3)) (isError r3) (_meta (dropped d r3))
                   = dropped d r3) by done.
    rewrite Heta.
    assert (Hflag : complete (_meta (dropped d r3)) = complete (_meta r)).
    { unfold dropped, setHits. cbn [_meta complete]. by rewrite M. }
    rewrite Hflag. lia.
Qed.

(** X12. What the trimming returns is within the byte budget, or it was
    cut in step 4, is marked partial and logged, and then either exceeds
    the budget by no more than the 17 bytes of the [complete: false] member
    (by none when the search response already carried [complete: false])
    or has a single block left. For the handler the budget is 71680
    bytes. *)
Theorem trim_honours_the_cap capBytes shrunkCap minFloor h r :
  let out := trim capBytes shrunkCap minFloor h r in
  ((out.2 = [] /\ jsonSizeBytes out.1 <= capBytes) \/
   (out.2 = [trimmedWarning] /\ complete (_meta out.1) = Some false /\
    (jsonSizeBytes out.1 <= capBytes + 17 - flagBytes (complete (_meta r)) \/
     (length (content out.1) <= 1)%nat))) /\
  (complete (_meta r) = Some false ->
   jsonSizeBytes out.1 <= capBytes \/ (length (content out.1) <= 1)%nat) /\
  (jsonSizeBytes (trimPayload h r).1 <= 71697 \/
   (length (content (trimPayload h r).1) <= 1)%nat).
Proof.
  cbn zeta. split; [apply trim_bounded|]. split.
  - intros Hflag.
    destruct (trim_bounded capBytes shrunkCap minFloor h r) as [[_ H]|(_ & _ & [H|H])];
      cbn zeta in *; [by left| |by right].
    rewrite Hflag in H. cbn in H. left. lia.
  - unfold trimPayload.
    destruct (trim_bounded CAP_BYTES SHRUNK_SNIPPET_CHAR_CAP MIN_SNIPPET_CHAR_FLOOR h r)
      as [[_ H]|(_ & _ & [H|H])]; cbn zeta in *; [left| |by right].
    + pose proof (eq_refl : CAP_BYTES = 71680). lia.
    + pose proof (flagBytes_range (complete (_meta r))).
      pose proof (eq_refl : CAP_BYTES = 71680). left. lia.
Qed.

(** X13. The result the handler assembles has the summary as block 0; the
    prompt-ready text is empty exactly when there is no hit, so block 1 is
    the prompt-ready text whenever there is a hit, and block [2 + i] is then
    the resource block of hit [i], with its [kb://] link, the MIME type of
    its language or path, and its snippet; [metaHits] has one entry per
    hit, in the same order. The pairing of [metaHits[i]] with block
    [2 + i], on which the trimming relies, holds for every result that is
    assembled. *)
Theorem assembled_result_is_aligned toLowerCase hits meta :
  (buildPromptReady toLowerCase hits = [] <-> hits = []) /\
  content (assembled toLowerCase hits meta)
    = TextContent (summaryOf hits meta)
        :: (match hits with
            | [] => []
            | _ => [TextContent (buildPromptReady toLowerCase hits)]
            end)
        ++ ((fun hit => resourceBlock (hitOf toLowerCase hit)) <$> hits) /\
  SearchKnowledge.hits (_meta (assembled toLowerCase hits meta))
    = (fun hit => metaHit (hitOf toLowerCase hit)) <$> hits /\
  aligned (assembled toLowerCase hits meta) /\
  (forall i hit, hits !! i = Some hit ->
     content (assembled toLowerCase hits meta) !! (2 + i)%nat
       = Some (ResourceBlock
                 (lit "kb://" ++ repo hit ++ lit "/" ++ path hit ++ lit "#L"
                    ++ decimal (start_line hit) ++ lit "-L" ++ decimal (end_line hit))
                 (mimeFromLangOrPath toLowerCase (lang hit) (Some (path hit)))
                 (default [] (snippet hit)))).
Proof.
  split; [apply buildPromptReady_empty|]. split; [apply assembled_content|].
  split; [apply assembled_hits|]. split; [apply assembled_aligned|].
  intros i hit Hi. by rewrite (assembled_block toLowerCase hits meta i hit Hi).
Qed.

(** X14. In the fenced code of a hit the lines of the snippet are all
    there, in their order: marking the boundaries of the result inside its
    context adds at most two lines and removes none, and adds none when the
    chunk starts no later than the context and ends no earlier. Splitting a
    text at its line feeds and joining the lines gives the text back, so
    that a hit without context lines shows its snippet as it is. *)
Theorem context_markers_only_add toLowerCase first last chunkStart chunkEnd lines :
  lines `sublist_of` markLines first last chunkStart chunkEnd 0 lines /\
  (length (markLines first last chunkStart chunkEnd 0 lines) <= length lines + 2)%nat /\
  ((forall c, chunkStart = Some c -> c <= first) -> (forall c, chunkEnd = Some c -> last <= c) ->
     markLines first last chunkStart chunkEnd 0 lines = lines) /\
  (forall s, join lineFeed (splitLines s) = s) /\
  (forall hit, hasContext hit = false -> codeOf hit = default [] (snippet hit)) /\
  (forall hit, hasContext hit = true ->
     (forall c, chunk_start_line hit = Some c ->
        c <= default (start_line hit) (context_start_line hit)) ->
     (forall c, chunk_end_line hit = Some c ->
        default (end_line hit) (context_end_line hit) <= c) ->
     codeOf hit = default [] (snippet hit)) /\
  (forall hit, exists before fence,
     hitParts toLowerCase hit = before ++ [fence; codeOf hit; lit "```"]).
Proof.
  split; [apply markLines_sublist|]. split.
  { pose proof (markLines_length first last chunkStart chunkEnd lines 0) as H.
    unfold ahead in H. destruct chunkStart, chunkEnd; repeat destruct (_ <=? _); lia. }
  split; [apply markLines_plain|]. split; [apply join_splitLines|]. split.
  { intros hit H. unfold codeOf. by rewrite H. }
  split.
  { intros hit H Hs He. unfold codeOf. rewrite H. cbn [andb].
    destruct (truthy _); [|done]. rewrite markLines_plain by done. apply join_splitLines. }
  intros hit. unfold hitParts. eexists (_ ++ _), _. by rewrite <- app_assoc.
Qed.

(** *** The handler from the search response to the answer *)

Lemma transformHits_length hits m : forall index,
  length (transformHits index hits m) = length hits.
Proof. induction hits as [|hit hits IH]; intros index; cbn; [done|]. by rewrite IH. Qed.

Lemma transformHits_lookup hits m : forall index i hit,
  hits !! i = Some hit ->
  transformHits index hits m !! i = Some (transformHit hit (m !! (index + i)%nat)).
Proof.
  induction hits as [|h hits IH]; intros index i hit Hi; [done|].
  destruct i as [|i]; cbn [transformHits].
  - cbn in Hi |- *. inversion Hi; subst. by rewrite Nat.add_0_r.
  - change ((?x :: ?l) !! S i) with (l !! i).
    rewrite (IH (S index) i hit Hi). do 3 f_equal. lia.
Qed.

Lemma fetchSnippets_pending remote options requests sched :
  (length sched < length requests)%nat ->
  SnippetFetcher.fetchSnippetsInParallel remote options requests sched
    = SnippetFetcher.Pending _.
Proof.
  intros Hlt. unfold SnippetFetcher.fetchSnippetsInParallel.
  destruct (PoolFacts.mapWithConcurrency_ledger requests
              (SnippetFetcher.snippetMapper remote options)
              (Concurrency.mkOptions (Some (SnippetFetcher.maxConcurrentOpt options))) sched
              (SnippetFetcherFacts.snippetMapper_promising remote options))
    as (p & Hp & Hc & _ & Hres & _).
  rewrite Hp. unfold Concurrency.returned.
  destruct (Concurrency.resolved p) eqn:Hr; [|done].
  destruct Hres as [Hres _]. specialize (Hres eq_refl). lia.
Qed.

(** X15. Once the search has answered with [N] hits, the handler is
    pending until all [N] snippet fetches have settled and then returns a
    result that is not an error: block 0 is the summary line for the [N]
    hits; [metaHits] holds the first hits of the response, in order, as
    many as were not cut; hit [i] of them is paired with block [2 + i],
    which is the resource block with the [kb://] link of the hit and the
    MIME type of its language or path; and the serialized result is at most
    71697 bytes long (the budget of 71680 and the 17 bytes of the flag), or
    it is the summary block alone. *)
Theorem handler_answers toLowerCase typeErrorText config signal input hits meta remote sched :
  ((length sched < length hits)%nat ->
     handler toLowerCase typeErrorText config signal input (inr (hits, meta)) remote sched
       = SnippetFetcher.Pending _) /\
  ((length hits <= length sched)%nat ->
     exists r log transformed,
       handler toLowerCase typeErrorText config signal input (inr (hits, meta)) remote sched
         = SnippetFetcher.Resolves _ (Success r log) /\
       isError r = false /\
       length transformed = length hits /\
       repo <$> transformed = a_repo <$> hits /\
       content r !! 0%nat = Some (TextContent (summaryOf transformed meta)) /\
       aligned r /\
       (length (SearchKnowledge.hits (_meta r)) <= length hits)%nat /\
       (forall i, (i < length (SearchKnowledge.hits (_meta r)))%nat ->
          exists hit text,
            hits !! i = Some hit /\
            SearchKnowledge.hits (_meta r) !! i
              = Some (mkMetaHit (a_chunk_id hit) (a_repo hit) (a_path hit) (a_start_line hit)
                        (a_end_line hit) (a_score hit)) /\
            content r !! (2 + i)%nat
              = Some (ResourceBlock
                        (lit "kb://" ++ a_repo hit ++ lit "/" ++ a_path hit ++ lit "#L"
                           ++ decimal (a_start_line hit) ++ lit "-L"
                           ++ decimal (a_end_line hit))
                        (mimeFromLangOrPath toLowerCase
                           (orElse (a_language hit) (a_lang hit)) (Some (a_path hit)))
                        text)) /\
       (jsonSizeBytes r <= 71697 \/ length (content r) = 1%nat)).
Proof.
  split.
  - intros Hlt. unfold handler.
    rewrite fetchSnippets_pending; [done|]. by rewrite length_fmap.
  - intros Hlen. unfold handler.
    destruct (SnippetFetcherFacts.fetchSnippets_resolves remote
                (Config.fetchOptions config signal) (snippetRequest input <$> hits) sched)
      as (m & Hm & _); [by rewrite length_fmap|].
    rewrite Hm.
    set (transformed := transformHits 0 hits m).
    set (r0 := assembled toLowerCase transformed meta).
    assert (Hlt : length transformed = length hits) by apply transformHits_length.
    assert (Hrepo : repo <$> transformed = a_repo <$> hits).
    { apply list_eq. intros i. rewrite !list_lookup_fmap.
      destruct (hits !! i) as [hit|] eqn:Hi.
      - subst transformed. by rewrite (transformHits_lookup hits m 0 i hit Hi).
      - apply lookup_ge_None in Hi. rewrite (proj2 (lookup_ge_None transformed i)) by lia.
        done. }
    assert (H0 : content r0 !! 0%nat = Some (TextContent (summaryOf transformed meta))).
    { subst r0. by rewrite assembled_content. }
    pose proof (assembled_aligned toLowerCase transformed meta) as Hal. fold r0 in Hal.
    destruct (trim_first_block CAP_BYTES SHRUNK_SNIPPET_CHAR_CAP MIN_SNIPPET_CHAR_FLOOR
                (length transformed) r0 _ H0) as [Hfirst _].
    destruct (trim_pairs CAP_BYTES SHRUNK_SNIPPET_CHAR_CAP MIN_SNIPPET_CHAR_FLOOR
                (length transformed) r0 Hal) as [Hal' Hpairs].
    pose proof (trim_bounded CAP_BYTES SHRUNK_SNIPPET_CHAR_CAP MIN_SNIPPET_CHAR_FLOOR
                  (length transformed) r0) as Hb. cbn zeta in Hb.
    destruct (trim_shape CAP_BYTES SHRUNK_SNIPPET_CHAR_CAP MIN_SNIPPET_CHAR_FLOOR
                (length transformed) r0) as (r3 & [L R T E M] & Hshape).
    unfold trimPayload.
    destruct (trim CAP_BYTES SHRUNK_SNIPPET_CHAR_CAP MIN_SNIPPET_CHAR_FLOOR
                (length transformed) r0) as [r log] eqn:Htrim.
    cbn [fst snd] in *.
    exists r, log, transformed. split; [done|].
    assert (Herr : isError r = false).
    { destruct Hshape as [[_ Heq]|(_ & d & Heq & _)]; inversion Heq; subst; cbn [isError];
        by rewrite E. }
    assert (Hhits : (length (SearchKnowledge.hits (_meta r)) <= length hits)%nat).
    { destruct Hshape as [[_ Heq]|(_ & d & Heq & _)]; inversion Heq; subst.
      - rewrite M. subst r0. rewrite assembled_hits, length_fmap. lia.
      - unfold dropped, markPartial, setHits. cbn [_meta SearchKnowledge.hits].
        rewrite M. subst r0. rewrite assembled_hits, length_take, length_fmap. lia. }
    split; [done|]. split; [done|]. split; [done|]. split; [done|]. split; [done|].
    split; [done|]. split.
    + intros i Hi. destruct (Hpairs i Hi) as (Hh & b & b' & Hb0 & Hb' & Hres).
      destruct (lookup_lt_is_Some_2 hits i) as [hit Hhit]; [lia|].
      pose proof (transformHits_lookup hits m 0 i hit Hhit) as Ht. fold transformed in Ht.
      subst r0. rewrite (assembled_block toLowerCase transformed meta i _ Ht) in Hb0.
      inversion Hb0; subst b. rewrite assembled_hits, list_lookup_fmap, Ht in Hh.
      destruct b' as [|uri mime text]; [done|]. cbn in Hres. inversion Hres; subst.
      exists hit, text. split; [done|]. split; [exact Hh|]. exact Hb'.
    + destruct Hb as [[_ H]|(_ & _ & [H|H])].
      * left. pose proof (eq_refl : CAP_BYTES = 71680). lia.
      * left. pose proof (flagBytes_range (complete (_meta r0))).
        pose proof (eq_refl : CAP_BYTES = 71680). lia.
      * right. apply lookup_lt_Some in Hfirst. lia.
Qed.

Import HandlerExamples.

(** One hit with a line of context on either side: the citation gives the
    lines fetched, the fence the language, the markers frame the lines of
    the result, and nothing is trimmed. *)
Example one_hit_with_context :
  handler asciiLower [] (Config.CONFIG bareEnv) None oneLineAround (inr ([hitTs], quietMeta))
    fourLines [0%nat]
  = SnippetFetcher.Resolves _
      (Success
         (mkResult
            [TextContent (lit "Found 1 result across 1 repo.");
             TextContent
               (join lineFeed
                  [lit "[repoa] src/a.ts#L1-L4";
                   lit "```ts";
                   lit "a";
                   lit "# --- Result starts (line 2) ---";
                   lit "b";
                   lit "c";
                   lit "# --- Result ends (line 3) ---";
                   lit "d";
                   lit "```"] ++ lineFeed);
             ResourceBlock (lit "kb://repoa/src/a.ts#L2-L3") (lit "text/x-typescript")
               (join lineFeed [lit "a"; lit "b"; lit "c"; lit "d"])]
            false
            (mkMeta [mkMetaHit (lit "c1") (lit "repoa") (lit "src/a.ts") 2 3 (lit "0.91")]
               None None None None None None 12))
         []).
Proof. by vm_compute. Qed.

(** Two hits of two repositories without context lines; the second has no
    language and an upper-case extension. *)
Example two_hits_without_context :
  match handler asciiLower [] (Config.CONFIG bareEnv) None (mkInput None None)
          (inr ([hitTs; hitPy], quietMeta)) fourLines [1; 0]%nat with
  | SnippetFetcher.Resolves _ (Success r _) =>
      (content r !! 0%nat, resourceOf <$> content r !! 3%nat, length (content r))
  | _ => (None, None, 0%nat)
  end
  = (Some (TextContent (lit "Found 2 results across 2 repos.")),
     Some (Some (lit "kb://repob/lib/B.PY#L5-L5", lit "text/x-python")),
     4%nat).
Proof. by vm_compute. Qed.

Example graph_of_one_node :
  formatGraphContext (Some smallGraph)
  = join lineFeed
      [[]; lit "### Code Graph Context"; [];
       lit "**Entities:**";
       lit "- **function** `a.run` - run(x) (lines 2-3)";
       [];
       lit "**Calls:**";
       lit "- " ++ [8594%N] ++ lit " `b.load` (line 7)";
       lit "- " ++ [8594%N] ++ lit " `undefined`";
       [];
       lit "**Called by:**";
       lit "- " ++ [8592%N] ++ lit " `main`";
       []].
Proof. by vm_compute. Qed.

(** *** The graph section and the summary line *)

Lemma titled_length heading entries : (length (titled heading entries) <= 2 + length entries)%nat.
Proof. destruct entries; cbn; [lia|]. rewrite length_app. cbn. lia. Qed.

(** X16. [formatGraphContext] returns the empty string exactly when the
    context is missing or has no node, whatever relationships it holds;
    otherwise the text begins with an empty line, the heading, an empty line
    and the entities, so it is never empty. The relationships are listed in
    at most 25 lines plus one for each relationship that inherits or
    implements: five calls, five callers and five dependencies at most. *)
Theorem graph_context_needs_nodes graphContext :
  (formatGraphContext graphContext = []
   <-> forall ctx n ns, graphContext = Some ctx -> nodes ctx <> Some (n :: ns)) /\
  (forall ctx n ns, graphContext = Some ctx -> nodes ctx = Some (n :: ns) ->
     exists rest,
       formatGraphContext graphContext
         = lineFeed ++ lit "### Code Graph Context" ++ lineFeed ++ lineFeed
             ++ lit "**Entities:**" ++ lineFeed ++ nodeLine n ++ lineFeed ++ rest) /\
  (forall rels,
     (length (relationshipLines rels)
      <= 25 + length (filter (fun r => isRel "inherits" "outgoing" r = true) rels)
         + length (filter (fun r => rel_type r = lit "implements") rels))%nat).
Proof.
  assert (Hstart : forall ctx n ns, graphContext = Some ctx -> nodes ctx = Some (n :: ns) ->
     exists rest,
       formatGraphContext graphContext
         = lineFeed ++ lit "### Code Graph Context" ++ lineFeed ++ lineFeed
             ++ lit "**Entities:**" ++ lineFeed ++ nodeLine n ++ lineFeed ++ rest).
  { intros ctx n ns -> Hn. unfold formatGraphContext. rewrite Hn. unfold graphLines.
    cbn [app fmap list_fmap]. rewrite !join_cons. cbn [app].
    match goal with
    | |- context [join lineFeed (nodeLine n :: ?t)] => destruct t as [|l ls] eqn:E
    end.
    { apply app_eq_nil in E as [E _]. apply app_eq_nil in E as [_ E]. done. }
    rewrite join_cons. by eexists. }
  split; [|split; [exact Hstart|]].
  - split.
    + intros Hnil ctx n ns Hg Hn. destruct (Hstart ctx n ns Hg Hn) as [rest Hrest].
      rewrite Hnil in Hrest. done.
    + intros H. unfold formatGraphContext. destruct graphContext as [ctx|]; [|done].
      destruct (nodes ctx) as [[|n ns]|] eqn:Hn; [done| |done].
      by destruct (H ctx n ns eq_refl).
  - intros rels. unfold relationshipLines. rewrite !length_app.
    pose proof (titled_length "**Calls:**"
      (callsLine <$> take 5 (filter (fun r => isRel "calls" "outgoing" r = true) rels))) as H1.
    pose proof (titled_length "**Called by:**"
      (calledByLine <$> take 5 (filter (fun r => isRel "calls" "incoming" r = true) rels)))
      as H2.
    pose proof (titled_length "**Inherits from:**"
      (inheritsLine <$> filter (fun r => isRel "inherits" "outgoing" r = true) rels)) as H3.
    pose proof (titled_length "**Implementations:**"
      (implementsLine <$> filter (fun r => rel_type r = lit "implements") rels)) as H4.
    pose proof (titled_length "**Dependencies:**"
      (inheritsLine <$> take 5 (filter (fun r => isRel "imports" "outgoing" r = true) rels)))
      as H5.
    rewrite !length_fmap in *. rewrite !length_take in *. lia.
Qed.

Lemma remove_dups_bounds (l : list jsstring) :
  (length (remove_dups l) <= length l)%nat /\ (length (remove_dups l) = 0%nat <-> l = []).
Proof.
  split.
  - induction l as [|x l IH]; [done|]. cbn. destruct (decide_rel _ _ _); cbn; lia.
  - split; [|by intros ->]. intros H. apply nil_length_inv in H.
    destruct l as [|x l]; [done|].
    assert (Hx : x ∈ remove_dups (x :: l)) by (apply elem_of_remove_dups; by left).
    rewrite H in Hx. by apply elem_of_nil in Hx.
Qed.

(** X17. The summary line counts the hits and the distinct repository
    names among them: the number of repositories is at most the number of
    hits and is zero only without hits, so that the clause [across ...] is
    there exactly when there is a hit. Without hits, estimate and cursor the
    line is [Found 0 results.]; for a single hit it begins with
    [Found 1 result across 1 repo.]. *)
Theorem summary_counts_hits_and_repos hits meta :
  (length (remove_dups (repo <$> hits)) <= length hits)%nat /\
  (length (remove_dups (repo <$> hits)) = 0%nat <-> hits = []) /\
  (exists rest,
     summaryOf hits meta
       = lit "Found " ++ decimal (Z.of_nat (length hits)) ++ lit " result"
           ++ plural (length hits)
           ++ (match hits with
               | [] => []
               | _ => lit " across "
                        ++ decimal (Z.of_nat (length (remove_dups (repo <$> hits))))
                        ++ lit " repo" ++ plural (length (remove_dups (repo <$> hits)))
               end)
           ++ lit "." ++ rest) /\
  (estimated_total meta = None -> cursor meta = None ->
     summaryOf [] meta = lit "Found 0 results.") /\
  (forall hit, exists rest,
     summaryOf [hit] meta = lit "Found 1 result across 1 repo." ++ rest).
Proof.
  destruct (remove_dups_bounds (repo <$> hits)) as [Hle Hz]. rewrite length_fmap in Hle.
  split; [done|]. split.
  { rewrite Hz. split; [|by intros ->]. by destruct hits. }
  assert (Hgen : forall hs, exists rest,
     summaryOf hs meta
       = lit "Found " ++ decimal (Z.of_nat (length hs)) ++ lit " result"
           ++ plural (length hs)
           ++ (if bool_decide (0 < length (remove_dups (repo <$> hs)))%nat
               then lit " across "
                      ++ decimal (Z.of_nat (length (remove_dups (repo <$> hs))))
                      ++ lit " repo" ++ plural (length (remove_dups (repo <$> hs)))
               else [])
           ++ lit "." ++ rest).
  { intros hs. unfold summaryOf. cbn zeta.
    match goal with
    | |- context [join (lit " ") ([?f] ++ ?t)] => destruct t as [|x l] eqn:E
    end.
    - exists []. cbn [app join]. by rewrite app_nil_r.
    - exists (lit " " ++ join (lit " ") (x :: l)). cbn [app]. rewrite join_cons.
      by rewrite <- !app_assoc. }
  split.
  { destruct (Hgen hits) as [rest Hrest]. exists rest. rewrite Hrest.
    destruct hits as [|hit hs]; [done|].
    rewrite bool_decide_eq_true_2; [done|].
    destruct (decide (length (remove_dups (repo <$> hit :: hs)) = 0%nat)) as [E|E]; [|lia].
    by apply Hz in E. }
  split.
  - intros He Hc. unfold summaryOf. rewrite He, Hc. cbn zeta.
    rewrite andb_false_r. by vm_compute.
  - intros hit. destruct (Hgen [hit]) as [rest Hrest]. exists rest. rewrite Hrest.
    cbn [fmap list_fmap remove_dups length]. by vm_compute.
Qed.
End SearchHandlerFacts.
(** * The earlier snippet fetcher: the signal, and what the later version kept *)
Module LegacyFetcherFacts.
Import SnippetFetcher LegacyFetcher Observed.

Section facts.
Variable remote : nat -> Z -> jsstring -> jsstring -> Z -> Z -> RawReply.
Variable options : LegacyOptions.

Local Abbreviation retry := (LegacyFetcher.retryAttemptsOpt options).
Local Abbreviation aborted := (signalAborted options).
Local Abbreviation retryLoop' := (LegacyFetcher.retryLoop remote options).
Local Abbreviation TR := (Concurrency.TaskResult (option FileSliceResponse) RawThrown).

Lemma attemptOnce_calls index attempt item :
  (calls (LegacyFetcher.attemptOnce remote options index attempt item).2 <= 1)%nat /\
  (forall a s e,
     Attempt a s e ∈ (LegacyFetcher.attemptOnce remote options index attempt item).2 ->
     a = attempt /\ aborted index attempt = false).
Proof.
  unfold LegacyFetcher.attemptOnce. destruct (aborted index attempt) eqn:Ha.
  - split; [cbn; lia|]. intros a s e H. by apply elem_of_nil in H.
  - destruct item as [request|]; cbn [snd].
    + split; [cbn; lia|]. intros a s e H. apply list_elem_of_singleton in H.
      by inversion H.
    + split; [cbn; lia|]. intros a s e H. by apply elem_of_nil in H.
Qed.

(** The loop from attempt [attempt] on: every call is made at an attempt
    before which the signal read as not aborted, and no call is made at
    or after an attempt [a0] before which it reads as aborted. *)
Lemma retryLoop_signal : forall n attempt last index item,
  let res := retryLoop' n attempt last index item in
  (forall a s e, Attempt a s e ∈ res.2 -> attempt <= a /\ aborted index a = false) /\
  (forall a0, attempt <= a0 -> aborted index a0 = true ->
     Z.of_nat (calls res.2) <= a0 - attempt).
Proof.
  induction n as [|n IH]; intros attempt last index item; cbn zeta; cbn [LegacyFetcher.retryLoop].
  - split; [intros a s e H; by apply elem_of_nil in H|].
    intros a0 Hle Ha. cbn; lia.
  - pose proof (attemptOnce_calls index attempt item) as [Hc Hev].
    assert (Hab : aborted index attempt = true ->
              LegacyFetcher.attemptOnce remote options index attempt item
              = (inl (ErrorObject (lit "AbortError") (lit "Aborted")), [])).
    { intros Ha. unfold LegacyFetcher.attemptOnce. by rewrite Ha. }
    destruct (LegacyFetcher.attemptOnce remote options index attempt item) as [reply call]
      eqn:Hatt.
    cbn [fst snd] in *.
    assert (Hhere : forall a0, attempt <= a0 -> aborted index a0 = true ->
              Z.of_nat (calls call) <= a0 - attempt).
    { intros a0 Hle Ha. destruct (decide (a0 = attempt)) as [->|Hne]; [|lia].
      specialize (Hab Ha). inversion Hab; subst. cbn. lia. }
    destruct reply as [error|result]; [|by split; [intros a s e H;
      destruct (Hev a s e H) as [-> Hf]; split; [lia|done]|]].
    destruct (isAbortError error) eqn:Hae; cbn [fst snd].
    + split; [|done].
      intros a s e H. destruct (Hev a s e H) as [-> Hf]. split; [lia|done].
    + specialize (IH (attempt + 1) error index item). cbn zeta in IH.
      destruct (retryLoop' n (attempt + 1) error index item) as [s tr].
      cbn [fst snd] in *. destruct IH as [IH1 IH2]. split.
      * intros a s0 e H. rewrite !elem_of_app in H. destruct H as [H|[H|H]].
        -- destruct (Hev a s0 e H) as [-> Hf]. split; [lia|done].
        -- destruct (attempt <? retry); [|by apply elem_of_nil in H].
           apply list_elem_of_singleton in H. done.
        -- destruct (IH1 a s0 e H). split; [lia|done].
      * intros a0 Hle Ha.
        destruct (decide (a0 = attempt)) as [->|Hne].
        { specialize (Hab Ha). inversion Hab; subst. done. }
        specialize (IH2 a0 ltac:(lia) Ha).
        rewrite !BudgetFacts.calls_app.
        assert (Hs : calls (if attempt <? retry then [Backoff (2 ^ attempt * 100)] else [])
                     = 0%nat) by (by destruct (attempt <? retry)).
        rewrite Hs. lia.
Qed.

Lemma retryLoop_aborted n attempt last index item :
  aborted index attempt = true ->
  retryLoop' (S n) attempt last index item
    = (Rejected (ErrorObject (lit "AbortError") (lit "Aborted")), []).
Proof.
  intros Ha. cbn [LegacyFetcher.retryLoop]. unfold LegacyFetcher.attemptOnce.
  by rewrite Ha.
Qed.

Lemma legacy_mapper_promising :
  Concurrency.promising (LegacyFetcher.snippetMapper remote options).
Proof. intros item i. by eexists. Qed.

(** [forEach] visits every recorded result once; it cannot throw while
    every recorded position has a request. *)
Lemma legacy_forEach_lookup requests (results : list (option TR)) :
  forall index m0,
  (forall j r, results !! j = Some (Some r) -> is_Some (requests !! (index + j)%nat)) ->
  exists m, LegacyFetcher.forEachResult requests index results m0 = Some m /\
    forall i, m !! i =
      match (if decide (index <= i)%nat then results !! (i - index)%nat else None) with
      | Some (Some r) => LegacyFetcher.snippetOf requests i r
      | _ => m0 !! i
      end.
Proof.
  induction results as [|o results IH]; intros index m0 Hreq;
    cbn [LegacyFetcher.forEachResult].
  - exists m0. split; [done|]. intros i. destruct (decide _); by rewrite ?lookup_nil.
  - assert (Hreq' : forall j r, results !! j = Some (Some r) ->
              is_Some (requests !! (S index + j)%nat)).
    { intros j r Hj. replace (S index + j)%nat with (index + S j)%nat by lia.
      by apply (Hreq (S j) r). }
    destruct o as [result|].
    + destruct (Hreq 0%nat result) as [request Hrq]; [done|].
      rewrite Nat.add_0_r in Hrq.
      assert (Hsn : is_Some (LegacyFetcher.snippetOf requests index result)).
      { unfold LegacyFetcher.snippetOf. rewrite Hrq.
        destruct (Concurrency.success result), (Concurrency.data result) as [[r|]|]; eauto. }
      destruct Hsn as [snippet Hsn]. rewrite Hsn. cbn.
      destruct (IH (S index) (<[index := snippet]> m0) Hreq') as (m & Hm & Hlk).
      exists m. split; [done|]. intros i. rewrite Hlk.
      destruct (decide (S index <= i)%nat) as [Hle|Hnle].
      * rewrite decide_True by lia.
        replace (i - index)%nat with (S (i - S index)) by lia. cbn.
        destruct (results !! _) as [[r|]|]; [done|..]; rewrite lookup_insert_ne; done || lia.
      * destruct (decide (index <= i)%nat) as [Hle'|Hnle'].
        -- assert (i = index) as -> by lia. rewrite Nat.sub_diag. cbn.
           by rewrite lookup_insert_eq.
        -- rewrite lookup_insert_ne; done || lia.
    + destruct (IH (S index) m0 Hreq') as (m & Hm & Hlk).
      exists m. split; [done|]. intros i. rewrite Hlk.
      destruct (decide (S index <= i)%nat) as [Hle|Hnle].
      * rewrite decide_True by lia.
        replace (i - index)%nat with (S (i - S index)) by lia. done.
      * destruct (decide (index <= i)%nat) as [Hle'|Hnle']; [|done].
        assert (i = index) as -> by lia. rewrite Nat.sub_diag. done.
Qed.

(** The batch resolves, and position [i] holds the snippet made from
    what the mapper's promise for request [i] settled to. *)
Lemma legacy_batch_resolves requests sched :
  (length requests <= length sched)%nat ->
  exists m, LegacyFetcher.fetchSnippetsInParallel remote options requests sched
            = Resolves _ m /\
    (forall i, (length requests <= i)%nat -> m !! i = None) /\
    (forall i request, requests !! i = Some request ->
       m !! i = match fst (LegacyFetcher.fetchWithRetry remote options i (Some request)) with
                | Fulfilled (Some r) =>
                    Some (mkLegacyResult (slice_content r) (slice_warnings r))
                | Fulfilled None | Rejected _ => Some LegacyFetcher.failurePlaceholder
                end).
Proof.
  intros Hlen. unfold LegacyFetcher.fetchSnippetsInParallel.
  destruct (ConcurrencyFacts.promising_resolves requests
              (LegacyFetcher.snippetMapper remote options)
              (Concurrency.mkOptions (Some (LegacyFetcher.maxConcurrentOpt options))) sched
              legacy_mapper_promising Hlen)
    as (p & res & Hp & Hres & Hl & Hall & _).
  rewrite Hp, Hres.
  destruct (legacy_forEach_lookup requests res 0 ∅) as (m & Hm & Hlk).
  { intros j r Hj. cbn. apply lookup_lt_is_Some. rewrite <- Hl. by eapply lookup_lt_Some. }
  rewrite Hm. exists m. split; [done|]. split.
  - intros i Hi. rewrite Hlk. rewrite decide_True by lia. rewrite Nat.sub_0_r.
    rewrite lookup_ge_None_2 by lia. apply lookup_empty.
  - intros i request Hrq. rewrite Hlk. rewrite decide_True by lia. rewrite Nat.sub_0_r.
    apply lookup_lt_Some in Hrq as Hi.
    destruct (Hall i Hi) as (r & Hr & _ & s & Hs & ->). rewrite Hr.
    rewrite Hrq in Hs. cbn in Hs. inversion Hs as [Hs']. clear Hs.
    unfold LegacyFetcher.snippetOf. rewrite Hrq.
    by destruct (fst _) as [[sl|]|e] eqn:Hfst.
Qed.

(** With a signal that never reads as aborted, a request that starts at
    line 1 or later and replies that both versions read alike, the loop
    does what the loop of the later version does on the request without
    context lines. *)
Lemma retryLoop_later (typed : nat -> Z -> jsstring -> jsstring -> Z -> Z -> Reply) :
  forall n attempt last index request,
  (forall a, aborted index a = false) -> 1 <= l_startLine request ->
  (forall a repo path s e, typedAs (remote index a repo path s e) (typed index a repo path s e)) ->
  let new := SnippetFetcher.retryLoop typed (laterOptions options) n attempt (wrapped last)
               index (later request) in
  let old := retryLoop' n attempt last index (Some request) in
  old.2 = new.2 /\
  match old.1, new.1 with
  | Fulfilled (Some r), Fulfilled (r', _) => r = r'
  | Rejected e, Rejected e' => e' = wrapped e
  | _, _ => False
  end.
Proof.
  intros n attempt last index request Hsig Hline Hty. revert attempt last.
  induction n as [|n IH]; intros attempt last; cbn zeta;
    cbn [LegacyFetcher.retryLoop SnippetFetcher.retryLoop]; [done|].
  unfold LegacyFetcher.attemptOnce, SnippetFetcher.attemptOnce, callRemote.
  rewrite Hsig.
  assert (Hs : fetchStartLineOf (later request) = l_startLine request).
  { unfold fetchStartLineOf, later. cbn. lia. }
  assert (He : fetchEndLineOf (later request) = l_endLine request).
  { unfold fetchEndLineOf, later. cbn. lia. }
  rewrite Hs, He.
  change (repo (later request)) with (l_repo request).
  change (path (later request)) with (l_path request).
  change (SnippetFetcher.requestTimeoutMsOpt (laterOptions options))
    with (LegacyFetcher.requestTimeoutMsOpt options).
  change (SnippetFetcher.retryAttemptsOpt (laterOptions options)) with retry.
  destruct (Hty attempt (trim (l_repo request)) (l_path request) (l_startLine request)
              (l_endLine request)) as [Hlat Hout].
  set (raw := remote index attempt _ _ _ _) in *.
  set (reply := typed index attempt _ _ _ _) in *.
  rewrite Hlat.
  destruct (LegacyFetcher.requestTimeoutMsOpt options <? latency reply).
  { done. }
  destruct (raw_outcome raw) as [error|[result|]]; [|by rewrite Hout|done].
  destruct Hout as [-> Hname].
  assert (Hab : LegacyFetcher.isAbortError error = SnippetFetcher.isAbortError (wrapped error)).
  { unfold LegacyFetcher.isAbortError, SnippetFetcher.isAbortError.
    destruct error as [name message|[name|] code message|];
      cbn [rawName wrapped errName].
    - apply bool_decide_ext. split; [by intros [= ->]|by intros ->].
    - rewrite bool_decide_eq_false_2; [done|].
      intros [= ->]. by destruct (Hname code message).
    - done.
    - done. }
  rewrite <- Hab. destruct (LegacyFetcher.isAbortError error); [done|].
  specialize (IH (attempt + 1) error). cbn zeta in IH.
  destruct (retryLoop' n (attempt + 1) error index (Some request)) as [s tr].
  destruct (SnippetFetcher.retryLoop _ _ _ _ _ _ _) as [s' tr'].
  cbn [fst snd] in *. destruct IH as [-> IH]. done.
Qed.
End facts.

Import Examples LegacyExamples.

(** A signal that is aborted before the call, and a service that answers
    the first call with HTTP 500: the earlier version makes no call. *)
Example aborted_before_the_call :
  LegacyFetcher.fetchWithRetry (receivedFrom failsOnce)
    (mkLegacyOptions None None (Some 1) (Some (fun _ _ => true))) 0
    (Some (mkLegacyRequest (lit " repoa ") (lit "src/a.ts") 1 10))
  = (Rejected (ErrorObject (lit "AbortError") (lit "Aborted")), []).
Proof. reflexivity. Qed.

(** A signal that is aborted during the first back-off: one call, one
    sleep, and the rejection. *)
Example aborted_during_backoff :
  LegacyFetcher.fetchWithRetry (receivedFrom failsOnce)
    (mkLegacyOptions None None (Some 1) (Some (fun _ attempt => 1 <=? attempt))) 0
    (Some (mkLegacyRequest (lit " repoa ") (lit "src/a.ts") 1 10))
  = (Rejected (ErrorObject (lit "AbortError") (lit "Aborted")),
     [Attempt 0 1 10; Backoff 100]).
Proof. by vm_compute. Qed.

(** X18. In the earlier version of the snippet fetcher (part_010) the
    caller's signal is read before every attempt: a call of the remote
    service is only made at an attempt before which the signal read as not
    aborted; if the signal reads as aborted before attempt [a0], at most
    [a0] calls are made for the request; a signal aborted before the first
    attempt makes no call at all, and in the batch, which still resolves
    with an entry for every position, such a position holds the failure
    placeholder. *)
Theorem earlier_version_reads_the_signal remote options index request requests sched :
  let res := LegacyFetcher.fetchWithRetry remote options index (Some request) in
  (forall a s e, Attempt a s e ∈ res.2 -> signalAborted options index a = false) /\
  (forall a0, 0 <= a0 -> signalAborted options index a0 = true ->
     Z.of_nat (calls res.2) <= a0) /\
  (0 <= LegacyFetcher.retryAttemptsOpt options -> signalAborted options index 0 = true ->
     res = (Rejected (ErrorObject (lit "AbortError") (lit "Aborted")), [])) /\
  ((length requests <= length sched)%nat ->
     exists m,
       LegacyFetcher.fetchSnippetsInParallel remote options requests sched = Resolves _ m /\
       (forall i, is_Some (m !! i) <-> (i < length requests)%nat) /\
       (forall i, (i < length requests)%nat -> 0 <= LegacyFetcher.retryAttemptsOpt options ->
          signalAborted options i 0 = true ->
          m !! i = Some LegacyFetcher.failurePlaceholder)).
Proof.
  cbn zeta. unfold LegacyFetcher.fetchWithRetry.
  destruct (retryLoop_signal remote options
              (Z.to_nat (LegacyFetcher.retryAttemptsOpt options + 1)) 0 Undefined index
              (Some request)) as [H1 H2].
  cbn zeta in H1, H2. split; [|split; [|split]].
  - intros a s e H. by destruct (H1 a s e H).
  - intros a0 Hle Ha. specialize (H2 a0 Hle Ha). lia.
  - intros Hr Ha.
    replace (Z.to_nat (LegacyFetcher.retryAttemptsOpt options + 1))
      with (S (Z.to_nat (LegacyFetcher.retryAttemptsOpt options))) by lia.
    by apply retryLoop_aborted.
  - intros Hlen.
    destruct (legacy_batch_resolves remote options requests sched Hlen) as (m & Hm & Hout & Hin).
    exists m. split; [done|]. split.
    + intros i. split.
      * intros Hsome. destruct (decide (i < length requests)%nat) as [|Hge]; [done|].
        rewrite Hout in Hsome by lia. by destruct Hsome.
      * intros Hi. destruct (lookup_lt_is_Some_2 requests i Hi) as [rq Hrq].
        rewrite (Hin i rq Hrq). by destruct (fst _) as [[r|]|e].
    + intros i Hi Hr Ha. destruct (lookup_lt_is_Some_2 requests i Hi) as [rq Hrq].
      rewrite (Hin i rq Hrq). unfold LegacyFetcher.fetchWithRetry.
      replace (Z.to_nat (LegacyFetcher.retryAttemptsOpt options + 1))
        with (S (Z.to_nat (LegacyFetcher.retryAttemptsOpt options))) by lia.
      by rewrite retryLoop_aborted.
Qed.

(** A reply of the later model is read alike by both versions. *)
Lemma received_typedAs reply : typedAs (received reply) reply.
Proof.
  unfold typedAs, received. cbn [raw_latency raw_outcome]. split; [done|].
  by destruct (outcome reply) as [[name message|code message|]|r].
Qed.

(** The earlier version reads the name of the body and gives up after one
    call; the later version wraps the body in an [Error], sleeps and
    calls again. *)
Example named_body_ends_the_earlier_loop :
  LegacyFetcher.fetchWithRetry namedBody (mkLegacyOptions None None (Some 1) None) 0
    (Some (mkLegacyRequest (lit "repoa") (lit "src/a.ts") 1 10))
  = (Rejected (PlainObject (Some (lit "AbortError")) (lit "upstream_error") (lit "HTTP 500")),
     [Attempt 0 1 10]) /\
  SnippetFetcher.fetchWithRetry namedBodyTyped
    (laterOptions (mkLegacyOptions None None (Some 1) None)) 0
    (later (mkLegacyRequest (lit "repoa") (lit "src/a.ts") 1 10))
  = (Fulfilled (hello, mkMetadata 1 10 1 10), [Attempt 0 1 10; Backoff 100; Attempt 1 1 10]).
Proof. by vm_compute. Qed.

(** A reply that is not truthy, the body [null] say: the earlier version
    returns it after one call, and [forEach] puts the failure placeholder
    in its place. *)
Example falsy_reply_is_a_failure :
  LegacyFetcher.fetchWithRetry (fun _ _ _ _ _ _ => mkRawReply 20 (inr None))
    (mkLegacyOptions None None (Some 1) None) 0
    (Some (mkLegacyRequest (lit "repoa") (lit "src/a.ts") 1 10))
  = (Fulfilled None, [Attempt 0 1 10]) /\
  LegacyFetcher.fetchSnippetsInParallel (fun _ _ _ _ _ _ => mkRawReply 20 (inr None))
    (mkLegacyOptions None None (Some 1) None)
    [mkLegacyRequest (lit "repoa") (lit "src/a.ts") 1 10] [0%nat]
  = Resolves _ {[ 0%nat := LegacyFetcher.failurePlaceholder ]}.
Proof. by vm_compute. Qed.

(** X19. What the later version kept: when the caller's signal never
    reads as aborted (or none is given), every request starts at line 1 or
    later, and every reply of the service is one that both versions read
    alike (a [FileSliceResponse], or something thrown that is not a plain
    object with [name: "AbortError"]), the earlier version and the later
    one, run on the same requests without context lines, with the same
    limits and the same time-out, resolve with the same content and the
    same warnings at every position. *)
Theorem later_version_keeps_results service remote options requests sched :
  (forall i a, signalAborted options i a = false) ->
  Forall (fun request => 1 <= l_startLine request) requests ->
  (forall index attempt repo path s e,
     typedAs (service index attempt repo path s e) (remote index attempt repo path s e)) ->
  (length requests <= length sched)%nat ->
  exists m m',
    LegacyFetcher.fetchSnippetsInParallel service options requests sched = Resolves _ m /\
    SnippetFetcher.fetchSnippetsInParallel remote (laterOptions options) (later <$> requests)
      sched = Resolves _ m' /\
    forall i, m !! i = earlier <$> (m' !! i).
Proof.
  intros Hsig Hlines Hty Hlen.
  destruct (legacy_batch_resolves service options requests sched Hlen) as (m & Hm & Hout & Hin).
  destruct (SnippetFetcherFacts.fetchSnippets_resolves remote (laterOptions options)
              (later <$> requests) sched) as (m' & Hm' & Hout' & Hin');
    [by rewrite length_fmap|].
  exists m, m'. split; [done|]. split; [done|]. intros i.
  destruct (requests !! i) as [request|] eqn:Hrq.
  - rewrite (Hin i request Hrq).
    rewrite (Hin' i (later request)) by (by rewrite list_lookup_fmap, Hrq).
    assert (Hline : 1 <= l_startLine request).
    { rewrite Forall_forall in Hlines. apply Hlines. by eapply list_elem_of_lookup_2. }
    unfold LegacyFetcher.fetchWithRetry, SnippetFetcher.fetchWithRetry.
    change (SnippetFetcher.retryAttemptsOpt (laterOptions options))
      with (LegacyFetcher.retryAttemptsOpt options).
    pose proof (retryLoop_later service options remote
                  (Z.to_nat (LegacyFetcher.retryAttemptsOpt options + 1)) 0
                  LegacyFetcher.Undefined i request (Hsig i) Hline (Hty i)) as Hloop.
    cbn zeta in Hloop. cbn [wrapped] in Hloop. destruct Hloop as [_ Hloop].
    destruct (fst (LegacyFetcher.retryLoop _ _ _ _ _ _ _)) as [[r|]|e];
      destruct (fst (SnippetFetcher.retryLoop _ _ _ _ _ _ _)) as [[r' md]|e']; try done.
    by subst r'.
  - apply lookup_ge_None in Hrq.
    rewrite Hout by lia. rewrite Hout' by (rewrite length_fmap; lia). done.
Qed.

Lemma later_version_keeps_results_witness :
  exists m m',
    LegacyFetcher.fetchSnippetsInParallel (receivedFrom failsOnce)
      (mkLegacyOptions None None (Some 1) None)
      [mkLegacyRequest (lit " repoa ") (lit "src/a.ts") 1 10] [0%nat] = Resolves _ m /\
    SnippetFetcher.fetchSnippetsInParallel failsOnce
      (laterOptions (mkLegacyOptions None None (Some 1) None))
      (later <$> [mkLegacyRequest (lit " repoa ") (lit "src/a.ts") 1 10]) [0%nat]
      = Resolves _ m' /\
    forall i, m !! i = earlier <$> (m' !! i).
Proof.
  apply (later_version_keeps_results (receivedFrom failsOnce) failsOnce
           (mkLegacyOptions None None (Some 1) None)
           [mkLegacyRequest (lit " repoa ") (lit "src/a.ts") 1 10] [0%nat]).
  - intros i a. reflexivity.
  - repeat constructor. cbn. lia.
  - intros index attempt repo path s e. apply received_typedAs.
  - cbn. lia.
Defined.
End LegacyFetcherFacts.
(** * Properties of the log rotation *)
Module LoggerFacts.
Import Logger.

Lemma rotateStep_eq (fs : Files) i :
  rotateStep fs i = match fs !! i with
                    | Some bytes => <[(i + 1)%nat := bytes]> (delete i fs)
                    | None => fs
                    end.
Proof.
  unfold rotateStep, fileExists, rename. destruct (fs !! i) as [b|].
  - by rewrite bool_decide_eq_true_2 by eauto.
  - by rewrite bool_decide_eq_false_2 by (by intros [? ?]).
Qed.

Lemma rotateStep_src (fs : Files) i : rotateStep fs i !! i = None.
Proof.
  rewrite rotateStep_eq. destruct (fs !! i) as [b|] eqn:H; [|done].
  rewrite lookup_insert_ne by lia. apply lookup_delete_eq.
Qed.

Lemma rotateStep_dst (fs : Files) i :
  rotateStep fs i !! S i = match fs !! i with Some b => Some b | None => fs !! S i end.
Proof.
  rewrite rotateStep_eq. destruct (fs !! i) as [b|] eqn:H; [|done].
  replace (i + 1)%nat with (S i) by lia. apply lookup_insert_eq.
Qed.

Lemma rotateStep_ne (fs : Files) i j :
  j <> i -> j <> S i -> rotateStep fs i !! j = fs !! j.
Proof.
  intros H1 H2. rewrite rotateStep_eq. destruct (fs !! i) as [b|] eqn:H; [|done].
  rewrite lookup_insert_ne by lia. by rewrite lookup_delete_ne.
Qed.

Lemma rotate_over (fs : Files) bytes :
  fs !! 0%nat = Some bytes -> MAX_LOG_BYTES <= Z.of_nat (length bytes) ->
  forall i,
    rotateIfNeeded fs !! i
      = match i with
        | 0%nat => None
        | 1%nat => Some bytes
        | 2%nat => fs !! 1%nat
        | 3%nat => match fs !! 2%nat with Some b => Some b | None => fs !! 3%nat end
        | _ => fs !! i
        end.
Proof.
  intros H0 Hbig i. unfold rotateIfNeeded. rewrite H0.
  rewrite (proj2 (Z.ltb_ge _ _)) by lia.
  change (reverse (seq 1 (MAX_ROTATIONS - 1))) with [2; 1]%nat. cbn [foldl].
  change (if fileExists ?g 0 then rename 0 1 ?g else ?g) with (rotateStep g 0).
  destruct i as [|[|[|[|i]]]].
  - apply rotateStep_src.
  - rewrite rotateStep_dst, !rotateStep_ne, H0 by lia. done.
  - rewrite rotateStep_ne, rotateStep_dst, rotateStep_src, rotateStep_ne by lia.
    by destruct (fs !! 1%nat).
  - rewrite !rotateStep_ne by lia. apply rotateStep_dst.
  - by rewrite !rotateStep_ne by lia.
Qed.

Lemma rotate_under (fs : Files) :
  (forall bytes, fs !! 0%nat = Some bytes -> Z.of_nat (length bytes) < MAX_LOG_BYTES) ->
  rotateIfNeeded fs = fs.
Proof.
  intros H. unfold rotateIfNeeded. destruct (fs !! 0%nat) as [bytes|]; [|done].
  by rewrite (proj2 (Z.ltb_lt _ _)) by (by apply H).
Qed.

(** X20. Writing a line leaves a log file that ends with that line and
    holds less than 5 MB before it: a log file that has reached the limit
    is first moved to [mcp.log.1], the former [mcp.log.1] to [mcp.log.2] and
    the former [mcp.log.2] to [mcp.log.3], whose former content is the only
    one dropped; below the limit no other file is touched. No file beyond
    [mcp.log.3] is ever created or changed. *)
Theorem writeLine_rotates payload (fs : Files) :
  (exists before, writeLine payload fs !! 0%nat = Some (before ++ payload) /\
     Z.of_nat (length before) < MAX_LOG_BYTES) /\
  (forall i, (3 < i)%nat -> writeLine payload fs !! i = fs !! i) /\
  (forall bytes, fs !! 0%nat = Some bytes -> MAX_LOG_BYTES <= Z.of_nat (length bytes) ->
     writeLine payload fs !! 0%nat = Some payload /\
     writeLine payload fs !! 1%nat = Some bytes /\
     writeLine payload fs !! 2%nat = fs !! 1%nat /\
     writeLine payload fs !! 3%nat
       = match fs !! 2%nat with Some b => Some b | None => fs !! 3%nat end) /\
  ((forall bytes, fs !! 0%nat = Some bytes -> Z.of_nat (length bytes) < MAX_LOG_BYTES) ->
     writeLine payload fs = <[0%nat := default [] (fs !! 0%nat) ++ payload]> fs).
Proof.
  assert (Hcases : (exists bytes, fs !! 0%nat = Some bytes /\
                      MAX_LOG_BYTES <= Z.of_nat (length bytes)) \/
                   (forall bytes, fs !! 0%nat = Some bytes ->
                      Z.of_nat (length bytes) < MAX_LOG_BYTES)).
  { destruct (fs !! 0%nat) as [bytes|]; [|by right].
    destruct (decide (MAX_LOG_BYTES <= Z.of_nat (length bytes))); [left; eauto|right].
    intros b [= <-]. lia. }
  split; [|split; [|split]].
  - unfold writeLine. rewrite lookup_insert_eq.
    destruct Hcases as [(bytes & H0 & Hbig)|Hsmall].
    + exists []. rewrite (rotate_over fs bytes H0 Hbig 0). split; [done|]. by cbn.
    + rewrite (rotate_under fs Hsmall).
      destruct (fs !! 0%nat) as [bytes|] eqn:H0; [|exists []; split; [done|by cbn]].
      exists bytes. split; [done|]. by apply Hsmall.
  - intros i Hi. unfold writeLine. rewrite lookup_insert_ne by lia.
    destruct Hcases as [(bytes & H0 & Hbig)|Hsmall].
    + rewrite (rotate_over fs bytes H0 Hbig i). by do 4 (destruct i as [|i]; [lia|]).
    + by rewrite (rotate_under fs Hsmall).
  - intros bytes H0 Hbig. unfold writeLine.
    rewrite lookup_insert_eq, !lookup_insert_ne by lia.
    rewrite (rotate_over fs bytes H0 Hbig 0), (rotate_over fs bytes H0 Hbig 1),
      (rotate_over fs bytes H0 Hbig 2), (rotate_over fs bytes H0 Hbig 3). done.
  - intros Hsmall. unfold writeLine. by rewrite (rotate_under fs Hsmall).
Qed.
End LoggerFacts.
